(** * Vectorial light-sheet simulation: a shallow embedding of [microscope.py]

    The development follows the methods of the [Microscope] class.

    Conventions of the embedding.
    - A Python [float] or a NumPy [float64] scalar is idealised as a real
      number of [R]; rounding is not modelled.  Where the program relies on
      the special values of IEEE arithmetic (not-a-number, the infinities),
      the value lives in [fval], which adds them to [R].
    - NumPy code that works element by element is modelled at one pixel.
    - A method that mutates [self] and may raise is a function from the
      attributes it touches to an outcome and the attributes as the method
      leaves them ([py]); the mutations made before a raise are kept.
    - Functions of the module [other_functions], which the file imports, are
      Variables of the Sections that use them. *)

From Stdlib Require Import Reals Lra Lia ZArith List Bool.
From Stdlib Require String.
From Stdlib Require Floats.
Import ListNotations.

Set Implicit Arguments.

(** ** Exceptions and the monad of a method *)

Inductive pyexn : Type :=
| TypeError
| ValueError
| IndexError
| ZeroDivisionError
| AttributeError
| UnboundLocalError.

Inductive result (A : Type) : Type :=
| Ok (a : A)
| Raise (e : pyexn).

Arguments Ok {A} a.
Arguments Raise {A} e.

(** A method over the attributes [S]: the outcome and the attributes after. *)
Definition py (S A : Type) : Type := S -> result A * S.

Definition ret {S A} (a : A) : py S A := fun s => (Ok a, s).

Definition bind {S A B} (m : py S A) (k : A -> py S B) : py S B :=
  fun s =>
    match m s with
    | (Ok a, s') => k a s'
    | (Raise e, s') => (Raise e, s')
    end.

Definition raise {S A} (e : pyexn) : py S A := fun s => (Raise e, s).
Definition get {S} : py S S := fun s => (Ok s, s).
Definition put {S} (s : S) : py S unit := fun _ => (Ok tt, s).

(** An expression that may raise, run inside a method. *)
Definition lift {S A} (r : result A) : py S A := fun s => (r, s).

Declare Scope py_scope.
Delimit Scope py_scope with py.
Notation "x <- m ;; k" := (bind m (fun x => k))
  (at level 61, m at next level, right associativity) : py_scope.
Notation "m ;;; k" := (bind m (fun _ => k))
  (at level 61, right associativity) : py_scope.

(** ** The optical elements *)

Record Lens : Type := mkLens {
  NA : R;   (* numerical aperture *)
  RI : R;   (* refractive index *)
  rot : R   (* rotation of the lens *)
}.

Record Camera : Type := mkCamera {
  res : Z;      (* field of view, in pixels *)
  vox : R;      (* voxel size *)
  offset : R;
  RMS : R
}.

(** ** Python values, for an argument whose type the method tests *)

Inductive pyval : Type :=
| PyNone
| PyBool (b : bool)
| PyInt (z : Z)
| PyFloat (x : R)
| PyStr (s : String.string).

(** [v == False]: [False] is the number 0, so a number compares by value. *)
Definition eq_False (v : pyval) : bool :=
  match v with
  | PyBool b => negb b
  | PyInt z => Z.eqb z 0
  | PyFloat x => if Req_dec_T x 0 then true else false
  | PyNone | PyStr _ => false
  end.

(** [type(v) is int]: a [bool] is not of type [int]. *)
Definition type_is_int (v : pyval) : bool :=
  match v with
  | PyInt _ => true
  | _ => false
  end.

(** ** Python lists *)

Module PyList.

(** [l.insert(i, x)]: a negative [i] counts from the end, and an index
    beyond either end is clamped. *)
Definition insert {A} (i : Z) (x : A) (l : list A) : list A :=
  let n := Z.of_nat (length l) in
  let j := if (i <? 0)%Z then Z.max 0 (i + n) else Z.min i n in
  firstn (Z.to_nat j) l ++ x :: skipn (Z.to_nat j) l.

(** [l[i]]: a negative [i] counts from the end. *)
Definition getitem {A} (l : list A) (i : Z) : result A :=
  let n := Z.of_nat (length l) in
  let j := if (i <? 0)%Z then (i + n)%Z else i in
  if ((j <? 0) || (n <=? j))%Z then Raise IndexError
  else match nth_error l (Z.to_nat j) with
       | Some a => Ok a
       | None => Raise IndexError
       end.

End PyList.

(** ** [Microscope.add_lens] *)

(** The method touches [self.lenses] only. *)
Definition add_lens (NA RI rot : R) (pos : pyval) : py (list Lens) unit :=
  fun lenses =>
    let lens := mkLens NA RI rot in
    if eq_False pos then (Ok tt, lenses ++ [lens])
    else if negb (type_is_int pos) then (Raise TypeError, lenses)
    else match pos with
         | PyInt p =>
             if (Z.of_nat (length lenses) <? p)%Z
             then (Raise ValueError, lenses)
             else (Ok tt, PyList.insert p lens lenses)
         | _ => (Raise TypeError, lenses)
         end.

(** ** NumPy integer arrays *)

Module Np.

(** The value of a 16-bit signed integer: wrap-around on overflow. *)
Definition int16 (z : Z) : Z := ((z + 32768) mod 65536 - 32768)%Z.

(** [a[j] = v] on a list; [j] is in range wherever the model uses it. *)
Fixpoint setitem {A} (a : list A) (j : nat) (v : A) : list A :=
  match a, j with
  | [], _ => []
  | _ :: t, O => v :: t
  | h :: t, S j' => h :: setitem t j' v
  end.

End Np.

(** ** [field_tracing_reverse]: the reversed lens list and the rotation
    direction *)

(** [np.ones(n, dtype=np.uint8) * -1]: the scalar -1 does not fit an unsigned
    byte, so NumPy promotes the product to a 16-bit signed array of -1. *)
Definition rotation_direction_init (n : nat) : list Z :=
  map (fun one => Np.int16 (one * -1)) (repeat 1%Z n).

(** One pass of [for i in range(1, len(self.lenses)+1)]:
    [lenses.append(self.lenses[-i])] and
    [rotation_direction[-i] *= (-1)**((i+1)//2+1)]. *)
Definition reverse_step (self_lenses : list Lens)
    (st : result (list Lens * list Z)) (i : nat)
    : result (list Lens * list Z) :=
  match st with
  | Raise e => Raise e
  | Ok (lenses, rd) =>
      match PyList.getitem self_lenses (- Z.of_nat i),
            PyList.getitem rd (- Z.of_nat i) with
      | Ok lens, Ok d =>
          let j := (length rd - i)%nat in
          let e := ((Z.of_nat i + 1) / 2 + 1)%Z in
          Ok (lenses ++ [lens], Np.setitem rd j (Np.int16 (d * (-1) ^ e)))
      | Raise e, _ | _, Raise e => Raise e
      end
  end.

Definition reverse_lenses (self_lenses : list Lens)
    : result (list Lens * list Z) :=
  let n := length self_lenses in
  fold_left (reverse_step self_lenses) (seq 1 n)
            (Ok ([], rotation_direction_init n)).

(** [dir = rotation_direction[i]] at step [i] of
    [for i, lens in enumerate(lenses)]. *)
Definition step_dir (rotation_direction : list Z) (i : nat) : result Z :=
  PyList.getitem rotation_direction (Z.of_nat i).

(** [mode = modes[(i+1)%2]] with [modes = ['collimating','focusing']]. *)
Inductive mode : Type := collimating | focusing.

Definition step_mode (i : nat) : mode :=
  if Nat.eqb ((i + 1) mod 2) 0 then collimating else focusing.

(** The array the passes [1..k] of that loop are expected to leave: the last
    [k] cells hold their sign, the others still hold -1. *)
Definition sign_after (n k j : nat) : Z :=
  if (n - j <=? k)%nat
  then ((-1) ^ ((Z.of_nat (n - j) + 1) / 2))%Z else (-1)%Z.

Definition direction_after (n k : nat) : list Z :=
  map (sign_after n k) (seq 0 n).

(** ** Python scalar arithmetic *)

(** [a / b] on Python floats: a zero divisor raises. *)
Definition pydiv (a b : R) : result R :=
  if Req_dec_T b 0 then Raise ZeroDivisionError else Ok (a / b)%R.

(** ** The attributes of a [Microscope] used by [calculate_system_specs] *)

(** An attribute that has not been assigned yet is [None]; reading it raises
    [AttributeError]. *)
Record Microscope : Type := mkMicroscope {
  lenses : list Lens;
  lam_ex : R;
  lam_em : R;
  camera : option Camera;
  mag : option R;
  alpha : option R;
  axial_mag : option R;
  z_voxel_size : option R;
  scaling : option R;
  FoV : option R
}.

Definition attr {A} (f : Microscope -> option A) : py Microscope A :=
  fun self =>
    match f self with
    | Some a => (Ok a, self)
    | None => (Raise AttributeError, self)
    end.

Definition set_mag (v : R) : py Microscope unit :=
  fun s => (Ok tt, mkMicroscope (lenses s) (lam_ex s) (lam_em s) (camera s)
                     (Some v) (alpha s) (axial_mag s) (z_voxel_size s)
                     (scaling s) (FoV s)).

Definition set_alpha (v : R) : py Microscope unit :=
  fun s => (Ok tt, mkMicroscope (lenses s) (lam_ex s) (lam_em s) (camera s)
                     (mag s) (Some v) (axial_mag s) (z_voxel_size s)
                     (scaling s) (FoV s)).

Definition set_axial_mag (v : R) : py Microscope unit :=
  fun s => (Ok tt, mkMicroscope (lenses s) (lam_ex s) (lam_em s) (camera s)
                     (mag s) (alpha s) (Some v) (z_voxel_size s)
                     (scaling s) (FoV s)).

Definition set_z_voxel_size (v : R) : py Microscope unit :=
  fun s => (Ok tt, mkMicroscope (lenses s) (lam_ex s) (lam_em s) (camera s)
                     (mag s) (alpha s) (axial_mag s) (Some v)
                     (scaling s) (FoV s)).

Definition set_scaling (v : R) : py Microscope unit :=
  fun s => (Ok tt, mkMicroscope (lenses s) (lam_ex s) (lam_em s) (camera s)
                     (mag s) (alpha s) (axial_mag s) (z_voxel_size s)
                     (Some v) (FoV s)).

Definition set_FoV (v : R) : py Microscope unit :=
  fun s => (Ok tt, mkMicroscope (lenses s) (lam_ex s) (lam_em s) (camera s)
                     (mag s) (alpha s) (axial_mag s) (z_voxel_size s)
                     (scaling s) (Some v)).

(** [for i, x in enumerate(l)], counting from [i]. *)
Fixpoint for_enumerate {St A} (body : nat -> A -> py St unit)
    (i : nat) (l : list A) : py St unit :=
  match l with
  | [] => ret tt
  | x :: t => bind (body i x) (fun _ => for_enumerate body (S i) t)
  end.

(** ** [Microscope.calculate_system_specs] *)

Section SystemSpecs.

Local Open Scope py_scope.
Local Open Scope R_scope.

(** The body of the loop: [self.mag *= lens.NA] at an even index,
    [self.mag /= lens.NA] at an odd one. *)
Definition mag_step (i : nat) (lens : Lens) : py Microscope unit :=
  m <- attr mag ;;
  if Nat.eqb (i mod 2) 0 then set_mag (m * NA lens)
  else q <- lift (pydiv m (NA lens)) ;; set_mag q.

Definition calculate_system_specs : py Microscope unit :=
  set_mag 1 ;;;
  self <- get ;;
  set_alpha (PI / 2 - fold_right Rplus 0 (map rot (lenses self))) ;;;
  for_enumerate mag_step 0 (lenses self) ;;;
  m <- attr mag ;;
  last <- lift (PyList.getitem (lenses self) (-1)) ;;
  first <- lift (PyList.getitem (lenses self) 0) ;;
  am <- lift (pydiv (m ^ 2 * RI last) (RI first)) ;;
  set_axial_mag am ;;;
  cam <- attr camera ;;
  vm <- lift (pydiv (vox cam) m) ;;
  set_z_voxel_size (vm * am) ;;;
  sc <- lift (pydiv (lam_em self) (2 * vox cam * NA last)) ;;
  set_scaling sc ;;;
  (* [hasattr(self, 'camera')] holds here: the attribute was just read *)
  fov <- lift (pydiv (vox cam * IZR (res cam)) m) ;;
  set_FoV fov.

End SystemSpecs.

(** The product of the NAs at the even and at the odd indices. *)
Fixpoint evens {A} (l : list A) : list A :=
  match l with
  | [] => []
  | x :: t => x :: match t with [] => [] | _ :: t' => evens t' end
  end.

Definition odds {A} (l : list A) : list A := evens (tl l).

Definition Rprod (l : list R) : R := fold_right Rmult 1%R l.

(** A property of the attributes that a method never breaks, whatever its
    outcome. *)
Definition keeps (A : Type) (P : Microscope -> Prop)
    (c : py Microscope A) : Prop :=
  forall s, P s -> P (snd (c s)).

(** ** NumPy floating-point values *)

(** A [float64] with its special values.  Rounding, overflow and the sign of
    zero are not modelled: a finite value is a real number. *)
Inductive fval : Type :=
| NaN
| PInf
| NInf
| Fin (x : R).

Section FloatOps.

Local Open Scope R_scope.

(** The largest finite [float64], which [np.nan_to_num] puts in place of
    an infinity. *)
Definition DBL_MAX : R := (2 - / 2 ^ 52) * 2 ^ 1023.

Definition rsign (x : R) : Z :=
  if Rlt_dec 0 x then 1%Z else if Rlt_dec x 0 then (-1)%Z else 0%Z.

Definition fsign (a : fval) : Z :=
  match a with
  | NaN => 0%Z
  | PInf => 1%Z
  | NInf => (-1)%Z
  | Fin x => rsign x
  end.

(** The infinity of a sign; the sign 0 stands for an invalid operation. *)
Definition inf_of_sign (s : Z) : fval :=
  if (0 <? s)%Z then PInf else if (s <? 0)%Z then NInf else NaN.

Definition fneg (a : fval) : fval :=
  match a with
  | NaN => NaN
  | PInf => NInf
  | NInf => PInf
  | Fin x => Fin (- x)
  end.

Definition fadd (a b : fval) : fval :=
  match a, b with
  | NaN, _ | _, NaN => NaN
  | Fin x, Fin y => Fin (x + y)
  | PInf, NInf | NInf, PInf => NaN
  | PInf, _ | _, PInf => PInf
  | NInf, _ | _, NInf => NInf
  end.

Definition fsub (a b : fval) : fval := fadd a (fneg b).

Definition fmul (a b : fval) : fval :=
  match a, b with
  | NaN, _ | _, NaN => NaN
  | Fin x, Fin y => Fin (x * y)
  | _, _ => inf_of_sign (fsign a * fsign b)
  end.

(** NumPy division does not raise: x/0 is an infinity, 0/0 is invalid. *)
Definition fdiv (a b : fval) : fval :=
  match a, b with
  | NaN, _ | _, NaN => NaN
  | Fin x, Fin y =>
      if Req_dec_T y 0 then inf_of_sign (rsign x) else Fin (x / y)
  | Fin _, _ => Fin 0
  | _, Fin y => inf_of_sign (fsign a * (if Req_dec_T y 0 then 1 else rsign y))
  | _, _ => NaN
  end.

(** Comparisons: any comparison with not-a-number is false. *)
Definition fgt (a b : fval) : bool :=
  match a, b with
  | NaN, _ | _, NaN => false
  | Fin x, Fin y => if Rgt_dec x y then true else false
  | PInf, PInf => false
  | PInf, _ => true
  | _, NInf => match a with NInf => false | _ => true end
  | _, _ => false
  end.

Definition flt (a b : fval) : bool := fgt b a.

Definition fle (a b : fval) : bool :=
  match a, b with
  | NaN, _ | _, NaN => false
  | Fin x, Fin y => if Rle_dec x y then true else false
  | NInf, _ | _, PInf => true
  | _, _ => false
  end.

Definition isnan (a : fval) : bool :=
  match a with NaN => true | _ => false end.

Definition isfinite (a : fval) : bool :=
  match a with Fin _ => true | _ => false end.

(** [np.nan_to_num]. *)
Definition nan_to_num (a : fval) : fval :=
  match a with
  | NaN => Fin 0
  | PInf => Fin DBL_MAX
  | NInf => Fin (- DBL_MAX)
  | Fin x => Fin x
  end.

(** [np.sin], [np.cos], [np.arcsin], [np.sqrt], [np.abs]. *)
Definition np_sin (a : fval) : fval :=
  match a with Fin x => Fin (sin x) | _ => NaN end.

Definition np_cos (a : fval) : fval :=
  match a with Fin x => Fin (cos x) | _ => NaN end.

Definition np_arcsin (a : fval) : fval :=
  match a with
  | Fin x => if Rle_dec (-1) x
             then if Rle_dec x 1 then Fin (asin x) else NaN
             else NaN
  | _ => NaN
  end.

Definition np_sqrt (a : fval) : fval :=
  match a with
  | Fin x => if Rlt_dec x 0 then NaN else Fin (sqrt x)
  | PInf => PInf
  | _ => NaN
  end.

Definition np_abs (a : fval) : fval :=
  match a with
  | NaN => NaN
  | PInf | NInf => PInf
  | Fin x => Fin (Rabs x)
  end.

(** The larger of two values as [np.max] folds them: not-a-number wins. *)
Definition fmax2 (a b : fval) : fval :=
  match a, b with
  | NaN, _ | _, NaN => NaN
  | _, _ => if fgt b a then b else a
  end.

End FloatOps.

(** A 2-D array (rows of pixels) and a 3-D array. *)
Definition grid (A : Type) : Type := list (list A).
Definition volume (A : Type) : Type := list (list (list A)).

(** [f] on each element with its index, counting from [i]. *)
Fixpoint mapi_from {A B} (f : nat -> A -> B) (i : nat) (l : list A)
    : list B :=
  match l with
  | [] => []
  | x :: t => f i x :: mapi_from f (S i) t
  end.

(** Element by element on two lists of one length. *)
Fixpoint map2 {A B C} (f : A -> B -> C) (a : list A) (b : list B) : list C :=
  match a, b with
  | x :: a', y :: b' => f x y :: map2 f a' b'
  | _, _ => []
  end.

(** ** [light_sheet]: the mask of the back focal plane *)

(** [np.ones_like(theta)]. *)
Definition ones_like (theta : grid fval) : grid fval :=
  map (map (fun _ => Fin 1)) theta.

(** [mask[theta > s] = v]. *)
Definition assign_where_gt (mask theta : grid fval) (s v : fval)
    : grid fval :=
  map2 (map2 (fun m t => if fgt t s then v else m)) mask theta.

(** [mask[:, :hi] = v] and [mask[:, lo:] = v]. *)
Definition assign_cols_before (mask : grid fval) (hi : nat) (v : fval)
    : grid fval :=
  map (mapi_from (fun j m => if (j <? hi)%nat then v else m) 0) mask.

Definition assign_cols_from (mask : grid fval) (lo : nat) (v : fval)
    : grid fval :=
  map (mapi_from (fun j m => if (lo <=? j)%nat then v else m) 0) mask.

(** The four lines that build [mask], with [M = res//2]. *)
Definition light_sheet_mask (theta : grid fval) (ls_opening : R) (M : nat)
    : grid fval :=
  let mask := ones_like theta in
  let mask := assign_where_gt mask theta (Fin ls_opening) NaN in
  let mask := assign_cols_before mask M NaN in
  assign_cols_from mask (M + 1) NaN.

(** [Ei = np.ones((res,res,3))*self.Ei_base] and
    [Ei *= mask.reshape(res,res,1)]. *)
Definition light_sheet_Ei (Ei_base : list fval) (mask : grid fval)
    : grid (list fval) :=
  map (map (fun m => map (fun e => fmul (fmul (Fin 1) e) m) Ei_base)) mask.

(** The pixel of a grid at row [i] and column [j]. *)
Definition pixel {A} (g : grid A) (i j : nat) : option A :=
  match nth_error g i with
  | Some row => nth_error row j
  | None => None
  end.

(** The mask keeps a half-plane of the pixel grid: the pixels it invalidates
    are those beyond the half-angle and those outside some half-plane
    a*column + b*row >= c. *)
Definition keeps_half_plane (theta : grid fval) (ls_opening : R)
    (mask : grid fval) : Prop :=
  exists a b c : Z,
    forall i j t m,
      pixel theta i j = Some t -> pixel mask i j = Some m ->
      (m = NaN <->
       fgt t (Fin ls_opening) = true \/
       (a * Z.of_nat j + b * Z.of_nat i < c)%Z).

(** The value the four lines are expected to leave at a pixel of column [j]
    whose angle is [t]. *)
Definition mask_value (ls_opening : R) (M j : nat) (t : fval) : fval :=
  if fgt t (Fin ls_opening) || negb (Nat.eqb j M) then NaN else Fin 1.

(** ** Slices, padding and the centring shift of NumPy *)

Module Slice.

(** A bound of a slice on a sequence of length [n]: negative bounds count
    from the end, and bounds beyond an end are clamped. *)
Definition bound (n i : Z) : nat :=
  Z.to_nat (if (i <? 0)%Z then Z.max (i + n) 0 else Z.min i n).

(** [l[lo:hi]]. *)
Definition slice {A} (l : list A) (lo hi : Z) : list A :=
  let n := Z.of_nat (length l) in
  firstn (bound n hi - bound n lo) (skipn (bound n lo) l).

(** [l[lo:]]. *)
Definition from {A} (l : list A) (lo : Z) : list A :=
  skipn (bound (Z.of_nat (length l)) lo) l.

(** [v[lo:hi, lo:hi, lo:hi]]. *)
Definition cube {A} (v : volume A) (lo hi : Z) : volume A :=
  map (fun plane => map (fun row => slice row lo hi) (slice plane lo hi))
      (slice v lo hi).

End Slice.

(** [np.pad(v, p)] on a 3-D array: [p] zeros before and after along every
    axis; a negative width is refused. *)
Definition pad1 {A} (z : A) (p : nat) (l : list A) : list A :=
  repeat z p ++ l ++ repeat z p.

Definition np_pad (v : volume fval) (p : Z) : result (volume fval) :=
  if (p <? 0)%Z then Raise ValueError
  else
    let w := Z.to_nat p in
    let b := length (hd [] v) in
    let c := length (hd [] (hd [] v)) in
    let zero_row := repeat (Fin 0) (c + 2 * w) in
    let zero_plane := repeat zero_row (b + 2 * w) in
    Ok (pad1 zero_plane w
          (map (fun plane => pad1 zero_row w (map (pad1 (Fin 0) w) plane)) v)).

(** [np.fft.fftshift] along one axis: the last [n//2] elements come first. *)
Definition shift1 {A} (l : list A) : list A :=
  let k := (length l - length l / 2)%nat in
  skipn k l ++ firstn k l.

Definition fftshift {A} (v : volume A) : volume A :=
  map (map shift1) (map shift1 (shift1 v)).

(** A complex value, and [np.abs] of it: an infinite part gives infinity
    even beside a not-a-number. *)
Definition cval : Type := (fval * fval)%type.

Definition cabs (z : cval) : fval :=
  match z with
  | (PInf, _) | (NInf, _) | (_, PInf) | (_, NInf) => PInf
  | (NaN, _) | (_, NaN) => NaN
  | (Fin x, Fin y) => Fin (sqrt (x * x + y * y))
  end.

(** ** [Microscope.make_MTF] and [Microscope.analyze] *)

Module MTF.

(** The attributes the two methods read and write. *)
Record attrs : Type := mkAttrs {
  OTF_res : Z;
  camera : Camera;
  eff_PSF : volume fval;
  SNR : R;
  mag : R;
  PSF_poisson : option (volume fval);
  PSF_readout : option (volume fval);
  MTF_noiseless : option (volume fval);
  MTF_poisson : option (volume fval);
  MTF_readout : option (volume fval);
  base_freq : option R;
  XYZ_res : option (list fval)
}.

(** The attributes before [make_MTF] has run. *)
Definition configure (OTF_res : Z) (camera : Camera) (eff_PSF : volume fval)
    (SNR mag : R) : attrs :=
  mkAttrs OTF_res camera eff_PSF SNR mag
          None None None None None None None.

Definition set_PSFs (poisson readout : volume fval) : py attrs unit :=
  fun s => (Ok tt, mkAttrs (OTF_res s) (camera s) (eff_PSF s) (SNR s) (mag s)
                     (Some poisson) (Some readout) (MTF_noiseless s)
                     (MTF_poisson s) (MTF_readout s) (base_freq s)
                     (XYZ_res s)).

Definition set_MTFs (noiseless poisson readout : volume fval)
    : py attrs unit :=
  fun s => (Ok tt, mkAttrs (OTF_res s) (camera s) (eff_PSF s) (SNR s) (mag s)
                     (PSF_poisson s) (PSF_readout s) (Some noiseless)
                     (Some poisson) (Some readout) (base_freq s)
                     (XYZ_res s)).

Definition set_base_freq (f : R) : py attrs unit :=
  fun s => (Ok tt, mkAttrs (OTF_res s) (camera s) (eff_PSF s) (SNR s) (mag s)
                     (PSF_poisson s) (PSF_readout s) (MTF_noiseless s)
                     (MTF_poisson s) (MTF_readout s) (Some f) (XYZ_res s)).

Definition set_XYZ_res (r : list fval) : py attrs unit :=
  fun s => (Ok tt, mkAttrs (OTF_res s) (camera s) (eff_PSF s) (SNR s) (mag s)
                     (PSF_poisson s) (PSF_readout s) (MTF_noiseless s)
                     (MTF_poisson s) (MTF_readout s) (base_freq s)
                     (Some r)).

(** A local variable that is read before any assignment to it. *)
Definition local {A} (v : option A) : py attrs A :=
  match v with
  | Some a => ret a
  | None => raise UnboundLocalError
  end.

Section MakeMTF.

(** [add_noise] of [other_functions], with the draw of one call, and
    [np.fft.fftn]. *)
Variable add_noise :
  volume fval -> R -> R -> R -> volume fval * volume fval.
Variable fftn : volume fval -> volume cval.

Local Open Scope py_scope.

(** [np.abs(np.fft.fftshift(np.fft.fftn(np.fft.fftshift(v))))]. *)
Definition centred_MTF (v : volume fval) : volume fval :=
  map (map (map cabs)) (fftshift (fftn (fftshift v))).

Definition make_MTF : py attrs unit :=
  self <- get ;;
  let res := res (camera self) in
  let padding := ((OTF_res self - res) / 2)%Z in
  product <- lift (np_pad (eff_PSF self) padding) ;;
  (* [if self.SNR != 0: product, poisson = add_noise(...)] *)
  let '(product, poisson) :=
    if Req_dec_T (SNR self) 0 then (product, None)
    else let '(readout, shot) :=
           add_noise product (SNR self ^ 2)%R
                     (offset (camera self)) (RMS (camera self)) in
         (readout, Some shot) in
  shot <- local poisson ;;
  set_PSFs (Slice.cube shot padding (padding + res))
           (Slice.cube product padding (padding + res)) ;;;
  shot <- local poisson ;;
  let noiseless := centred_MTF product in
  let readout := centred_MTF product in
  set_MTFs noiseless (centred_MTF shot) readout ;;;
  pitch <- lift (pydiv (vox (camera self)) (mag self)) ;;
  f <- lift (pydiv 1 (INR (length readout) * pitch)) ;;
  set_base_freq f.

End MakeMTF.

End MTF.

(** A one-voxel configuration on which [make_MTF] can be run: the transform
    of a single sample is the sample itself. *)
Module OneVoxel.

Definition dft (v : volume fval) : volume cval :=
  map (map (map (fun x => (x, Fin 0)))) v.

(** Modelled from the spec: [add_noise] belongs to [other_functions], which
    is not part of the source at hand.  The spec says of it: given a real
    volume, a target squared SNR, an offset and an RMS, it returns the pair
    (noiseless padded volume, noisy volume).  The first volume is the one
    given; the second is a noise drawn at its mean, the shot noise equal
    to the scaled signal and the readout noise equal to the offset. *)
Definition mean_noise (v : volume fval) (snr2 off rms : R)
    : volume fval * volume fval :=
  (v, map (map (map (fun x => fadd (fmul x (Fin snr2)) (Fin off)))) v).

Definition cam : Camera := mkCamera 1 (2 / 1000000) 100 (14 / 10).

Definition system (SNR : R) : MTF.attrs :=
  MTF.configure 1 cam [[[Fin 1]]] SNR 1.

End OneVoxel.

(** ** Expressions that may raise *)

Definition rbind {A B} (r : result A) (k : A -> result B) : result B :=
  match r with
  | Ok a => k a
  | Raise e => Raise e
  end.

Fixpoint mapM {A B} (f : A -> result B) (l : list A) : result (list B) :=
  match l with
  | [] => Ok []
  | x :: t => rbind (f x) (fun y => rbind (mapM f t) (fun ys => Ok (y :: ys)))
  end.

(** [l[i]] at an index that is not negative. *)
Definition index {A} (l : list A) (i : nat) : result A :=
  match nth_error l i with
  | Some a => Ok a
  | None => Raise IndexError
  end.

(** [v.max()] on a 3-D array: an empty array has no maximum. *)
Definition vmax (v : volume fval) : result fval :=
  match concat (concat v) with
  | [] => Raise ValueError
  | x :: t => Ok (fold_left fmax2 t x)
  end.

(** ** [Microscope.analyze] *)

Module Analyze.

Import MTF.

Local Open Scope R_scope.

(** [p[N, N:, N]], [p[N:, N, N]] and [p[N, N, N:]]. *)
Definition profile_x (p : volume fval) (N : nat) : result (list fval) :=
  rbind (index p N) (fun plane =>
  mapM (fun row => index row N) (skipn N plane)).

Definition profile_y (p : volume fval) (N : nat) : result (list fval) :=
  mapM (fun plane => rbind (index plane N) (fun row => index row N))
       (skipn N p).

Definition profile_z (p : volume fval) (N : nat) : result (list fval) :=
  rbind (index p N) (fun plane =>
  rbind (index plane N) (fun row => Ok (skipn N row))).

(** [np.where(xx <= 0)[0][0]]: the first index whose value is not above
    0; indexing the empty array of such indices raises. *)
Fixpoint first_le0_from (i : nat) (xx : list fval) : result nat :=
  match xx with
  | [] => Raise IndexError
  | x :: t => if fle x (Fin 0) then Ok i else first_le0_from (S i) t
  end.

Definition first_le0 (xx : list fval) : result nat := first_le0_from 0 xx.

(** [1/(self.base_freq*cut/1e9)], in NumPy arithmetic since [cut] is a
    NumPy integer. *)
Definition resolution (base_freq : R) (cut : nat) : fval :=
  fdiv (Fin 1) (fdiv (fmul (Fin base_freq) (Fin (INR cut))) (Fin 1e9)).

Definition attr {A} (f : attrs -> option A) : py attrs A :=
  fun self =>
    match f self with
    | Some a => (Ok a, self)
    | None => (Raise AttributeError, self)
    end.

(** The MTF with the noise floor taken off:
    [self.MTF_poisson - np.sqrt(self.MTF_poisson.max())]. *)
Definition above_floor (v : volume fval) : result (volume fval) :=
  rbind (vmax v) (fun m =>
  Ok (map (map (map (fun x => fsub x (np_sqrt m)))) v)).

Local Open Scope py_scope.

Definition analyze : py attrs unit :=
  v <- attr MTF_poisson ;;
  let N := (length v / 2)%nat in
  poisson <- lift (above_floor v) ;;
  X_cut <- lift (rbind (profile_x poisson N) first_le0) ;;
  f <- attr base_freq ;;
  let X_res := resolution f X_cut in
  Y_cut <- lift (rbind (profile_y poisson N) first_le0) ;;
  f <- attr base_freq ;;
  let Y_res := resolution f Y_cut in
  Z_cut <- lift (rbind (profile_z poisson N) first_le0) ;;
  f <- attr base_freq ;;
  let Z_res := resolution f Z_cut in
  set_XYZ_res [X_res; Y_res; Z_res].

End Analyze.

(** ** [calculate_PSF]: the effective PSF *)

(** Element by element on a 3-D array, and on two of one shape. *)
Definition vmap {A B} (f : A -> B) (v : volume A) : volume B :=
  map (map (map f)) v.

Definition vmap2 {A B C} (f : A -> B -> C) (a : volume A) (b : volume B)
    : volume C :=
  map2 (map2 (map2 f)) a b.

(** The element of a 3-D array at an index. *)
Definition voxel {A} (v : volume A) (i j k : nat) : option A :=
  match nth_error v i with
  | Some plane =>
      match nth_error plane j with
      | Some row => nth_error row k
      | None => None
      end
  | None => None
  end.

(** [a / a.max()]. *)
Definition normalise (a : volume fval) : result (volume fval) :=
  rbind (vmax a) (fun m => Ok (vmap (fun x => fdiv x m) a)).

(** [self.eff_PSF = (self.PSF/self.PSF.max())*(self.ls_PSF/self.ls_PSF.max())];
    the two volumes have the shape (res, res, res). *)
Definition effective_PSF (PSF ls_PSF : volume fval)
    : result (volume fval) :=
  rbind (normalise PSF) (fun det =>
  rbind (normalise ls_PSF) (fun ill =>
  Ok (vmap2 fmul det ill))).

(** ** More NumPy functions of one pixel *)

Section Arctan2.

Local Open Scope R_scope.

(** The angle of the point (x, y), in (-pi, pi]. *)
Definition atan2 (y x : R) : R :=
  if Rlt_dec 0 x then atan (y / x)
  else if Rlt_dec x 0
       then if Rle_dec 0 y then atan (y / x) + PI else atan (y / x) - PI
       else if Rlt_dec 0 y then PI / 2
            else if Rlt_dec y 0 then - (PI / 2) else 0.

(** [np.arctan2(y, x)]. *)
Definition np_arctan2 (y x : fval) : fval :=
  match y, x with
  | NaN, _ | _, NaN => NaN
  | Fin b, Fin a => Fin (atan2 b a)
  | Fin _, PInf => Fin 0
  | Fin b, NInf => if Rle_dec 0 b then Fin PI else Fin (- PI)
  | PInf, Fin _ => Fin (PI / 2)
  | NInf, Fin _ => Fin (- (PI / 2))
  | PInf, PInf => Fin (PI / 4)
  | PInf, NInf => Fin (3 * PI / 4)
  | NInf, PInf => Fin (- (PI / 4))
  | NInf, NInf => Fin (- (3 * PI / 4))
  end.

End Arctan2.

(** Complex arithmetic, part by part as NumPy computes it. *)
Definition cadd (a b : cval) : cval :=
  (fadd (fst a) (fst b), fadd (snd a) (snd b)).

Definition cmul (a b : cval) : cval :=
  (fsub (fmul (fst a) (fst b)) (fmul (snd a) (snd b)),
   fadd (fmul (fst a) (snd b)) (fmul (snd a) (fst b))).

Definition of_real (x : fval) : cval := (x, Fin 0).

(** [np.nan_to_num] of a complex value works on each part. *)
Definition cnan_to_num (z : cval) : cval :=
  (nan_to_num (fst z), nan_to_num (snd z)).

(** [np.abs(z)**2]. *)
Definition cabs2 (z : cval) : fval := fmul (cabs z) (cabs z).

(** Vectors and matrices of three. *)
Definition vec3 (A : Type) : Type := (A * A * A)%type.
Definition mat3 (A : Type) : Type := vec3 (vec3 A).

Definition vmap3 {A B} (f : A -> B) (v : vec3 A) : vec3 B :=
  let '(a, b, c) := v in (f a, f b, f c).

(** A row times a vector, summed in the order of the index. *)
Definition dot3 (row k : vec3 fval) : fval :=
  let '(r0, r1, r2) := row in
  let '(k0, k1, k2) := k in
  fadd (fadd (fmul r0 k0) (fmul r1 k1)) (fmul r2 k2).

Definition cdot3 (row k : vec3 cval) : cval :=
  let '(r0, r1, r2) := row in
  let '(k0, k1, k2) := k in
  cadd (cadd (cmul r0 k0) (cmul r1 k1)) (cmul r2 k2).

(** [np.einsum('ij,jkl->ikl', Rx, ki)] and
    [np.einsum('abji,abi->abj', transform, Ei)] at one pixel. *)
Definition rotate3 (Rx : mat3 fval) (ki : vec3 fval) : vec3 fval :=
  vmap3 (fun row => dot3 row ki) Rx.

Definition apply3 (T : mat3 cval) (E : vec3 cval) : vec3 cval :=
  vmap3 (fun row => cdot3 row E) T.

(** ** [Microscope.field_tracing_reverse] at one pixel *)

(** A lens with the angles the trace attaches to it. *)
Record traced : Type := mkTraced {
  t_lens : Lens;
  theta_raw : fval;   (* [lens.theta] before the acceptance test *)
  theta : fval;       (* [lens.theta] as the method leaves it *)
  phi : fval          (* [lens.phi] *)
}.

(** What the loop carries from one lens to the next. *)
Record trace_state : Type := mkTraceState {
  traced_lenses : list traced;      (* the lenses processed, in that order *)
  jones_mat : list (mat3 cval);
  apodization : fval
}.

Section Tracing.

(** [R_x], [R_y], [R_z], [L_refraction], [Fresnel] and [multidot] of
    [other_functions] and [np.linalg.inv], at one pixel. *)
Variable R_x : R -> mat3 fval.
Variables R_y R_z L_refraction : fval -> mat3 cval.
Variable Fresnel : fval -> fval -> R -> R -> mat3 cval.
Variable inv : mat3 cval -> mat3 cval.
Variable multidot : list (mat3 cval) -> mat3 cval.

Local Open Scope R_scope.

(** A Python or NumPy scalar times an element of an array. *)
Definition scal (s : R) (a : fval) : fval := fmul (Fin s) a.
Definition sdir (dir : Z) (a : fval) : fval := fmul (Fin (IZR dir)) a.

(** [np.sqrt(lens.RI*np.cos(lens.theta))]. *)
Definition apod_factor (lens : Lens) (th : fval) : fval :=
  np_sqrt (scal (RI lens) (np_cos th)).

(** The wavevector of the angles, turned by [Rx], and its angles:
    [phi], and [theta] with [theta[kf[2]<0] = np.NaN]. *)
Definition turned_angles (Rx : mat3 fval) (th ph : fval) : fval * fval :=
  let ki := (fmul (np_sin th) (np_cos ph),
             fmul (np_sin th) (np_sin ph),
             np_cos th) in
  let '(kf0, kf1, kf2) := rotate3 Rx ki in
  let ph' := np_arctan2 kf1 kf0 in
  let th' := np_arctan2 (np_sqrt (fadd (fmul kf0 kf0) (fmul kf1 kf1))) kf2 in
  (if flt kf2 (Fin 0) then NaN else th', ph').

(** [np.broadcast_to(R_x(rot), (res, res, 3, 3))] at one pixel. *)
Definition Rx_mat (rot : R) : mat3 cval := vmap3 (vmap3 of_real) (R_x rot).

(** The branch [i == 0]. *)
Definition enter (k0 del_K : R) (lens : Lens) (dir : Z) (RR xx yy : fval)
    (apod : fval) : result (fval * fval * list (mat3 cval) * fval) :=
  rbind (pydiv del_K (k0 * RI lens)) (fun q =>
  let th := np_arcsin (scal q RR) in
  let ph := np_arctan2 yy xx in
  Ok (th, ph,
      [inv (R_z ph); L_refraction (sdir dir th)],
      fmul apod (apod_factor lens th))).

(** The branch of a collimating lens. *)
Definition collimate (lens : Lens) (tmp : traced) (dir : Z)
    (jones : list (mat3 cval)) (apod : fval)
    : fval * fval * list (mat3 cval) * fval :=
  let th := np_arcsin
              (fdiv (scal (NA lens * RI (t_lens tmp)) (np_sin (theta tmp)))
                    (Fin (RI lens * NA (t_lens tmp)))) in
  (th, phi tmp,
   jones ++ [L_refraction (sdir dir th)],
   fdiv apod (apod_factor lens th)).

(** The branch of a focusing lens, with its three cases. *)
Definition focus (lens : Lens) (tmp : traced) (dir : Z)
    (jones : list (mat3 cval)) (apod : fval)
    : fval * fval * list (mat3 cval) * fval :=
  let tl := t_lens tmp in
  let '(th, ph, jones) :=
    if negb (if Req_dec_T (rot lens) 0 then true else false) then
      (* case 1: the lens is rotated *)
      let '(th1, ph1) :=
        turned_angles (R_x (- rot lens)) (theta tmp) (phi tmp) in
      let jones := jones ++ [R_z (phi tmp); Rx_mat (rot lens);
                             inv (R_z ph1)] in
      let th := np_arcsin (fdiv (scal (RI tl) (np_sin th1))
                                (Fin (RI lens))) in
      (th, ph1,
       jones ++ [R_y (sdir (-1 * dir) th1);
                 Fresnel th th1 (RI lens) (RI tl);
                 R_y (sdir dir th);
                 L_refraction (sdir dir th)])
    else if negb (if Req_dec_T (rot tl) 0 then true else false) then
      (* case 2: the lens before is rotated *)
      let th2 := np_arcsin (fdiv (scal (RI tl) (np_sin (theta tmp)))
                                 (Fin (RI lens))) in
      let ph2 := phi tmp in
      let jones := jones ++ [R_y (sdir (-1 * dir) (theta tmp));
                             Fresnel th2 (theta tmp) (RI lens) (RI tl);
                             R_y (sdir dir th2)] in
      let '(th, ph) := turned_angles (R_x (- rot tl)) th2 ph2 in
      (th, ph,
       jones ++ [R_z ph2; Rx_mat (rot tl); inv (R_z ph);
                 L_refraction (sdir dir th)])
    else
      (* case 3: no rotation *)
      let th := np_arcsin (fdiv (scal (RI tl) (np_sin (theta tmp)))
                                (Fin (RI lens))) in
      (th, phi tmp,
       jones ++ [R_y (sdir (-1 * dir) (theta tmp));
                 Fresnel th (theta tmp) (RI lens) (RI tl);
                 R_y (sdir dir th);
                 L_refraction (sdir dir th)]) in
  (th, ph, jones, fmul apod (apod_factor lens th)).

(** [th_max = np.arcsin(lens.NA/lens.RI)] and
    [lens.theta[lens.theta>th_max] = np.NaN]. *)
Definition accept (lens : Lens) (th : fval) : result fval :=
  rbind (pydiv (NA lens) (RI lens)) (fun q =>
  let th_max := np_arcsin (Fin q) in
  Ok (if fgt th th_max then NaN else th)).

(** One pass of [for i, lens in enumerate(lenses)]. *)
Definition trace_step (k0 del_K : R) (rd : list Z) (RR xx yy : fval)
    (st : result trace_state) (il : nat * Lens) : result trace_state :=
  let '(i, lens) := il in
  rbind st (fun st =>
  rbind (step_dir rd i) (fun dir =>
  rbind
    (match i, last (map Some (traced_lenses st)) None with
     | O, _ => enter k0 del_K lens dir RR xx yy (apodization st)
     | _, None => Raise UnboundLocalError
     | _, Some tmp =>
         match step_mode i with
         | collimating =>
             Ok (collimate lens tmp dir (jones_mat st) (apodization st))
         | focusing =>
             Ok (focus lens tmp dir (jones_mat st) (apodization st))
         end
     end)
    (fun '(th, ph, jones, apod) =>
  rbind (accept lens th) (fun th' =>
  Ok (mkTraceState (traced_lenses st ++ [mkTraced lens th th' ph])
                   jones apod))))).

(** The method at the pixel of coordinates (xx, yy), with
    [M = self.camera.res//2]: the lenses with their angles in the order
    of the trace, the list of matrices, [self.transform] and
    [self.apodization]. *)
Definition field_tracing_reverse (k0 : R) (M : Z) (self_lenses : list Lens)
    (xx yy : R)
    : result (list traced * list (mat3 cval) * mat3 cval * fval) :=
  let RR := np_sqrt (fadd (Fin (xx ^ 2)) (Fin (yy ^ 2))) in
  rbind (reverse_lenses self_lenses) (fun '(lenses, rd) =>
  rbind (index lenses 0) (fun l0 =>
  rbind (pydiv (k0 * NA l0) (IZR M)) (fun del_K =>
  rbind (fold_left (trace_step k0 del_K rd RR (Fin xx) (Fin yy))
                   (combine (seq 0 (length lenses)) lenses)
                   (Ok (mkTraceState [] [] (Fin 1))))
        (fun st =>
  rbind (PyList.getitem (traced_lenses st) (-1)) (fun tl =>
  let jones := jones_mat st ++ [R_z (phi tl)] in
  Ok (traced_lenses st, jones, multidot jones, apodization st)))))).

End Tracing.

(** ** [calculate_PSF]: the fields of one dipole at one pixel *)

Section FieldAtPixel.

(** [E_0] of [other_functions] at one pixel: the polarisation of the
    dipole, the angles of the first lens and the excitation. *)
Variable E_0 : vec3 R -> fval -> fval -> R -> vec3 cval.

(** [Ei = E_0(pol, self.lenses[0].phi, self.lenses[0].theta, Ae)]; the
    first lens of the system is the last one of the trace. *)
Definition initial_field (pol : vec3 R) (first_lens : traced) (Ae : R)
    : vec3 cval :=
  E_0 pol (phi first_lens) (theta first_lens) Ae.

(** [Ef = np.nan_to_num(self.apodization.reshape(res,res,1)
          * np.einsum('abji,abi->abj', self.transform, Ei))]. *)
Definition final_field (apod : fval) (transform : mat3 cval)
    (Ei : vec3 cval) : vec3 cval :=
  vmap3 (fun z => cnan_to_num (cmul (of_real apod) z))
        (apply3 transform Ei).

(** The terms of the pixel in [np.sum(np.abs(np.nan_to_num(E))**2)]. *)
Definition intensity_terms (E : vec3 cval) : vec3 fval :=
  vmap3 (fun z => cabs2 (cnan_to_num z)) E.

(** [bao = np.nan_to_num(1 / np.cos(self.lenses[-1].theta))]; the last
    lens of the system is the first one of the trace. *)
Definition back_aperture_obliqueness (last_lens : traced) : fval :=
  nan_to_num (fdiv (Fin 1) (np_cos (theta last_lens))).

End FieldAtPixel.

(** A value that [np.nan_to_num] turns into 0: its real part is
    not-a-number and its imaginary part is not-a-number or 0 (a real
    array). *)
Definition invalid (z : cval) : Prop :=
  fst z = NaN /\ (snd z = NaN \/ snd z = Fin 0).

(** The contract of [E_0] on an invalid position: where the angle of the
    lens is not-a-number, so is the field. *)
Definition E_0_keeps_invalid
    (E_0 : vec3 R -> fval -> fval -> R -> vec3 cval) : Prop :=
  forall pol ph Ae,
    let '(a, b, c) := E_0 pol ph NaN Ae in
    invalid a /\ invalid b /\ invalid c.

(** The acceptance test of a lens as the trace is expected to leave it. *)
Definition accepted (t : traced) : Prop :=
  RI (t_lens t) <> 0%R /\
  theta t =
    if fgt (theta_raw t) (np_arcsin (Fin (NA (t_lens t) / RI (t_lens t))))
    then NaN else theta_raw t.

(** Stand-ins for the functions of [other_functions], to run the trace on a
    concrete system: every matrix is the identity, and the field of a dipole
    is its polarisation seen under the angle of the lens. *)
Module SampleOptics.

Definition id_real : mat3 fval :=
  ((Fin 1, Fin 0, Fin 0), (Fin 0, Fin 1, Fin 0), (Fin 0, Fin 0, Fin 1)).

Definition id_complex : mat3 cval := vmap3 (vmap3 of_real) id_real.

Definition R_x (_ : R) : mat3 fval := id_real.
Definition rotation (_ : fval) : mat3 cval := id_complex.
Definition Fresnel (_ _ : fval) (_ _ : R) : mat3 cval := id_complex.
Definition inv (m : mat3 cval) : mat3 cval := m.
Definition multidot (_ : list (mat3 cval)) : mat3 cval := id_complex.

Definition E_0 (pol : vec3 R) (ph th : fval) (Ae : R) : vec3 cval :=
  vmap3 (fun p => of_real (fmul (Fin (Ae * p)) (np_cos th))) pol.

End SampleOptics.

(** What is expected of the lenses traced so far: each went through the
    acceptance test, and once a pixel is invalid at a lens it is invalid at
    the lens traced last. *)
Definition trace_invariant (done : list traced) : Prop :=
  Forall accepted done /\
  ((exists t, In t done /\ theta t = NaN) ->
   exists tl, last (map Some done) None = Some tl /\ theta tl = NaN).

(** ** [Microscope.calculate_PSF] *)

(** [np.nanmax] of a grid: the largest value that is a number. *)
Definition nanmax2 (a b : fval) : fval :=
  match a, b with
  | NaN, _ => b
  | _, NaN => a
  | _, _ => if fgt b a then b else a
  end.

Definition nanmax (g : grid fval) : fval := fold_left nanmax2 (concat g) NaN.

(** [np.sum] of the terms of a grid of vectors. *)
Definition sum_terms (g : grid (vec3 fval)) : fval :=
  fold_left (fun acc '(a, b, c) => fadd (fadd (fadd acc a) b) c)
            (concat g) (Fin 0).

(** What [calculate_PSF] has in hand when the loop over the dipoles starts:
    the results of [field_tracing_reverse] and [light_sheet] and the grids
    computed from them. *)
Record optics : Type := mkOptics {
  transform : grid (mat3 cval);       (* [self.transform] *)
  apodization_grid : grid fval;       (* [self.apodization] *)
  first_theta : grid fval;            (* [self.lenses[0].theta] *)
  first_phi : grid fval;              (* [self.lenses[0].phi] *)
  k_z : grid fval;
  z_val : list R;
  bao : grid fval;
  scaling_constant : R;               (* [self.scaling] *)
  l_p : vec3 R;
  ls_PSF : volume fval                (* [self.ls_PSF] *)
}.

(** What the loop accumulates. *)
Record ensemble : Type := mkEnsemble {
  tti : list fval;
  ani : list fval;
  PSF : volume fval;
  Ae : option R     (* the local [Ae], kept from one pass to the next *)
}.

(** The numerical results of a run. *)
Record outputs : Type := mkOutputs {
  out_PSF : volume fval;
  out_eff_PSF : volume fval;
  out_tti : fval;
  out_MTF : MTF.attrs;
  out_FWHM : list fval
}.

Section CalculatePSF.

(** The progress sinks: the state of a GUI with its
    [GUI.pbar.setValue], and the terminal with [loadbar] of
    [other_functions]. *)
Variable GUI_state : Type.
Variable setValue : Z -> GUI_state -> result GUI_state.
Variable terminal : Type.
Variable loadbar : nat -> nat -> terminal -> result terminal.

(** The other functions of [other_functions], [save_stacks] and
    [FWHM_measurement] (files and curve fitting), and NumPy's transform. *)
Variable make_pol : Z -> list R * list R.
Variable collected_field : vec3 R -> fval -> fval.
Variable E_0 : vec3 R -> fval -> fval -> R -> vec3 cval.
Variable dft2_volume :
  grid (vec3 cval) -> grid fval -> list R -> grid fval -> Z -> R ->
  volume fval.
Variable add_noise : volume fval -> R -> R -> R -> volume fval * volume fval.
Variable fftn : volume fval -> volume cval.
Variable save_stacks : volume fval -> MTF.attrs -> result unit.
Variable FWHM_measurement : MTF.attrs -> result (list fval).

Local Open Scope R_scope.

(** The argument [GUI] and the terminal. *)
Record sinks : Type := mkSinks {
  GUI : option GUI_state;     (* [None] is the default [GUI=None] *)
  term : terminal
}.

(** [try: GUI.pbar.setValue(100*(i+1)//len(phi))]
    [except: loadbar(i,len(phi))]: on [None] the attribute access raises,
    and the bare [except] catches whatever is raised. *)
Definition report (i n : nat) (w : sinks) : result sinks :=
  let attempt :=
    match GUI w with
    | None => Raise AttributeError
    | Some g => setValue (100 * (Z.of_nat i + 1) / Z.of_nat n)%Z g
    end in
  match attempt with
  | Ok g' => Ok (mkSinks (Some g') (term w))
  | Raise _ => rbind (loadbar i n (term w)) (fun t => Ok (mkSinks (GUI w) t))
  end.

(** The excitation coefficient: 1 without anisotropy, the projection on
    the light-sheet polarisation at an anisotropy of 0.4, and otherwise
    whatever the local holds. *)
Definition excitation (anisotropy : R) (pol : vec3 R) (o : optics)
    (previous : option R) : option R :=
  if Req_dec_T anisotropy 0 then Some 1
  else if Req_dec_T anisotropy (4 / 10) then
    let '(p0, p1, p2) := pol in
    let '(l0, l1, l2) := l_p o in
    Some (Rabs (p0 * l0 + p1 * l1 + p2 * l2))
  else previous.

(** The computations of one pass, after the progress report. *)
Definition dipole (o : optics) (anisotropy : R) (camera_res : Z)
    (dip_ph dip_th : R) (e : ensemble) : result ensemble :=
  let pol := (sin dip_th * cos dip_ph, sin dip_th * sin dip_ph,
              cos dip_th) in
  match excitation anisotropy pol o (Ae e) with
  | None => Raise UnboundLocalError
  | Some A =>
      let ani' :=
        ani e ++ [fmul (collected_field pol (nanmax (first_theta o)))
                       (Fin A)] in
      let Ei := map2 (map2 (fun ph th => E_0 pol ph th A))
                     (first_phi o) (first_theta o) in
      let Ef := map2 (map2 (fun a TE => final_field a (fst TE) (snd TE)))
                     (apodization_grid o)
                     (map2 (map2 pair) (transform o) Ei) in
      let initial_intensity := sum_terms (map (map intensity_terms) Ei) in
      let final_intensity := sum_terms (map (map intensity_terms) Ef) in
      let tti' := tti e ++ [fdiv final_intensity initial_intensity] in
      let PSF' :=
        vmap2 fadd (PSF e)
              (dft2_volume Ef (k_z o) (z_val o) (bao o) camera_res
                           (scaling_constant o)) in
      Ok (mkEnsemble tti' ani' PSF' (Some A))
  end.

(** One pass of [for i in range(len(phi))]. *)
Definition pass (o : optics) (anisotropy : R) (camera_res : Z)
    (phi theta : list R) (st : result (ensemble * sinks)) (i : nat)
    : result (ensemble * sinks) :=
  rbind st (fun '(e, w) =>
  rbind (report i (length phi) w) (fun w' =>
  rbind (index theta i) (fun dip_th =>
  rbind (index phi i) (fun dip_ph =>
  rbind (dipole o anisotropy camera_res dip_ph dip_th e) (fun e' =>
  Ok (e', w')))))).

(** [np.mean(np.array(ani)*np.array(tti))]. *)
Definition mean_throughput (e : ensemble) : fval :=
  let throughput := map2 fmul (ani e) (tti e) in
  fdiv (fold_left fadd throughput (Fin 0))
       (Fin (INR (length throughput))).

(** The method.  [setup] is the outcome of the statements before the
    loop, which do not see [GUI]; [cfg] holds the attributes that
    [make_MTF] reads. *)
Definition calculate_PSF (setup : result optics) (ensamble : Z)
    (anisotropy : R) (cfg : MTF.attrs) (w : sinks)
    : result (outputs * sinks) :=
  let camera_res := res (MTF.camera cfg) in
  rbind setup (fun o =>
  let '(phi, theta) := make_pol ensamble in
  let zeros :=
    repeat (repeat (repeat (Fin 0) (Z.to_nat camera_res))
                   (Z.to_nat camera_res)) (Z.to_nat camera_res) in
  rbind (fold_left (pass o anisotropy camera_res phi theta)
                   (seq 0 (length phi))
                   (Ok (mkEnsemble [] [] zeros None, w)))
        (fun '(e, w') =>
  rbind (effective_PSF (PSF e) (ls_PSF o)) (fun eff =>
  let cfg := MTF.mkAttrs (MTF.OTF_res cfg) (MTF.camera cfg) eff
                         (MTF.SNR cfg) (MTF.mag cfg)
                         (MTF.PSF_poisson cfg) (MTF.PSF_readout cfg)
                         (MTF.MTF_noiseless cfg) (MTF.MTF_poisson cfg)
                         (MTF.MTF_readout cfg) (MTF.base_freq cfg)
                         (MTF.XYZ_res cfg) in
  let '(r1, cfg1) := MTF.make_MTF add_noise fftn cfg in
  rbind r1 (fun _ =>
  rbind (save_stacks (PSF e) cfg1) (fun _ =>
  let '(r2, cfg2) := Analyze.analyze cfg1 in
  rbind r2 (fun _ =>
  rbind (FWHM_measurement cfg2) (fun fwhm =>
  Ok (mkOutputs (PSF e) eff (mean_throughput e) cfg2 fwhm, w')))))))).

End CalculatePSF.

(** The part of an outcome that does not belong to the sinks. *)
Definition numerical {A W} (r : result (A * W)) : result A :=
  rbind r (fun p => Ok (fst p)).

(** Stand-ins for the sinks and for the remaining outside functions, to run
    [calculate_PSF] on the one-pixel, one-dipole configuration: a GUI whose
    state is the value of its bar, a terminal that records the calls of
    [loadbar]. *)
Module SampleRun.

Definition setValue (v : Z) (_ : Z) : result Z := Ok v.

Definition loadbar (i n : nat) (t : list (nat * nat))
    : result (list (nat * nat)) :=
  Ok (t ++ [(i, n)]).

Definition make_pol (_ : Z) : list R * list R := ([0%R], [0%R]).

Definition collected_field (_ : vec3 R) (_ : fval) : fval := Fin 1.

Definition dft2_volume (_ : grid (vec3 cval)) (_ : grid fval) (_ : list R)
    (_ : grid fval) (_ : Z) (_ : R) : volume fval :=
  [[[Fin 1]]].

Definition save_stacks (_ : volume fval) (_ : MTF.attrs) : result unit :=
  Ok tt.

Definition FWHM_measurement (_ : MTF.attrs) : result (list fval) := Ok [].

Definition setup : optics :=
  mkOptics [[SampleOptics.id_complex]] [[Fin 1]] [[Fin 0]] [[Fin 0]]
           [[Fin 1]] [0%R] [[Fin 1]] 1 (1%R, 0%R, 0%R) [[[Fin 1]]].

End SampleRun.

(** ** The pixel grid and the angles of [light_sheet] *)

(** [np.linspace(-M, M, res)[j]]. *)
Definition linspace_at (M res : Z) (j : nat) : R :=
  if (res =? 1)%Z then IZR (- M)
  else (IZR (- M) + INR j * (IZR (M - - M) / IZR (res - 1)))%R.

(** [x = y = np.linspace(-M, M, res)] with [M = res//2], and
    [xx, yy = np.meshgrid(x, y)]: the pixel of row [i] and column [j] has
    the coordinates (x[j], y[i]). *)
Definition centred_axis (res : Z) : list R :=
  map (linspace_at (res / 2) res) (seq 0 (Z.to_nat res)).

Definition meshgrid (x y : list R) : grid (R * R) :=
  map (fun yi => map (fun xj => (xj, yi)) x) y.

(** [theta] of [light_sheet] at the pixel of coordinates [xy]: with
    [NA = self.lenses[0].RI*np.sin(self.ls_opening)] and
    [del_K = self.k0*NA/M], all NumPy scalars,
    [theta = np.arcsin((del_K/(self.k0*self.lenses[0].RI))*RR)]. *)
Definition light_sheet_theta (k0 RI0 ls_opening : R) (M : Z) (xy : R * R)
    : fval :=
  let NA := fmul (Fin RI0) (np_sin (Fin ls_opening)) in
  let del_K := fdiv (fmul (Fin k0) NA) (Fin (IZR M)) in
  let RR := np_sqrt (fadd (Fin (fst xy ^ 2)) (Fin (snd xy ^ 2))) in
  np_arcsin (fmul (fdiv del_K (Fin (k0 * RI0))) RR).

Definition light_sheet_angles (k0 RI0 ls_opening : R) (res : Z) : grid fval :=
  map (map (light_sheet_theta k0 RI0 ls_opening (res / 2)))
      (meshgrid (centred_axis res) (centred_axis res)).

(** ** Further definitions for [calculate_system_specs] *)

(** The alternating product of the NAs that the loop of
    [calculate_system_specs] computes. *)
Definition system_mag (l : list Lens) : R :=
  (Rprod (map NA (evens l)) / Rprod (map NA (odds l)))%R.

(** The attributes once [self.axial_mag] has been assigned: the statements
    that follow need the camera. *)
Definition with_magnifications (self : Microscope) (m al am : R)
    : Microscope :=
  mkMicroscope (lenses self) (lam_ex self) (lam_em self) (camera self)
               (Some m) (Some al) (Some am)
               (z_voxel_size self) (scaling self) (FoV self).

(** [Microscope.add_camera]: the pixel count must be of type [int]. *)
Definition add_camera (res : pyval) (vox offset RMS : R)
    : py Microscope unit :=
  fun self =>
    match res with
    | PyInt r =>
        (Ok tt,
         mkMicroscope (lenses self) (lam_ex self) (lam_em self)
                      (Some (mkCamera r vox offset RMS))
                      (mag self) (alpha self) (axial_mag self)
                      (z_voxel_size self) (scaling self) (FoV self))
    | _ => (Raise TypeError, self)
    end.

(** What an attribute holds after a method that may have assigned it. *)
Definition assigned (new old : option R) : option R :=
  match new with
  | Some v => Some v
  | None => old
  end.

(** ** The example system: [add_lenses] and [make_system] *)

(** A method of the lens list run on the microscope that owns the list. *)
Definition on_lenses {A} (c : py (list Lens) A) : py Microscope A :=
  fun self =>
    let (r, l) := c (lenses self) in
    (r, mkMicroscope l (lam_ex self) (lam_em self) (camera self)
                     (mag self) (alpha self) (axial_mag self)
                     (z_voxel_size self) (scaling self) (FoV self)).

Section Example.

Local Open Scope py_scope.
Local Open Scope R_scope.

(** [add_lenses(system)]; the defaults of [add_lens] are [RI=1], [rot=0]
    and [pos=False]. *)
Definition add_lenses : py Microscope unit :=
  let NA_1 := 135 / 100 in
  let RI_1 := 14 / 10 in
  on_lenses (add_lens NA_1 RI_1 0 (PyBool false)) ;;;
  let NA_2 := 25 / 100 in
  let RI_2 := 1 in
  on_lenses (add_lens NA_2 RI_2 0 (PyBool false)) ;;;
  let NA_4 := 95 / 100 in
  let RI_4 := 1 in
  let rot_4 := 0 in
  on_lenses (add_lens NA_4 RI_4 rot_4 (PyBool false)) ;;;
  let NA_3 := NA_2 * (RI_1 * NA_4) / (RI_4 * NA_1) in
  let RI_3 := 1 in
  on_lenses (add_lens NA_3 RI_3 0 (PyInt 2)) ;;;
  let NA_5 := 1 in
  let RI_5 := 17 / 10 in
  let rot_5 := 40 * PI / 180 in
  on_lenses (add_lens NA_5 RI_5 rot_5 (PyBool false)) ;;;
  let NA_6 := 1 / 40 in
  on_lenses (add_lens NA_6 1 0 (PyBool false)).

End Example.

(** The names of the light-sheet polarisations. *)
Module Pol.
Import String.
Definition p : string := "p".
Definition s : string := "s".
Definition u : string := "u".
End Pol.

Module MakeSystem.

(** The settings [make_system] stores on the microscope beside the
    attributes of [calculate_system_specs]. *)
Record settings : Type := mkSettings {
  ensamble : option Z;
  OTF_res : option Z;
  ls_pol : option String.string;
  anisotropy : option R;
  ls_opening : option R;
  SNR : option R
}.

Definition state : Type := (Microscope * settings)%type.

Definition on_system {A} (c : py Microscope A) : py state A :=
  fun s =>
    let (r, m) := c (fst s) in (r, (m, snd s)).

Definition set_settings (v : settings) : py state unit :=
  fun s => (Ok tt, (fst s, v)).

Local Open Scope py_scope.
Local Open Scope R_scope.

Definition make_system : py state unit :=
  on_system add_lenses ;;;
  on_system (add_camera (PyInt 128) (2 / 1000000) 100 (14 / 10)) ;;;
  set_settings (mkSettings (Some 10%Z) (Some 256%Z) (Some Pol.u)
                           (Some (4 / 10)) (Some (5 * PI / 180))
                           (Some 20)) ;;;
  on_system calculate_system_specs.

(** The lenses of the example, in the order of the light path. *)
Definition example_lenses : list Lens :=
  [ mkLens (135 / 100) (14 / 10) 0;
    mkLens (25 / 100) 1 0;
    mkLens (25 / 100 * (14 / 10 * (95 / 100)) / (1 * (135 / 100))) 1 0;
    mkLens (95 / 100) 1 0;
    mkLens 1 (17 / 10) (40 * PI / 180);
    mkLens (1 / 40) 1 0 ].

End MakeSystem.

(** ** Further definitions for [light_sheet] *)

(** The branch on [self.ls_pol] and the read of [self.Ei_base] that follows
    it; the state is the attribute [Ei_base], which a name other than 'p',
    's' and 'u' leaves as it is. *)
Definition light_sheet_Ei_base (ls_pol : String.string)
    : py (option (list fval)) (list fval) :=
  fun Ei_base =>
    let Ei_base :=
      if String.eqb ls_pol Pol.p then Some [Fin 1; Fin 0; Fin 0]
      else if String.eqb ls_pol Pol.s then Some [Fin 0; Fin 1; Fin 0]
      else if String.eqb ls_pol Pol.u
      then Some [fdiv (np_sqrt (Fin 2)) (Fin 2);
                 fdiv (np_sqrt (Fin 2)) (Fin 2); Fin 0]
      else Ei_base in
    match Ei_base with
    | Some v => (Ok v, Ei_base)
    | None => (Raise AttributeError, Ei_base)
    end.

(** The sum of the squares of the components of a field. *)
Definition intensity (E : list fval) : fval :=
  fold_right fadd (Fin 0) (map (fun e => fmul e e) E).

(** [k_z] of [light_sheet] at the pixel of coordinates [xy], as the Debye
    integral receives it:
    [k_z = np.sqrt((self.k0*self.lenses[0].RI)**2 - k_xy**2)] with
    [k_xy = del_K*RR], then [k_z = np.nan_to_num(k_z)]. *)
Definition light_sheet_k_z (k0 RI0 ls_opening : R) (M : Z) (xy : R * R)
    : fval :=
  let NA := fmul (Fin RI0) (np_sin (Fin ls_opening)) in
  let del_K := fdiv (fmul (Fin k0) NA) (Fin (IZR M)) in
  let RR := np_sqrt (fadd (Fin (fst xy ^ 2)) (Fin (snd xy ^ 2))) in
  let k_xy := fmul del_K RR in
  let k_z := np_sqrt (fsub (Fin ((k0 * RI0) ^ 2)) (fmul k_xy k_xy)) in
  nan_to_num k_z.

(** A 3-D array of the shape (n, n, n). *)
Definition cubic {A} (n : nat) (v : volume A) : Prop :=
  length v = n /\
  Forall (fun plane =>
            length plane = n /\ Forall (fun row => length row = n) plane) v.

(** ** Further definitions for [calculate_PSF] *)

(** The average light-sheet polarisation in image space: the rotation by
    [self.alpha] about the y-axis, applied to [self.Ei_base]. *)
Definition image_space_polarization (alpha : R) (Ei_base : vec3 R)
    : vec3 R :=
  let '(e0, e1, e2) := Ei_base in
  (cos alpha * e0 + 0 * e1 + - sin alpha * e2,
   0 * e0 + 1 * e1 + 0 * e2,
   sin alpha * e0 + 0 * e1 + cos alpha * e2)%R.

(** ** The effective PSF in double precision *)

(** The line [self.eff_PSF = (self.PSF/self.PSF.max())*(self.ls_PSF/
    self.ls_PSF.max())] on [float64] values as the machine has them, with
    the rounding of every division and product (binary64, round to nearest
    even): the claims on exact values of that line are tried here. *)
Module Float64.

Import Floats.

(** The larger of two values as [np.max] folds them: not-a-number wins. *)
Definition fmax2 (a b : float) : float :=
  if (PrimFloat.is_nan a || PrimFloat.is_nan b)%bool then nan
  else if PrimFloat.ltb a b then b else a.

(** [v.max()]: an empty array has no maximum. *)
Definition vmax (v : volume float) : result float :=
  match concat (concat v) with
  | [] => Raise ValueError
  | x :: t => Ok (fold_left fmax2 t x)
  end.

(** [a / a.max()]. *)
Definition normalise (a : volume float) : result (volume float) :=
  rbind (vmax a) (fun m => Ok (vmap (fun x => PrimFloat.div x m) a)).

Definition effective_PSF (PSF ls_PSF : volume float)
    : result (volume float) :=
  rbind (normalise PSF) (fun det =>
  rbind (normalise ls_PSF) (fun ill =>
  Ok (vmap2 PrimFloat.mul det ill))).

(** [c * a] for a scalar [c]. *)
Definition vscale (c : float) (a : volume float) : volume float :=
  vmap (fun x => PrimFloat.mul c x) a.

(** Sample values: 0.7, 2^1023, and the two doubles next to a third,
    0.3333333333333333 and 0.33333333333333337. *)
Definition seven_tenths : float := 0x1.6666666666666p-1.
Definition huge : float := 0x1p1023.
Definition third_below : float := 0x1.5555555555555p-2.
Definition third_above : float := 0x1.5555555555556p-2.

(** Sample arms: [[1, 3]] and [[1, 1]]. *)
Definition one_three : volume float := [[[1%float; 3%float]]].
Definition one_one : volume float := [[[1%float; 1%float]]].

End Float64.

(** * Theorems *)

(** ** Floating-point values: evaluation on finite values *)

Section FloatFacts.

Local Open Scope R_scope.

Lemma fgt_fin_true (a b : R) : a > b -> fgt (Fin a) (Fin b) = true.
Proof.
  intros H. unfold fgt. destruct (Rgt_dec a b); [reflexivity|contradiction].
Qed.

Lemma fgt_fin_false (a b : R) : a <= b -> fgt (Fin a) (Fin b) = false.
Proof.
  intros H. unfold fgt. destruct (Rgt_dec a b); [lra|reflexivity].
Qed.

Lemma fle_fin_true (a b : R) : a <= b -> fle (Fin a) (Fin b) = true.
Proof.
  intros H. unfold fle. destruct (Rle_dec a b); [reflexivity|contradiction].
Qed.

Lemma fle_fin_false (a b : R) : b < a -> fle (Fin a) (Fin b) = false.
Proof.
  intros H. unfold fle. destruct (Rle_dec a b); [lra|reflexivity].
Qed.

Lemma fmax2_fin_l (a b : R) : b <= a -> fmax2 (Fin a) (Fin b) = Fin a.
Proof. intros H. unfold fmax2. rewrite fgt_fin_false by exact H. reflexivity. Qed.

Lemma fmax2_fin_r (a b : R) : a < b -> fmax2 (Fin a) (Fin b) = Fin b.
Proof. intros H. unfold fmax2. rewrite fgt_fin_true by lra. reflexivity. Qed.

Lemma np_sqrt_fin (x : R) : 0 <= x -> np_sqrt (Fin x) = Fin (sqrt x).
Proof.
  intros H. unfold np_sqrt. destruct (Rlt_dec x 0); [lra|reflexivity].
Qed.

Lemma fdiv_fin (x y : R) : y <> 0 -> fdiv (Fin x) (Fin y) = Fin (x / y).
Proof.
  intros H. unfold fdiv. destruct (Req_dec_T y 0); [contradiction|].
  reflexivity.
Qed.

Lemma rsign_pos (x : R) : 0 < x -> rsign x = 1%Z.
Proof.
  intros H. unfold rsign. destruct (Rlt_dec 0 x); [reflexivity|contradiction].
Qed.

Lemma rsign_neg (x : R) : x < 0 -> rsign x = (-1)%Z.
Proof.
  intros H. unfold rsign.
  destruct (Rlt_dec 0 x); [lra|].
  destruct (Rlt_dec x 0); [reflexivity|contradiction].
Qed.

Lemma rsign_zero : rsign 0 = 0%Z.
Proof.
  unfold rsign.
  destruct (Rlt_dec 0 0); [lra|]. destruct (Rlt_dec 0 0); [lra|reflexivity].
Qed.

Lemma fdiv_fin_zero (x : R) : 0 < x -> fdiv (Fin x) (Fin 0) = PInf.
Proof.
  intros H. unfold fdiv.
  destruct (Req_dec_T 0 0) as [_|E]; [|exfalso; apply E; reflexivity].
  rewrite rsign_pos by exact H. reflexivity.
Qed.

Lemma sqrt_4 : sqrt 4 = 2.
Proof. replace 4 with (2 * 2) by ring. apply sqrt_square. lra. Qed.

Lemma np_arcsin_fin (x : R) :
  -1 <= x <= 1 -> np_arcsin (Fin x) = Fin (asin x).
Proof.
  intros [H1 H2]. unfold np_arcsin.
  destruct (Rle_dec (-1) x); [|contradiction].
  destruct (Rle_dec x 1); [reflexivity|contradiction].
Qed.

Lemma sqrt_2_bounds : 1 <= sqrt 2 <= 2.
Proof.
  split.
  - rewrite <- sqrt_1 at 1. apply sqrt_le_1_alt. lra.
  - apply Rle_trans with (sqrt 4); [apply sqrt_le_1_alt; lra|].
    rewrite sqrt_4. lra.
Qed.

End FloatFacts.

(** ** [add_lens] *)

Lemma insert_length (A : Type) (i : Z) (x : A) (l : list A) :
  length (PyList.insert i x l) = S (length l).
Proof.
  unfold PyList.insert.
  rewrite length_app; simpl.
  rewrite Nat.add_succ_r, <- length_app, firstn_skipn.
  reflexivity.
Qed.

Lemma insert_at (A : Type) (j : nat) (x : A) (l : list A) :
  (j <= length l)%nat ->
  nth_error (firstn j l ++ x :: skipn j l) j = Some x.
Proof.
  intros Hj.
  rewrite nth_error_app2; rewrite length_firstn, Nat.min_l by exact Hj.
  - rewrite Nat.sub_diag. reflexivity.
  - apply Nat.le_refl.
Qed.

(** C10.  What [add_lens] does with every position.  A position that
    compares equal to [False] (the integer 0, the float 0.0, [False] itself)
    appends the lens: the comparison comes before the test of the type.  An
    integer position from 1 to the length puts the lens at that index, the
    elements before it and after it kept in order.  A position that is not
    of type [int] and does not compare equal to [False] raises [TypeError],
    an integer position beyond the length raises [ValueError], and both
    leave the list as it was.  A negative integer position passes the range
    test, which looks at the upper end only, and reaches [list.insert]: the
    lens lands at index max(0, length + pos), counted from the end. *)
Theorem add_lens_by_position (NA RI rot : R) (lenses : list Lens) :
  let lens := mkLens NA RI rot in
  let n := Z.of_nat (length lenses) in
  (forall pos, eq_False pos = true ->
     add_lens NA RI rot pos lenses = (Ok tt, lenses ++ [lens])) /\
  (forall p, (1 <= p <= n)%Z ->
     exists lenses',
       add_lens NA RI rot (PyInt p) lenses = (Ok tt, lenses') /\
       PyList.getitem lenses' p = Ok lens /\
       firstn (Z.to_nat p) lenses' = firstn (Z.to_nat p) lenses /\
       skipn (S (Z.to_nat p)) lenses' = skipn (Z.to_nat p) lenses) /\
  (forall p, (p < 0)%Z ->
     let j := Z.to_nat (Z.max 0 (p + n)) in
     add_lens NA RI rot (PyInt p) lenses =
       (Ok tt, firstn j lenses ++ lens :: skipn j lenses) /\
     nth_error (firstn j lenses ++ lens :: skipn j lenses) j = Some lens) /\
  (forall pos, eq_False pos = false -> type_is_int pos = false ->
     add_lens NA RI rot pos lenses = (Raise TypeError, lenses)) /\
  (forall p, (n < p)%Z ->
     add_lens NA RI rot (PyInt p) lenses = (Raise ValueError, lenses)).
Proof.
  intros lens n. split; [|split; [|split; [|split]]].
  - intros pos H. unfold add_lens. rewrite H. reflexivity.
  - intros p Hp.
    assert (Hj : (Z.to_nat p <= length lenses)%nat) by (subst n; lia).
    exists (firstn (Z.to_nat p) lenses ++ lens :: skipn (Z.to_nat p) lenses).
    split; [|split; [|split]].
    + unfold add_lens; simpl.
      destruct (Z.eqb_spec p 0) as [->|_]; [lia|].
      destruct (Z.ltb_spec (Z.of_nat (length lenses)) p); [subst n; lia|].
      unfold PyList.insert.
      destruct (Z.ltb_spec p 0); [lia|].
      fold n. rewrite Z.min_l by lia. reflexivity.
    + unfold PyList.getitem.
      rewrite length_app; simpl.
      rewrite length_firstn, length_skipn, Nat.min_l by exact Hj.
      destruct (Z.ltb_spec p 0); [lia|].
      destruct (Z.ltb_spec p 0); [lia|]; simpl.
      destruct (Z.leb_spec
        (Z.of_nat (Z.to_nat p + S (length lenses - Z.to_nat p))) p); [lia|].
      rewrite insert_at by exact Hj. reflexivity.
    + rewrite firstn_app, length_firstn, Nat.min_l by exact Hj.
      rewrite Nat.sub_diag, firstn_firstn, Nat.min_id; simpl.
      apply app_nil_r.
    + rewrite skipn_app, length_firstn, Nat.min_l by exact Hj.
      rewrite skipn_firstn_comm.
      replace (Z.to_nat p - S (Z.to_nat p))%nat with 0%nat by lia.
      replace (S (Z.to_nat p) - Z.to_nat p)%nat with 1%nat by lia.
      reflexivity.
  - intros p Hp j. split.
    + unfold add_lens; simpl.
      destruct (Z.eqb_spec p 0) as [->|_]; [lia|].
      destruct (Z.ltb_spec (Z.of_nat (length lenses)) p); [lia|].
      unfold PyList.insert.
      destruct (Z.ltb_spec p 0); [|lia]. reflexivity.
    + apply insert_at. subst j n. lia.
  - intros pos H1 H2. unfold add_lens. rewrite H1, H2. reflexivity.
  - intros p Hp. unfold add_lens; simpl.
    destruct (Z.eqb_spec p 0) as [->|_]; [subst n; lia|].
    destruct (Z.ltb_spec (Z.of_nat (length lenses)) p); [|subst n; lia].
    reflexivity.
Qed.

Lemma eq_False_float_zero : eq_False (PyFloat 0) = true.
Proof.
  unfold eq_False. destruct (Req_dec_T 0 0) as [_|H]; [reflexivity|].
  exfalso. apply H. reflexivity.
Defined.

Lemma add_lens_by_position_witness :
  let l0 := mkLens 2 1 0 in
  let lens := mkLens 1 1 0 in
  add_lens 1 1 0 (PyFloat 0) [l0] = (Ok tt, [l0; lens]) /\
  (exists lenses',
     add_lens 1 1 0 (PyInt 1) [l0] = (Ok tt, lenses') /\
     PyList.getitem lenses' 1 = Ok lens /\
     firstn 1 lenses' = [l0] /\ skipn 2 lenses' = []) /\
  add_lens 1 1 0 (PyInt (-1)) [l0] = (Ok tt, [lens; l0]) /\
  add_lens 1 1 0 (PyBool true) [l0] = (Raise TypeError, [l0]) /\
  add_lens 1 1 0 (PyInt 2) [l0] = (Raise ValueError, [l0]).
Proof.
  intros l0 lens.
  destruct (add_lens_by_position 1 1 0 [l0]) as (Ha & Hb & Hc & Hd & He).
  split; [|split; [|split; [|split]]].
  - apply Ha. exact eq_False_float_zero.
  - apply (Hb 1%Z). simpl. lia.
  - apply (Hc (-1)%Z). lia.
  - apply Hd; reflexivity.
  - apply He. simpl. lia.
Defined.

(** The two guards of [add_lens] let positions through that its docstring
    ([pos : Int]) and its messages ('Lens position can only be integer',
    'Lens position out of range') exclude.  The float 0.0 is not an integer,
    yet it compares equal to [False] and the lens is appended, no
    [TypeError].  The integer -1 is out of the range 0..length, yet no
    [ValueError] is raised: the lens is put before the last element, and
    the element at index -1 is still the old last lens.  At -2 on two
    lenses the lens is put at the head, the place that position 0 cannot
    reach. *)
Lemma add_lens_float_zero_and_negative :
  let a := mkLens 2 1 0 in
  let b := mkLens 3 1 0 in
  let lens := mkLens 1 1 0 in
  (type_is_int (PyFloat 0) = false /\
   add_lens 1 1 0 (PyFloat 0) [a; b] = (Ok tt, [a; b; lens]) /\
   fst (add_lens 1 1 0 (PyFloat 0) [a; b]) <> Raise TypeError) /\
  (add_lens 1 1 0 (PyInt (-1)) [a; b] = (Ok tt, [a; lens; b]) /\
   PyList.getitem [a; lens; b] (-1) = Ok b /\
   b <> lens) /\
  add_lens 1 1 0 (PyInt (-2)) [a; b] = (Ok tt, [lens; a; b]) /\
  add_lens 1 1 0 (PyInt 0) [a; b] = (Ok tt, [a; b; lens]).
Proof.
  intros a b lens.
  assert (H0 : add_lens 1 1 0 (PyFloat 0) [a; b] = (Ok tt, [a; b; lens])).
  { unfold add_lens. rewrite eq_False_float_zero. reflexivity. }
  split; [split; [reflexivity|split]|split; [split; [reflexivity|split]|]].
  - exact H0.
  - rewrite H0. discriminate.
  - reflexivity.
  - intros H. injection H as H. lra.
  - split; reflexivity.
Qed.

(** ** The rotation direction of [field_tracing_reverse] *)

Lemma setitem_length (A : Type) (a : list A) (j : nat) (v : A) :
  length (Np.setitem a j v) = length a.
Proof.
  revert j. induction a as [|h t IH]; intros [|j]; simpl; auto.
Qed.

Lemma setitem_nth (A : Type) (a : list A) (j k : nat) (v d : A) :
  (j < length a)%nat ->
  nth k (Np.setitem a j v) d = if Nat.eqb k j then v else nth k a d.
Proof.
  revert j k. induction a as [|h t IH]; intros j k Hj; simpl in Hj; [lia|].
  destruct j as [|j], k as [|k]; simpl; try reflexivity.
  apply IH. lia.
Qed.

Lemma getitem_from_end (A : Type) (l : list A) (i : nat) (d : A) :
  (1 <= i <= length l)%nat ->
  PyList.getitem l (- Z.of_nat i) = Ok (nth (length l - i) l d).
Proof.
  intros Hi. unfold PyList.getitem.
  destruct (Z.ltb_spec (- Z.of_nat i) 0); [|lia].
  destruct (Z.ltb_spec (- Z.of_nat i + Z.of_nat (length l)) 0); [lia|].
  destruct (Z.leb_spec (Z.of_nat (length l))
                       (- Z.of_nat i + Z.of_nat (length l))); [lia|].
  simpl.
  replace (Z.to_nat (- Z.of_nat i + Z.of_nat (length l)))
    with (length l - i)%nat by lia.
  destruct (nth_error l (length l - i)) eqn:E.
  - f_equal. symmetry. apply nth_error_nth. exact E.
  - apply nth_error_None in E. lia.
Qed.

Lemma getitem_from_start (A : Type) (l : list A) (i : nat) (d : A) :
  (i < length l)%nat ->
  PyList.getitem l (Z.of_nat i) = Ok (nth i l d).
Proof.
  intros Hi. unfold PyList.getitem. cbv zeta.
  assert (E1 : (Z.of_nat i <? 0)%Z = false) by (apply Z.ltb_ge; lia).
  assert (E2 : (Z.of_nat (length l) <=? Z.of_nat i)%Z = false)
    by (apply Z.leb_gt; lia).
  rewrite E1; cbv iota; rewrite E1, E2; simpl. rewrite Nat2Z.id.
  destruct (nth_error l i) eqn:E.
  - f_equal. symmetry. apply nth_error_nth. exact E.
  - apply nth_error_None in E. lia.
Qed.

Lemma pow_m1_cases (e : Z) :
  (0 <= e)%Z -> ((-1) ^ e = 1 \/ (-1) ^ e = -1)%Z.
Proof.
  intros He. pattern e. apply natlike_ind; [left; reflexivity| |exact He].
  intros x Hx [IH|IH]; rewrite Z.pow_succ_r by exact Hx; rewrite IH; lia.
Qed.

Lemma pow_m1_add_2 (e : Z) :
  (0 <= e)%Z -> ((-1) ^ (e + 2) = (-1) ^ e)%Z.
Proof.
  intros He. rewrite Z.pow_add_r by lia. change ((-1) ^ 2)%Z with 1%Z. lia.
Qed.

(** The sign written at [rotation_direction[-i]]. *)
Lemma direction_written (i : nat) :
  Np.int16 (-1 * (-1) ^ ((Z.of_nat i + 1) / 2 + 1)) =
  ((-1) ^ ((Z.of_nat i + 1) / 2))%Z.
Proof.
  assert (H0 : (0 <= (Z.of_nat i + 1) / 2)%Z) by (apply Z.div_pos; lia).
  rewrite Z.pow_add_r by lia. change ((-1) ^ 1)%Z with (-1)%Z.
  destruct (pow_m1_cases H0) as [E|E]; rewrite E; reflexivity.
Qed.

Lemma skipn_cons_nth (A : Type) (l : list A) (j : nat) (d : A) :
  (j < length l)%nat -> skipn j l = nth j l d :: skipn (S j) l.
Proof.
  revert j. induction l as [|h t IH]; intros j Hj; simpl in Hj; [lia|].
  destruct j as [|j]; [reflexivity|].
  simpl. apply IH. lia.
Qed.

Lemma nth_map_seq (f : nat -> Z) (n j : nat) (d : Z) :
  (j < n)%nat -> nth j (map f (seq 0 n)) d = f j.
Proof.
  intros Hj.
  rewrite (nth_indep _ d (f 0%nat)) by (rewrite length_map, length_seq; lia).
  rewrite map_nth, seq_nth by exact Hj. reflexivity.
Qed.

Lemma nth_direction_init (n j : nat) (d : Z) :
  (j < n)%nat -> nth j (rotation_direction_init n) d = (-1)%Z.
Proof.
  revert j. induction n as [|n IH]; intros j Hj; [lia|].
  destruct j as [|j]; [reflexivity|].
  apply IH. lia.
Qed.

Lemma direction_after_length (n k : nat) : length (direction_after n k) = n.
Proof. unfold direction_after. rewrite length_map, length_seq. reflexivity. Qed.

Lemma reverse_lenses_prefix (ls : list Lens) (k : nat) :
  (k <= length ls)%nat ->
  fold_left (reverse_step ls) (seq 1 k)
            (Ok ([], rotation_direction_init (length ls))) =
  Ok (rev (skipn (length ls - k) ls), direction_after (length ls) k).
Proof.
  set (n := length ls).
  induction k as [|k IH]; intros Hk.
  - simpl. rewrite Nat.sub_0_r. unfold n. rewrite skipn_all. simpl.
    f_equal. f_equal.
    apply nth_ext with (d := 0%Z) (d' := 0%Z).
    + rewrite direction_after_length. unfold rotation_direction_init.
      rewrite length_map, repeat_length. reflexivity.
    + intros j Hj. unfold rotation_direction_init in Hj.
      rewrite length_map, repeat_length in Hj.
      rewrite nth_direction_init by exact Hj.
      unfold direction_after, sign_after. rewrite nth_map_seq by exact Hj.
      destruct (Nat.leb_spec (length ls - j) 0); [lia|reflexivity].
  - rewrite seq_S, fold_left_app, IH by lia.
    cbn [fold_left Nat.add]. unfold reverse_step.
    rewrite (getitem_from_end ls (mkLens 0 0 0)) by (fold n; lia).
    rewrite (getitem_from_end (direction_after n k) 0%Z)
      by (rewrite direction_after_length; lia).
    rewrite direction_after_length. fold n. f_equal. f_equal.
    + replace (n - k)%nat with (S (n - S k)) by lia.
      rewrite (skipn_cons_nth ls (j := n - S k) (mkLens 0 0 0))
        by (unfold n in *; lia).
      reflexivity.
    + assert (Hd : nth (n - S k) (direction_after n k) 0%Z = (-1)%Z).
      { unfold direction_after, sign_after. rewrite nth_map_seq by lia.
        destruct (Nat.leb_spec (n - (n - S k)) k); [lia|reflexivity]. }
      rewrite Hd, direction_written.
      apply nth_ext with (d := 0%Z) (d' := 0%Z).
      * rewrite setitem_length, !direction_after_length. reflexivity.
      * intros j Hj. rewrite setitem_length, direction_after_length in Hj.
        rewrite setitem_nth by (rewrite direction_after_length; lia).
        unfold direction_after, sign_after. rewrite !nth_map_seq by lia.
        destruct (Nat.eqb_spec j (n - S k)) as [->|Hne].
        -- destruct (Nat.leb_spec (n - (n - S k)) (S k)); [|lia].
           replace (n - (n - S k))%nat with (S k) by lia. reflexivity.
        -- destruct (Nat.leb_spec (n - j) k), (Nat.leb_spec (n - j) (S k));
             try lia; reflexivity.
Qed.

Lemma sign_flips_after_two (m : nat) :
  (2 <= m)%nat ->
  ((-1) ^ ((Z.of_nat (m - 2) + 1) / 2) =
   - (-1) ^ ((Z.of_nat m + 1) / 2))%Z.
Proof.
  intros Hm.
  replace ((Z.of_nat m + 1) / 2)%Z
    with ((Z.of_nat (m - 2) + 1) / 2 + 1)%Z.
  - rewrite Z.pow_add_r by (try apply Z.div_pos; lia).
    change ((-1) ^ 1)%Z with (-1)%Z. lia.
  - replace (Z.of_nat m + 1)%Z with (Z.of_nat (m - 2) + 1 + 1 * 2)%Z by lia.
    rewrite Z.div_add by lia. reflexivity.
Qed.

(** C5.  For every lens list the loop of [field_tracing_reverse] returns the
    lenses in reverse order and a rotation direction for each step; the
    direction read at the reverse-order step [i] is +1 or -1, it is
    (-1)^((n-i+1)//2), it changes sign every two steps and so repeats every
    four steps, and the mode of the step follows the parity of [i]. *)
Theorem rotation_direction_period_4 (self_lenses : list Lens) :
  let n := length self_lenses in
  exists rd,
    reverse_lenses self_lenses = Ok (rev self_lenses, rd) /\
    length rd = n /\
    forall i, (i < n)%nat ->
      exists d,
        step_dir rd i = Ok d /\
        (d = 1 \/ d = -1)%Z /\
        d = ((-1) ^ ((Z.of_nat (n - i) + 1) / 2))%Z /\
        ((i + 2 < n)%nat -> step_dir rd (i + 2) = Ok (- d)%Z) /\
        ((i + 4 < n)%nat -> step_dir rd (i + 4) = Ok d) /\
        step_mode i = (if Nat.even i then focusing else collimating).
Proof.
  intros n. exists (direction_after n n).
  assert (Hnth : forall j, (j < n)%nat ->
            step_dir (direction_after n n) j =
            Ok ((-1) ^ ((Z.of_nat (n - j) + 1) / 2))%Z).
  { intros j Hj. unfold step_dir.
    rewrite (getitem_from_start (direction_after n n) 0%Z)
      by (rewrite direction_after_length; exact Hj).
    unfold direction_after, sign_after. rewrite nth_map_seq by exact Hj.
    destruct (Nat.leb_spec (n - j) n); [reflexivity|lia]. }
  split; [|split].
  - unfold reverse_lenses. fold n.
    rewrite reverse_lenses_prefix by (unfold n; lia).
    fold n. rewrite Nat.sub_diag. reflexivity.
  - apply direction_after_length.
  - intros i Hi.
    exists ((-1) ^ ((Z.of_nat (n - i) + 1) / 2))%Z.
    split; [apply Hnth; exact Hi|].
    split; [apply pow_m1_cases; apply Z.div_pos; lia|].
    split; [reflexivity|].
    split; [|split].
    + intros H. rewrite Hnth by exact H.
      replace (n - (i + 2))%nat with (n - i - 2)%nat by lia.
      rewrite sign_flips_after_two by lia. reflexivity.
    + intros H. rewrite Hnth by exact H.
      replace (n - (i + 4))%nat with (n - i - 2 - 2)%nat by lia.
      rewrite !sign_flips_after_two by lia.
      rewrite Z.opp_involutive. reflexivity.
    + unfold step_mode.
      destruct (Nat.even i) eqn:E.
      * apply Nat.even_spec in E. destruct E as [k ->].
        replace (2 * k + 1)%nat with (1 + k * 2)%nat by lia.
        rewrite Nat.Div0.mod_add. reflexivity.
      * assert (O : Nat.odd i = true)
          by (rewrite <- Nat.negb_even, E; reflexivity).
        apply Nat.odd_spec in O. destruct O as [k ->].
        replace (2 * k + 1 + 1)%nat with (0 + (k + 1) * 2)%nat by lia.
        rewrite Nat.Div0.mod_add. reflexivity.
Qed.

Lemma rotation_direction_period_4_witness :
  let six := map (fun na => mkLens na 1 0) [1; 2; 3; 4; 5; 6]%R in
  exists rd d,
    reverse_lenses six = Ok (rev six, rd) /\
    step_dir rd 1 = Ok d /\ (d = 1 \/ d = -1)%Z /\
    step_dir rd 3 = Ok (- d)%Z /\ step_dir rd 5 = Ok d.
Proof.
  intros six.
  destruct (rotation_direction_period_4 six) as (rd & Hrev & _ & Hdir).
  destruct (Hdir 1%nat) as (d & H1 & H2 & _ & H3 & H4 & _);
    [simpl; lia|].
  exists rd, d.
  split; [exact Hrev|].
  split; [exact H1|].
  split; [exact H2|].
  split; [apply H3; simpl; lia|apply H4; simpl; lia].
Defined.

(** ** [calculate_system_specs] *)

Section SystemSpecsFacts.

Local Open Scope R_scope.

Lemma pydiv_ok (a b : R) : b <> 0 -> pydiv a b = Ok (a / b).
Proof.
  intros Hb. unfold pydiv. destruct (Req_dec_T b 0); [contradiction|].
  reflexivity.
Qed.

Lemma even_index (i : nat) : Nat.eqb (i mod 2) 0 = Nat.even i.
Proof.
  destruct (Nat.even i) eqn:E.
  - apply Nat.even_spec in E. destruct E as [k ->].
    rewrite Nat.mul_comm, Nat.Div0.mod_mul. reflexivity.
  - assert (O : Nat.odd i = true)
      by (rewrite <- Nat.negb_even, E; reflexivity).
    apply Nat.odd_spec in O. destruct O as [k ->].
    replace (2 * k + 1)%nat with (1 + k * 2)%nat by lia.
    rewrite Nat.Div0.mod_add. reflexivity.
Qed.

Lemma evens_cons (A : Type) (x : A) (t : list A) :
  evens (x :: t) = x :: odds t.
Proof. destruct t; reflexivity. Qed.

Lemma odds_cons (A : Type) (x : A) (t : list A) : odds (x :: t) = evens t.
Proof. reflexivity. Qed.

(** The loop multiplies [self.mag] by the NAs met at even indices and
    divides it by those met at odd indices; it touches nothing else. *)
Lemma mag_loop (l : list Lens) :
  forall (i : nat) (s : Microscope) (m : R),
    mag s = Some m ->
    (forall j x, nth_error l j = Some x -> Nat.odd (i + j) = true ->
                 NA x <> 0) ->
    exists s',
      for_enumerate mag_step i l s = (Ok tt, s') /\
      mag s' = Some (if Nat.even i
                     then m * Rprod (map NA (evens l))
                          / Rprod (map NA (odds l))
                     else m * Rprod (map NA (odds l))
                          / Rprod (map NA (evens l))) /\
      lenses s' = lenses s /\ camera s' = camera s /\
      lam_em s' = lam_em s.
Proof.
  induction l as [|x t IH]; intros i s m Hm Hnz.
  - exists s. simpl. unfold ret.
    rewrite Hm. repeat split.
    destruct (Nat.even i); f_equal; unfold Rdiv; rewrite Rinv_1; ring.
  - cbn [for_enumerate]. unfold bind at 1. unfold mag_step at 1.
    unfold bind at 1. unfold attr at 1. rewrite Hm.
    rewrite even_index.
    destruct (Nat.even i) eqn:E.
    + unfold set_mag at 1.
      match goal with |- context [for_enumerate _ _ _ ?s1] =>
        destruct (IH (S i) s1 (m * NA x)) as (s' & H1 & H2 & H3 & H4 & H5)
      end; [reflexivity| |].
      { intros j y Hj Ho. apply (Hnz (S j) y Hj).
        rewrite Nat.add_succ_r. exact Ho. }
      exists s'. split; [exact H1|]. split; [|auto].
      rewrite H2, Nat.even_succ, <- Nat.negb_even, E. simpl negb. cbv iota.
      rewrite evens_cons, odds_cons. simpl map. simpl Rprod.
      f_equal. unfold Rprod. simpl. unfold Rdiv. ring.
    + assert (Hx : NA x <> 0).
      { apply (Hnz 0%nat x); [reflexivity|].
        rewrite Nat.add_0_r, <- Nat.negb_even, E. reflexivity. }
      unfold bind at 1. unfold lift at 1. rewrite (pydiv_ok m Hx).
      unfold set_mag at 1.
      match goal with |- context [for_enumerate _ _ _ ?s1] =>
        destruct (IH (S i) s1 (m / NA x)) as (s' & H1 & H2 & H3 & H4 & H5)
      end; [reflexivity| |].
      { intros j y Hj Ho. apply (Hnz (S j) y Hj).
        rewrite Nat.add_succ_r. exact Ho. }
      exists s'. split; [exact H1|]. split; [|auto].
      rewrite H2, Nat.even_succ, <- Nat.negb_even, E. simpl negb. cbv iota.
      rewrite evens_cons, odds_cons. simpl map.
      f_equal. unfold Rprod. simpl. unfold Rdiv.
      rewrite Rinv_mult. ring.
Qed.

Lemma last_cons (A : Type) (t : list A) :
  forall x d : A, last (x :: t) d = last t x.
Proof.
  induction t as [|z t IH]; intros x d; [reflexivity|].
  change (last (x :: z :: t) d) with (last (z :: t) d).
  rewrite (IH z d), (IH z x). reflexivity.
Qed.

Lemma getitem_last (A : Type) (x : A) (t : list A) :
  PyList.getitem (x :: t) (-1) = Ok (last t x).
Proof.
  change (-1)%Z with (- Z.of_nat 1)%Z.
  rewrite (getitem_from_end (x :: t) x) by (simpl; lia).
  f_equal. simpl length. rewrite Nat.sub_succ, Nat.sub_0_r.
  revert x. induction t as [|y t IH]; intros x; [reflexivity|].
  change (nth (length (y :: t)) (x :: y :: t) x)
    with (nth (length t) (y :: t) x).
  rewrite (nth_indep (y :: t) x y) by (simpl; lia).
  rewrite IH. symmetry. apply last_cons.
Qed.

Lemma bind_ok (St A B : Type) (m : py St A) (k : A -> py St B)
    (s s' : St) (a : A) :
  m s = (Ok a, s') -> bind m k s = k a s'.
Proof. intros H. unfold bind. rewrite H. reflexivity. Qed.

Lemma keeps_bind (A B : Type) (P : Microscope -> Prop)
    (m : py Microscope A) (k : A -> py Microscope B) :
  keeps P m -> (forall a, keeps P (k a)) -> keeps P (bind m k).
Proof.
  intros Hm Hk s Hs. unfold bind.
  specialize (Hm s Hs). destruct (m s) as [[a|e] s1]; simpl in *.
  - apply Hk. exact Hm.
  - exact Hm.
Qed.

Lemma keeps_attr (A : Type) (P : Microscope -> Prop)
    (f : Microscope -> option A) : keeps P (attr f).
Proof. intros s Hs. unfold attr. destruct (f s); exact Hs. Qed.

Lemma keeps_lift (A : Type) (P : Microscope -> Prop) (r : result A) :
  keeps P (lift r).
Proof. intros s Hs. exact Hs. Qed.

(** C3.  For a non-empty lens list whose odd-indexed NAs and whose first
    RI are not zero (a lens has a positive NA and an RI of at least 1),
    [calculate_system_specs] leaves in [self.mag] the product of the NAs of
    the even-indexed lenses divided by the product of the NAs of the
    odd-indexed ones, and in [self.axial_mag] that magnification squared
    times the RI of the last lens divided by the RI of the first; with a
    single lens of RI 1 these are NA and NA squared.  This holds whether or
    not the later assignments of the method raise. *)
Theorem system_specs_magnification
    (self : Microscope) (first : Lens) (rest : list Lens) :
  lenses self = first :: rest ->
  (forall j x, nth_error (lenses self) j = Some x -> Nat.odd j = true ->
               NA x <> 0) ->
  RI first <> 0 ->
  let self' := snd (calculate_system_specs self) in
  let M := Rprod (map NA (evens (lenses self)))
           / Rprod (map NA (odds (lenses self))) in
  mag self' = Some M /\
  axial_mag self' = Some (M ^ 2 * RI (last rest first) / RI first) /\
  (rest = [] -> RI first = 1 ->
   mag self' = Some (NA first) /\ axial_mag self' = Some (NA first ^ 2)).
Proof.
  intros Hl Hnz Hri self' M.
  set (AM := M ^ 2 * RI (last rest first) / RI first).
  assert (Hmain : mag self' = Some M /\ axial_mag self' = Some AM).
  { subst self'. unfold calculate_system_specs.
    erewrite bind_ok by reflexivity.
    erewrite bind_ok by reflexivity.
    erewrite bind_ok by reflexivity.
    cbv beta. cbn [lenses lam_em].
    match goal with |- context [bind (for_enumerate _ _ _) _ ?s1] =>
      destruct (@mag_loop (lenses self) 0%nat s1 1)
        as (s2 & H1 & H2 & H3 & H4 & H5)
    end; [reflexivity|exact Hnz|].
    cbn [Nat.even] in H2. rewrite Rmult_1_l in H2. fold M in H2.
    erewrite bind_ok by exact H1.
    assert (Hm : attr mag s2 = (Ok M, s2))
      by (unfold attr; rewrite H2; reflexivity).
    erewrite bind_ok by exact Hm.
    rewrite Hl, getitem_last.
    erewrite bind_ok by reflexivity.
    change (PyList.getitem (first :: rest) 0) with (Ok first).
    erewrite bind_ok by reflexivity.
    rewrite (pydiv_ok _ Hri).
    erewrite bind_ok by reflexivity.
    fold AM.
    erewrite bind_ok by reflexivity.
    cbv beta.
    match goal with |- context [snd (?c ?s3)] =>
      assert (K : keeps (fun s => mag s = Some M /\ axial_mag s = Some AM)
                        c);
        [|apply (K s3); split; [exact H2|reflexivity]]
    end.
    apply keeps_bind; [apply keeps_attr|intros cam].
    apply keeps_bind; [apply keeps_lift|intros vm].
    apply keeps_bind; [intros s Hs; exact Hs|intros _].
    apply keeps_bind; [apply keeps_lift|intros sc].
    apply keeps_bind; [intros s Hs; exact Hs|intros _].
    apply keeps_bind; [apply keeps_lift|intros fov].
    intros s Hs; exact Hs. }
  split; [apply Hmain|]. split; [apply Hmain|].
  intros -> H1. destruct Hmain as [Hm Ha].
  rewrite Hm, Ha. subst AM M. rewrite Hl. simpl. rewrite H1.
  unfold Rprod. simpl.
  split; f_equal; field.
Qed.

Lemma system_specs_magnification_witness :
  let l1 := mkLens (27 / 20) (7 / 5) 0 in
  let l2 := mkLens (1 / 4) 1 0 in
  let self := mkMicroscope [l1; l2] (488 / 1000) (507 / 1000) None
                           None None None None None None in
  let self' := snd (calculate_system_specs self) in
  mag self' = Some (Rprod [27 / 20] / Rprod [1 / 4]) /\
  axial_mag self' =
    Some ((Rprod [27 / 20] / Rprod [1 / 4]) ^ 2 * 1 / (7 / 5)).
Proof.
  intros l1 l2 self self'.
  assert (Hnz : forall j x, nth_error (lenses self) j = Some x ->
                            Nat.odd j = true -> NA x <> 0).
  { intros [|[|j]] x Hj Ho; simpl in *; try discriminate.
    - injection Hj as <-. simpl. lra.
    - destruct j; discriminate. }
  assert (Hri : RI l1 <> 0) by (simpl; lra).
  destruct (@system_specs_magnification self l1 [l2] eq_refl Hnz Hri)
    as (Hm & Ha & _).
  split; [exact Hm|exact Ha].
Defined.

End SystemSpecsFacts.

(** ** The mask of [light_sheet] *)

Lemma map2_map_same (A B C : Type) (f : B -> A -> C) (g : A -> B)
    (l : list A) :
  map2 f (map g l) l = map (fun x => f (g x) x) l.
Proof. induction l as [|x t IH]; simpl; [|rewrite IH]; reflexivity. Qed.

Lemma nth_error_mapi_from (A B : Type) (f : nat -> A -> B) (l : list A) :
  forall k j,
    nth_error (mapi_from f k l) j = option_map (f (k + j)%nat) (nth_error l j).
Proof.
  induction l as [|x t IH]; intros k [|j]; simpl; try reflexivity.
  - rewrite Nat.add_0_r. reflexivity.
  - rewrite IH, Nat.add_succ_r. reflexivity.
Qed.

Lemma pixel_map (A B : Type) (f : list A -> list B) (g : grid A)
    (i j : nat) :
  pixel (map f g) i j =
  match nth_error g i with
  | Some row => nth_error (f row) j
  | None => None
  end.
Proof.
  unfold pixel. rewrite nth_error_map.
  destruct (nth_error g i); reflexivity.
Qed.

Lemma light_sheet_mask_pixel (theta : grid fval) (ls_opening : R)
    (M i j : nat) :
  pixel (light_sheet_mask theta ls_opening M) i j =
  option_map (mask_value ls_opening M j) (pixel theta i j).
Proof.
  unfold light_sheet_mask, assign_cols_from, assign_cols_before,
    assign_where_gt, ones_like.
  rewrite map2_map_same, !map_map, pixel_map. unfold pixel.
  destruct (nth_error theta i) as [row|]; [|reflexivity].
  rewrite nth_error_mapi_from, nth_error_mapi_from, map2_map_same.
  rewrite nth_error_map. simpl.
  destruct (nth_error row j) as [t|]; [|reflexivity]. simpl.
  unfold mask_value. f_equal.
  destruct (Nat.leb_spec (M + 1) j), (Nat.ltb_spec j M),
    (Nat.eqb_spec j M), (fgt t (Fin ls_opening)); try lia; reflexivity.
Qed.

Lemma masked_field_value (Ei_base : list fval) (m : fval) :
  Forall (fun e => isfinite e = true) Ei_base ->
  m = NaN \/ m = Fin 1 ->
  map (fun e => fmul (fmul (Fin 1) e) m) Ei_base =
  if isnan m then map (fun _ => NaN) Ei_base else Ei_base.
Proof.
  intros Hfin Hm. induction Hfin as [|e l He _ IH].
  - destruct Hm as [-> | ->]; reflexivity.
  - destruct e as [| | |x]; try discriminate.
    destruct Hm as [-> | ->]; simpl in *.
    + rewrite IH. reflexivity.
    + rewrite IH. f_equal. f_equal. ring.
Qed.

(** C4, amended.  The mask of [light_sheet] invalidates exactly the pixels
    whose polar angle exceeds the light-sheet half-angle and the pixels
    whose column is not the central column [M = res//2]; a pixel of the
    central column whose angle does not exceed the half-angle keeps the
    value 1, and the masked aperture field is not-a-number at an
    invalidated pixel and the base polarisation at a kept one. *)
Theorem light_sheet_mask_central_column
    (theta : grid fval) (ls_opening : R) (M i j : nat) (t : fval) :
  pixel theta i j = Some t ->
  exists m,
    pixel (light_sheet_mask theta ls_opening M) i j = Some m /\
    (m = NaN <-> fgt t (Fin ls_opening) = true \/ j <> M) /\
    (m = Fin 1 <-> fgt t (Fin ls_opening) = false /\ j = M) /\
    forall Ei_base,
      Forall (fun e => isfinite e = true) Ei_base ->
      pixel (light_sheet_Ei Ei_base (light_sheet_mask theta ls_opening M)) i j
      = Some (if isnan m then map (fun _ => NaN) Ei_base else Ei_base).
Proof.
  intros Ht.
  assert (Hm : pixel (light_sheet_mask theta ls_opening M) i j =
               Some (mask_value ls_opening M j t))
    by (rewrite light_sheet_mask_pixel, Ht; reflexivity).
  exists (mask_value ls_opening M j t).
  split; [exact Hm|].
  assert (Hcases : mask_value ls_opening M j t = NaN \/
                   mask_value ls_opening M j t = Fin 1)
    by (unfold mask_value;
        destruct (fgt t (Fin ls_opening) || negb (Nat.eqb j M)); auto).
  split; [|split].
  - unfold mask_value.
    destruct (fgt t (Fin ls_opening)), (Nat.eqb_spec j M); simpl;
      split; intros H; auto; try discriminate;
      destruct H as [H|H]; try discriminate; contradiction.
  - unfold mask_value.
    destruct (fgt t (Fin ls_opening)), (Nat.eqb_spec j M); simpl;
      split; intros H; auto; try discriminate;
      destruct H as [H1 H2]; try discriminate; contradiction.
  - intros Ei_base Hfin.
    unfold light_sheet_Ei. rewrite pixel_map.
    unfold pixel in Hm.
    destruct (nth_error (light_sheet_mask theta ls_opening M) i) as [row|];
      [|discriminate].
    rewrite nth_error_map, Hm. simpl.
    rewrite masked_field_value by assumption. reflexivity.
Qed.

(** ** The angles of [light_sheet] on a grid of 3 by 3 pixels *)

Section LightSheetAngles.

Local Open Scope R_scope.

Lemma centred_axis_3 : centred_axis 3 = [-1; 0; 1].
Proof.
  unfold centred_axis. change (Z.to_nat 3) with 3%nat.
  change (3 / 2)%Z with 1%Z. cbn [seq map]. unfold linspace_at.
  change (3 =? 1)%Z with false. cbv iota.
  change (1 - - (1))%Z with 2%Z. change (3 - 1)%Z with 2%Z.
  change (- (1))%Z with (-1)%Z. cbn [INR].
  f_equal; [lra|]. f_equal; [lra|]. f_equal. lra.
Qed.

Lemma sin_5_degrees : 0 < sin (PI / 36) < / 2.
Proof.
  pose proof PI_RGT_0 as H0. pose proof PI_4 as H4.
  split.
  - apply sin_gt_0; lra.
  - apply Rlt_trans with (PI / 36); [apply sin_lt_x; lra|lra].
Qed.

(** At a half-angle of 5 degrees the angle is 0 at the centre, the
    half-angle at the middle of an edge and arcsin(sqrt 2 sin 5) at a
    corner. *)
Lemma light_sheet_theta_3 (x y : R) :
  light_sheet_theta 1 1 (PI / 36) 1 (x, y) =
  np_arcsin (Fin (sin (PI / 36) * sqrt (x ^ 2 + y ^ 2))).
Proof.
  unfold light_sheet_theta. cbn [fst snd np_sin fmul fadd].
  rewrite fdiv_fin by lra. rewrite fdiv_fin by lra.
  rewrite np_sqrt_fin by nra. cbn [fmul]. f_equal. f_equal. field.
Qed.

Lemma light_sheet_angles_3 :
  let ls := PI / 36 in
  let corner := Fin (asin (sin ls * sqrt 2)) in
  light_sheet_angles 1 1 ls 3 =
  [[corner; Fin ls; corner]; [Fin ls; Fin 0; Fin ls];
   [corner; Fin ls; corner]].
Proof.
  intros ls corner.
  pose proof sin_5_degrees as Hs. pose proof sqrt_2_bounds as H2.
  pose proof PI_RGT_0 as H0. pose proof PI_4 as H4.
  assert (Hcorner : forall x y, x ^ 2 + y ^ 2 = 2 ->
            light_sheet_theta 1 1 ls 1 (x, y) = corner).
  { intros x y E. unfold ls. rewrite light_sheet_theta_3, E.
    apply np_arcsin_fin. unfold ls in *.
    assert (0 <= sin (PI / 36) * sqrt 2 <= / 2 * 2)
      by (split; [apply Rmult_le_pos; lra|apply Rmult_le_compat; lra]).
    lra. }
  assert (Hedge : forall x y, x ^ 2 + y ^ 2 = 1 ->
            light_sheet_theta 1 1 ls 1 (x, y) = Fin ls).
  { intros x y E. unfold ls. rewrite light_sheet_theta_3, E.
    rewrite sqrt_1, Rmult_1_r, np_arcsin_fin by lra.
    rewrite asin_sin by lra. reflexivity. }
  assert (Hcentre : light_sheet_theta 1 1 ls 1 (0, 0) = Fin 0).
  { unfold ls. rewrite light_sheet_theta_3.
    replace (0 ^ 2 + 0 ^ 2) with 0 by ring.
    rewrite sqrt_0, Rmult_0_r, np_arcsin_fin by lra.
    rewrite asin_0. reflexivity. }
  unfold light_sheet_angles. rewrite centred_axis_3.
  change (3 / 2)%Z with 1%Z. cbn [meshgrid map].
  rewrite Hcentre.
  rewrite (Hcorner (-1) (-1)), (Hcorner 1 (-1)), (Hcorner (-1) 1),
    (Hcorner 1 1) by ring.
  rewrite (Hedge 0 (-1)), (Hedge (-1) 0), (Hedge 1 0), (Hedge 0 1) by ring.
  reflexivity.
Qed.

End LightSheetAngles.

Lemma light_sheet_mask_central_column_witness :
  let ls := (PI / 36)%R in
  let theta := light_sheet_angles 1 1 ls 3 in
  exists m,
    pixel (light_sheet_mask theta ls 1) 1 1 = Some m /\
    (m = NaN <-> fgt (Fin 0) (Fin ls) = true \/ 1%nat <> 1%nat).
Proof.
  intros ls theta.
  assert (Ht : pixel theta 1 1 = Some (Fin 0)).
  { unfold theta, ls. rewrite light_sheet_angles_3. reflexivity. }
  destruct (@light_sheet_mask_central_column theta ls 1 1 1 (Fin 0) Ht)
    as (m & H1 & H2 & _).
  exists m. split; [exact H1|exact H2].
Defined.

(** C4 as stated fails: on the grid of 3 by 3 pixels of a camera of
    resolution 3, at a half-angle of 5 degrees, the three pixels of the
    middle row are within the half-angle, the central one is kept and both
    its neighbours are invalidated, so the kept pixels are not those of a
    half-plane. *)
Lemma light_sheet_mask_not_half_plane :
  let ls := (PI / 36)%R in
  let theta := light_sheet_angles 1 1 ls 3 in
  pixel theta 1 0 = Some (Fin ls) /\
  pixel theta 1 1 = Some (Fin 0) /\
  pixel theta 1 2 = Some (Fin ls) /\
  fgt (Fin ls) (Fin ls) = false /\
  fgt (Fin 0) (Fin ls) = false /\
  pixel (light_sheet_mask theta ls 1) 1 0 = Some NaN /\
  pixel (light_sheet_mask theta ls 1) 1 1 = Some (Fin 1) /\
  pixel (light_sheet_mask theta ls 1) 1 2 = Some NaN /\
  ~ keeps_half_plane theta ls (light_sheet_mask theta ls 1).
Proof.
  intros ls theta.
  assert (Hpi : (0 < PI)%R) by exact PI_RGT_0.
  assert (Hedge : fgt (Fin ls) (Fin ls) = false)
    by (apply fgt_fin_false; lra).
  assert (Hmid : fgt (Fin 0) (Fin ls) = false)
    by (apply fgt_fin_false; unfold ls; lra).
  assert (T0 : pixel theta 1 0 = Some (Fin ls))
    by (unfold theta, ls; rewrite light_sheet_angles_3; reflexivity).
  assert (T1 : pixel theta 1 1 = Some (Fin 0))
    by (unfold theta, ls; rewrite light_sheet_angles_3; reflexivity).
  assert (T2 : pixel theta 1 2 = Some (Fin ls))
    by (unfold theta, ls; rewrite light_sheet_angles_3; reflexivity).
  assert (H0 : pixel (light_sheet_mask theta ls 1) 1 0 = Some NaN).
  { rewrite light_sheet_mask_pixel, T0. unfold option_map, mask_value.
    rewrite Hedge. reflexivity. }
  assert (H1 : pixel (light_sheet_mask theta ls 1) 1 1 = Some (Fin 1)).
  { rewrite light_sheet_mask_pixel, T1. unfold option_map, mask_value.
    rewrite Hmid. reflexivity. }
  assert (H2 : pixel (light_sheet_mask theta ls 1) 1 2 = Some NaN).
  { rewrite light_sheet_mask_pixel, T2. unfold option_map, mask_value.
    rewrite Hedge. reflexivity. }
  repeat split; try assumption.
  intros (a & b & c & H).
  destruct (H 1 0 (Fin ls) NaN T0 H0)%nat as [Hl _].
  destruct (H 1 2 (Fin ls) NaN T2 H2)%nat as [Hr _].
  destruct (H 1 1 (Fin 0) (Fin 1) T1 H1)%nat as [_ Hc].
  destruct (Hl eq_refl) as [E|Hl']; [rewrite Hedge in E; discriminate|].
  destruct (Hr eq_refl) as [E|Hr']; [rewrite Hedge in E; discriminate|].
  assert (Hin : ~ (a * Z.of_nat 1 + b * Z.of_nat 1 < c)%Z).
  { intros Hlt. assert (E : Fin 1 = NaN) by (apply Hc; right; exact Hlt).
    discriminate. }
  lia.
Qed.

(** ** [make_MTF] *)

Section MakeMTFFacts.

Variable add_noise : volume fval -> R -> R -> R -> volume fval * volume fval.
Variable fftn : volume fval -> volume cval.

Local Open Scope R_scope.

(** C2: what the code does where the claim expects success.  With a
    signal-to-noise ratio of 0 the branch that assigns the local [poisson]
    is skipped, so the next statement reads an unassigned local: the method
    raises and leaves every attribute as it was, no PSF and no MTF volume
    stored.  (A negative padding is refused by [np.pad] even before.) *)
Theorem make_MTF_zero_SNR_raises (self : MTF.attrs) :
  MTF.SNR self = 0 ->
  exists e,
    MTF.make_MTF add_noise fftn self = (Raise e, self) /\
    ((0 <= (MTF.OTF_res self - res (MTF.camera self)) / 2)%Z ->
     e = UnboundLocalError).
Proof.
  intros H0. unfold MTF.make_MTF, bind, get, lift, np_pad.
  destruct (Z.ltb_spec ((MTF.OTF_res self - res (MTF.camera self)) / 2) 0).
  - exists ValueError. split; [reflexivity|lia].
  - destruct (Req_dec_T (MTF.SNR self) 0) as [_|Hne]; [|contradiction].
    exists UnboundLocalError. split; reflexivity.
Qed.

(** With a signal-to-noise ratio other than 0, [product] is reassigned to
    the first volume returned by [add_noise] before the transforms, so
    [MTF_noiseless] and [MTF_readout] are both the centred MTF of that
    volume, and [PSF_readout] is its window. *)
Lemma make_MTF_transforms_first_output
    (self : MTF.attrs) (padded : volume fval) :
  MTF.SNR self <> 0 ->
  np_pad (MTF.eff_PSF self)
         ((MTF.OTF_res self - res (MTF.camera self)) / 2) = Ok padded ->
  let noisy := fst (add_noise padded (MTF.SNR self ^ 2)
                      (offset (MTF.camera self)) (RMS (MTF.camera self))) in
  let self' := snd (MTF.make_MTF add_noise fftn self) in
  MTF.MTF_noiseless self' = Some (MTF.centred_MTF fftn noisy) /\
  MTF.MTF_readout self' = Some (MTF.centred_MTF fftn noisy) /\
  MTF.PSF_readout self' =
    Some (Slice.cube noisy
            ((MTF.OTF_res self - res (MTF.camera self)) / 2)
            ((MTF.OTF_res self - res (MTF.camera self)) / 2
             + res (MTF.camera self))).
Proof.
  intros Hne Hpad noisy self'. subst self' noisy.
  unfold MTF.make_MTF, bind, get, lift. rewrite Hpad.
  destruct (Req_dec_T (MTF.SNR self) 0) as [E|_]; [contradiction|].
  destruct (add_noise padded (MTF.SNR self ^ 2)
              (offset (MTF.camera self)) (RMS (MTF.camera self)))
    as [readout shot].
  cbn [MTF.local ret MTF.set_PSFs MTF.set_MTFs fst].
  unfold pydiv.
  destruct (Req_dec_T (MTF.mag self) 0); [repeat split|].
  cbv beta iota.
  match goal with |- context [Req_dec_T ?x 0] =>
    destruct (Req_dec_T x 0) end; repeat split.
Qed.

(** C1.  [add_noise] is a function of [other_functions], which is not
    part of the source at hand; the spec gives what it returns: the pair of
    the noiseless padded volume and the noisy volume.  Where [add_noise]
    keeps that contract, [make_MTF] run at a signal-to-noise ratio other
    than 0 stores as [MTF_noiseless] the centred MTF of the zero-padded
    effective PSF, a volume in which neither the ratio nor the offset, the
    RMS and the noise drawn occur: a run that differs in them only stores
    the same [MTF_noiseless].  At a ratio of 0, which the spec names the
    noiseless channel, the method stores no [MTF_noiseless] at all: it
    raises where it reads the local [poisson], which the skipped branch
    alone assigns. *)
Theorem make_MTF_noiseless_channel
    (self : MTF.attrs) (padded : volume fval) :
  (forall v snr2 off rms, fst (add_noise v snr2 off rms) = v) ->
  np_pad (MTF.eff_PSF self)
         ((MTF.OTF_res self - res (MTF.camera self)) / 2) = Ok padded ->
  (MTF.SNR self <> 0 ->
   MTF.MTF_noiseless (snd (MTF.make_MTF add_noise fftn self)) =
     Some (MTF.centred_MTF fftn padded) /\
   forall other : MTF.attrs,
     MTF.eff_PSF other = MTF.eff_PSF self ->
     MTF.OTF_res other = MTF.OTF_res self ->
     res (MTF.camera other) = res (MTF.camera self) ->
     MTF.SNR other <> 0 ->
     MTF.MTF_noiseless (snd (MTF.make_MTF add_noise fftn other)) =
     MTF.MTF_noiseless (snd (MTF.make_MTF add_noise fftn self))) /\
  (MTF.SNR self = 0 ->
   MTF.make_MTF add_noise fftn self = (Raise UnboundLocalError, self)).
Proof.
  intros Hcontract Hpad.
  assert (Hrun : forall s : MTF.attrs,
            MTF.SNR s <> 0 ->
            np_pad (MTF.eff_PSF s)
                   ((MTF.OTF_res s - res (MTF.camera s)) / 2) = Ok padded ->
            MTF.MTF_noiseless (snd (MTF.make_MTF add_noise fftn s)) =
            Some (MTF.centred_MTF fftn padded)).
  { intros s Hs Hp.
    destruct (make_MTF_transforms_first_output s Hs Hp) as [H _].
    rewrite H, Hcontract. reflexivity. }
  split.
  - intros Hne. split; [apply Hrun; assumption|].
    intros other He Ho Hr Hs.
    rewrite (Hrun self Hne Hpad). apply Hrun; [exact Hs|].
    rewrite He, Ho, Hr. exact Hpad.
  - intros H0. unfold MTF.make_MTF, bind, get, lift. rewrite Hpad.
    destruct (Req_dec_T (MTF.SNR self) 0) as [_|Hne]; [|contradiction].
    reflexivity.
Qed.

End MakeMTFFacts.

Lemma make_MTF_zero_SNR_raises_witness :
  MTF.make_MTF OneVoxel.mean_noise OneVoxel.dft (OneVoxel.system 0) =
  (Raise UnboundLocalError, OneVoxel.system 0).
Proof.
  destruct (make_MTF_zero_SNR_raises OneVoxel.mean_noise OneVoxel.dft
              (OneVoxel.system 0) eq_refl) as (e & H & He).
  rewrite H. f_equal. f_equal. apply He.
  change (0 <= 0)%Z. lia.
Defined.

Lemma make_MTF_noiseless_channel_witness :
  MTF.MTF_noiseless
    (snd (MTF.make_MTF OneVoxel.mean_noise OneVoxel.dft
            (OneVoxel.system 20))) =
    Some (MTF.centred_MTF OneVoxel.dft [[[Fin 1]]]) /\
  MTF.make_MTF OneVoxel.mean_noise OneVoxel.dft (OneVoxel.system 0) =
    (Raise UnboundLocalError, OneVoxel.system 0).
Proof.
  assert (Hc : forall v snr2 off rms,
            fst (OneVoxel.mean_noise v snr2 off rms) = v)
    by reflexivity.
  assert (H20 : (20 <> 0)%R) by lra.
  split.
  - exact (proj1 (proj1 (@make_MTF_noiseless_channel
                           OneVoxel.mean_noise OneVoxel.dft
                           (OneVoxel.system 20) [[[Fin 1]]] Hc eq_refl)
                        H20)).
  - exact (proj2 (@make_MTF_noiseless_channel
                    OneVoxel.mean_noise OneVoxel.dft
                    (OneVoxel.system 0) [[[Fin 1]]] Hc eq_refl)
                 eq_refl).
Defined.

(** ** [analyze] *)

Section AnalyzeFacts.

Import MTF Analyze.

Local Open Scope R_scope.

Lemma first_le0_from_ok (xx : list fval) :
  forall i c,
    first_le0_from i xx = Ok c ->
    exists k,
      c = (i + k)%nat /\
      (exists x, nth_error xx k = Some x /\ fle x (Fin 0) = true) /\
      (forall k' x', (k' < k)%nat -> nth_error xx k' = Some x' ->
                     fle x' (Fin 0) = false).
Proof.
  induction xx as [|x t IH]; intros i c H; simpl in H; [discriminate|].
  destruct (fle x (Fin 0)) eqn:E.
  - injection H as <-. exists 0%nat.
    split; [lia|]. split; [exists x; auto|]. intros k' x' Hk. lia.
  - destruct (IH _ _ H) as (k & -> & Hx & Hbefore).
    exists (S k). split; [lia|]. split; [exact Hx|].
    intros [|k'] x' Hk Hn; simpl in Hn.
    + injection Hn as <-. exact E.
    + apply (Hbefore k'); [lia|exact Hn].
Qed.

Lemma first_le0_from_none (xx : list fval) :
  forall i,
    (forall x, In x xx -> fle x (Fin 0) = false) ->
    first_le0_from i xx = Raise IndexError.
Proof.
  induction xx as [|x t IH]; intros i H; simpl; [reflexivity|].
  rewrite (H x) by (left; reflexivity).
  apply IH. intros y Hy. apply H. right. exact Hy.
Qed.

Lemma first_le0_from_raise (xx : list fval) :
  forall i e, first_le0_from i xx = Raise e -> e = IndexError.
Proof.
  induction xx as [|x t IH]; intros i e H; simpl in H.
  - injection H as <-. reflexivity.
  - destruct (fle x (Fin 0)); [discriminate|]. apply (IH _ _ H).
Qed.

Lemma resolution_positive (bf : R) (cut : nat) :
  0 < bf -> (1 <= cut)%nat ->
  resolution bf cut = Fin (1 / (bf * INR cut / 1e9)) /\
  0 < 1 / (bf * INR cut / 1e9).
Proof.
  intros Hbf Hcut.
  assert (Hc : 0 < INR cut) by (apply lt_0_INR; lia).
  assert (Hp : 0 < bf * INR cut / 1e9).
  { apply Rdiv_lt_0_compat; [apply Rmult_lt_0_compat; assumption|lra]. }
  split.
  - unfold resolution. cbn [fmul].
    rewrite fdiv_fin by lra. rewrite fdiv_fin by lra. reflexivity.
  - apply Rdiv_lt_0_compat; lra.
Qed.

Lemma resolution_at_zero (bf : R) : resolution bf 0 = PInf.
Proof.
  unfold resolution. cbn [fmul INR].
  rewrite fdiv_fin by lra.
  replace (bf * 0 / 1e9) with 0 by (unfold Rdiv; ring).
  apply fdiv_fin_zero. lra.
Qed.

(** The run of [analyze] once the three profiles are known. *)
Lemma analyze_run
    (self : attrs) (v : volume fval) (bf : R) (m : fval)
    (xx yy zz : list fval) :
  MTF_poisson self = Some v ->
  base_freq self = Some bf ->
  vmax v = Ok m ->
  let poisson := map (map (map (fun x => fsub x (np_sqrt m)))) v in
  let N := (length v / 2)%nat in
  profile_x poisson N = Ok xx ->
  profile_y poisson N = Ok yy ->
  profile_z poisson N = Ok zz ->
  analyze self =
    match first_le0 xx with
    | Raise e => (Raise e, self)
    | Ok cx =>
        match first_le0 yy with
        | Raise e => (Raise e, self)
        | Ok cy =>
            match first_le0 zz with
            | Raise e => (Raise e, self)
            | Ok cz =>
                set_XYZ_res [resolution bf cx; resolution bf cy;
                             resolution bf cz] self
            end
        end
    end.
Proof.
  intros Hv Hbf Hm poisson N Hx Hy Hz.
  unfold analyze, bind, Analyze.attr, lift, above_floor.
  rewrite Hv, Hm. cbn [rbind]. fold poisson. fold N.
  rewrite Hx, Hy, Hz. cbn [rbind].
  destruct (first_le0 xx); [rewrite Hbf|reflexivity].
  destruct (first_le0 yy); [rewrite Hbf|reflexivity].
  destruct (first_le0 zz); [rewrite Hbf|reflexivity].
  reflexivity.
Qed.

(** C7, amended.  [analyze] takes the square root of the largest value of
    [MTF_poisson] off every voxel and reads the three profiles from the
    centre outwards.  A reported cut is the first index of its profile
    whose value is not above 0.  When each profile has such an index the
    method stores the three values 1/(base_freq * cut / 1e9).  Such a
    value is finite and strictly positive when the base frequency is
    positive and the cut is at least 1; at the cut 0 it is the infinity of
    a division by zero.  When a profile has no value at or below 0 the
    method raises [IndexError] and stores nothing. *)
Theorem analyze_resolution
    (self : attrs) (v : volume fval) (bf : R) (m : fval)
    (xx yy zz : list fval) :
  MTF_poisson self = Some v ->
  base_freq self = Some bf ->
  vmax v = Ok m ->
  let poisson := map (map (map (fun x => fsub x (np_sqrt m)))) v in
  let N := (length v / 2)%nat in
  profile_x poisson N = Ok xx ->
  profile_y poisson N = Ok yy ->
  profile_z poisson N = Ok zz ->
  (forall cx cy cz,
     first_le0 xx = Ok cx -> first_le0 yy = Ok cy -> first_le0 zz = Ok cz ->
     analyze self =
       set_XYZ_res [resolution bf cx; resolution bf cy; resolution bf cz]
                   self) /\
  (forall l c,
     first_le0 l = Ok c ->
     (exists x, nth_error l c = Some x /\ fle x (Fin 0) = true) /\
     (forall k x, (k < c)%nat -> nth_error l k = Some x ->
                  fle x (Fin 0) = false)) /\
  (0 < bf ->
   forall cut, (1 <= cut)%nat ->
     exists r, resolution bf cut = Fin r /\ 0 < r /\
               r = 1 / (bf * INR cut / 1e9)) /\
  resolution bf 0 = PInf /\
  ((forall x, In x xx -> fle x (Fin 0) = false) \/
   (forall y, In y yy -> fle y (Fin 0) = false) \/
   (forall z, In z zz -> fle z (Fin 0) = false) ->
   analyze self = (Raise IndexError, self)).
Proof.
  intros Hv Hbf Hm poisson N Hx Hy Hz.
  pose proof (analyze_run self Hv Hbf Hm Hx Hy Hz) as Hrun.
  split; [|split; [|split; [|split]]].
  - intros cx cy cz Hcx Hcy Hcz. rewrite Hrun, Hcx, Hcy, Hcz. reflexivity.
  - intros l c Hc. unfold first_le0 in Hc.
    destruct (first_le0_from_ok _ _ Hc) as (k & -> & H1 & H2).
    split; assumption.
  - intros Hpos cut Hcut.
    destruct (resolution_positive Hpos Hcut) as [H1 H2].
    eexists. split; [exact H1|]. split; [exact H2|reflexivity].
  - apply resolution_at_zero.
  - intros Hnone. rewrite Hrun. unfold first_le0.
    destruct (first_le0_from 0 xx) as [cx|e] eqn:Ex;
      [|rewrite (first_le0_from_raise _ _ Ex); reflexivity].
    destruct (first_le0_from 0 yy) as [cy|e] eqn:Ey;
      [|rewrite (first_le0_from_raise _ _ Ey); reflexivity].
    destruct (first_le0_from 0 zz) as [cz|e] eqn:Ez;
      [|rewrite (first_le0_from_raise _ _ Ez); reflexivity].
    destruct Hnone as [H|[H|H]];
      apply (first_le0_from_none _ 0%nat) in H; congruence.
Qed.

Lemma analyze_resolution_witness :
  let ones := repeat (repeat (Fin 1) 3) 3 in
  let v := [ones; [repeat (Fin 1) 3; [Fin 1; Fin 4; Fin 1]; repeat (Fin 1) 3];
            ones] in
  let self := mkAttrs 3 OneVoxel.cam [] 20 1 None None None (Some v) None
                      (Some 1) None in
  analyze self =
    set_XYZ_res [Fin (1 / (1 * INR 1 / 1e9)); Fin (1 / (1 * INR 1 / 1e9));
                 Fin (1 / (1 * INR 1 / 1e9))] self /\
  0 < 1 / (1 * INR 1 / 1e9).
Proof.
  intros ones v self.
  assert (Hm : vmax v = Ok (Fin 4)).
  { unfold vmax, v, ones. cbn [concat app repeat fold_left].
    repeat first [rewrite fmax2_fin_l by lra | rewrite fmax2_fin_r by lra].
    reflexivity. }
  assert (Hc : first_le0 [fsub (Fin 4) (np_sqrt (Fin 4));
                          fsub (Fin 1) (np_sqrt (Fin 4))] = Ok 1%nat).
  { rewrite np_sqrt_fin, sqrt_4 by lra.
    unfold first_le0. cbn [first_le0_from fsub fadd fneg].
    rewrite fle_fin_false, fle_fin_true by lra. reflexivity. }
  destruct (@analyze_resolution self v 1 (Fin 4) _ _ _
              eq_refl eq_refl Hm eq_refl eq_refl eq_refl)
    as (Hrun & _ & Hpos & _).
  destruct (Hpos Rlt_0_1 1%nat (le_n 1)) as (r & Hr & Hr0 & ->).
  split; [|exact Hr0].
  rewrite <- Hr. apply Hrun; exact Hc.
Defined.

(** C7 as stated fails at the cut 0.  On the MTF whose 27 values are all 1
    (that of a volume holding a single count) every profile starts at
    1 - sqrt 1 = 0, so a crossing exists, at index 0, and the three
    reported values are infinite. *)
Lemma analyze_cut_at_centre_not_finite :
  let v := repeat (repeat (repeat (Fin 1) 3) 3) 3 in
  let self := mkAttrs 3 OneVoxel.cam [] 20 1 None None None (Some v) None
                      (Some 1) None in
  let xx := [fsub (Fin 1) (np_sqrt (Fin 1));
             fsub (Fin 1) (np_sqrt (Fin 1))] in
  vmax v = Ok (Fin 1) /\
  profile_x (map (map (map (fun x => fsub x (np_sqrt (Fin 1))))) v) 1
    = Ok xx /\
  first_le0 xx = Ok 0%nat /\
  analyze self = set_XYZ_res [PInf; PInf; PInf] self /\
  isfinite PInf = false.
Proof.
  intros v self xx.
  assert (Hm : vmax v = Ok (Fin 1)).
  { unfold vmax, v. cbn [concat app repeat fold_left].
    repeat rewrite fmax2_fin_l by lra. reflexivity. }
  assert (Hc : first_le0 xx = Ok 0%nat).
  { unfold xx. rewrite np_sqrt_fin, sqrt_1 by lra.
    unfold first_le0. cbn [first_le0_from fsub fadd fneg].
    rewrite fle_fin_true by lra. reflexivity. }
  split; [exact Hm|]. split; [reflexivity|]. split; [exact Hc|].
  split; [|reflexivity].
  rewrite (@analyze_run self v 1 (Fin 1) xx xx xx
             eq_refl eq_refl Hm eq_refl eq_refl eq_refl).
  rewrite Hc, resolution_at_zero. reflexivity.
Qed.

End AnalyzeFacts.

(** ** The effective PSF *)

Section EffectivePSFFacts.

Local Open Scope R_scope.

Lemma fmul_comm (a b : fval) : fmul a b = fmul b a.
Proof.
  destruct a as [| | |x], b as [| | |y]; try reflexivity.
  - unfold fmul, fsign. rewrite Z.mul_comm. reflexivity.
  - unfold fmul, fsign. rewrite Z.mul_comm. reflexivity.
  - unfold fmul, fsign. rewrite Z.mul_comm. reflexivity.
  - unfold fmul, fsign. rewrite Z.mul_comm. reflexivity.
  - simpl. f_equal. ring.
Qed.

Lemma concat_vmap (A B : Type) (f : A -> B) (v : volume A) :
  concat (concat (vmap f v)) = map f (concat (concat v)).
Proof.
  unfold vmap. rewrite !concat_map. reflexivity.
Qed.

Lemma map2_comm (A B : Type) (f : A -> A -> B) (a b : list A) :
  (forall x y, f x y = f y x) -> map2 f a b = map2 f b a.
Proof.
  intros H. revert b. induction a as [|x a IH]; intros [|y b];
    simpl; try reflexivity.
  rewrite H, IH. reflexivity.
Qed.

Lemma vmap2_fmul_comm (a b : volume fval) :
  vmap2 fmul a b = vmap2 fmul b a.
Proof.
  unfold vmap2. apply map2_comm. intros p q.
  apply map2_comm. intros r t. apply map2_comm. apply fmul_comm.
Qed.

Lemma vmax_raises (a : volume fval) (e : pyexn) :
  vmax a = Raise e -> e = ValueError.
Proof.
  unfold vmax. destruct (concat (concat a)); intros H;
    [injection H as <-; reflexivity|discriminate].
Qed.

Lemma nth_error_map2 (A B C : Type) (f : A -> B -> C)
    (a : list A) (b : list B) (i : nat) (x : A) (y : B) :
  nth_error a i = Some x -> nth_error b i = Some y ->
  nth_error (map2 f a b) i = Some (f x y).
Proof.
  revert b i. induction a as [|x' a IH]; intros [|y' b] [|i] Ha Hb;
    simpl in *; try discriminate.
  - injection Ha as ->. injection Hb as ->. reflexivity.
  - apply IH; assumption.
Qed.

Lemma voxel_vmap (A B : Type) (f : A -> B) (v : volume A) (i j k : nat) :
  voxel (vmap f v) i j k = option_map f (voxel v i j k).
Proof.
  unfold voxel, vmap. rewrite nth_error_map.
  destruct (nth_error v i) as [plane|]; [|reflexivity]. simpl.
  rewrite nth_error_map.
  destruct (nth_error plane j) as [row|]; [|reflexivity]. simpl.
  apply nth_error_map.
Qed.

Lemma voxel_vmap2 (A B C : Type) (f : A -> B -> C)
    (a : volume A) (b : volume B) (i j k : nat) (x : A) (y : B) :
  voxel a i j k = Some x -> voxel b i j k = Some y ->
  voxel (vmap2 f a b) i j k = Some (f x y).
Proof.
  unfold voxel, vmap2. intros Ha Hb.
  destruct (nth_error a i) as [pa|] eqn:Ea; [|discriminate].
  destruct (nth_error b i) as [pb|] eqn:Eb; [|discriminate].
  rewrite (nth_error_map2 _ _ _ _ Ea Eb).
  destruct (nth_error pa j) as [ra|] eqn:Era; [|discriminate].
  destruct (nth_error pb j) as [rb|] eqn:Erb; [|discriminate].
  rewrite (nth_error_map2 _ _ _ _ Era Erb).
  apply nth_error_map2; assumption.
Qed.

Lemma voxel_in (A : Type) (v : volume A) (i j k : nat) (x : A) :
  voxel v i j k = Some x -> In x (concat (concat v)).
Proof.
  unfold voxel. intros H.
  destruct (nth_error v i) as [plane|] eqn:Ei; [|discriminate].
  destruct (nth_error plane j) as [row|] eqn:Ej; [|discriminate].
  apply in_concat. exists row. split; [|eapply nth_error_In; exact H].
  apply in_concat. exists plane.
  split; eapply nth_error_In; eassumption.
Qed.

(** The order that [fmax2] follows. *)
Lemma fgt_irrefl (a : fval) : fgt a a = false.
Proof.
  destruct a as [| | |x]; try reflexivity.
  apply fgt_fin_false. lra.
Qed.

Lemma fgt_below (x a y : fval) :
  fgt x a = false -> fgt y a = true -> fgt x y = false.
Proof.
  destruct x as [| | |x], a as [| | |a], y as [| | |y];
    try reflexivity; try discriminate; cbn [fgt].
  destruct (Rgt_dec x a), (Rgt_dec y a), (Rgt_dec x y);
    try reflexivity; try discriminate. lra.
Qed.

Lemma fold_fmax2_max (t : list fval) :
  forall x seen,
    In x seen -> (forall y, In y seen -> fgt y x = false) ->
    let m := fold_left fmax2 t x in
    In m (seen ++ t) /\ forall y, In y (seen ++ t) -> fgt y m = false.
Proof.
  induction t as [|z t IH]; intros x seen Hin Hmax; cbn [fold_left].
  - rewrite app_nil_r. split; assumption.
  - replace (seen ++ z :: t) with ((seen ++ [z]) ++ t)
      by (rewrite <- app_assoc; reflexivity).
    apply IH.
    + apply in_or_app. unfold fmax2.
      destruct x as [| | |x]; [left; exact Hin| | |];
        (destruct z as [| | |z]; [right; left; reflexivity| | |]);
        match goal with |- context [if ?b then _ else _] =>
          destruct b end;
        ((left; exact Hin) || (right; left; reflexivity)).
    + intros y Hy. apply in_app_or in Hy.
      assert (Hcase : fmax2 x z = NaN \/
                (fgt z x = true /\ fmax2 x z = z) \/
                (fgt z x = false /\ fmax2 x z = x)).
      { unfold fmax2.
        destruct x as [| | |x]; [left; reflexivity| | |];
          (destruct z as [| | |z]; [left; reflexivity| | |]);
          match goal with |- context [if ?b then _ else _] =>
            destruct b eqn:E end; auto. }
      destruct Hcase as [->|[[Hg ->]|[Hg ->]]].
      * destruct y; reflexivity.
      * destruct Hy as [Hy|[<-|[]]]; [|apply fgt_irrefl].
        apply (fgt_below _ _ _ (Hmax y Hy) Hg).
      * destruct Hy as [Hy|[<-|[]]]; [apply Hmax; exact Hy|exact Hg].
Qed.

Lemma vmax_is_max (a : volume fval) (m : fval) :
  vmax a = Ok m ->
  In m (concat (concat a)) /\
  forall x, In x (concat (concat a)) -> fgt x m = false.
Proof.
  unfold vmax. destruct (concat (concat a)) as [|x t]; [discriminate|].
  intros H. injection H as <-.
  apply (@fold_fmax2_max t x [x]).
  - left. reflexivity.
  - intros y [<-|[]]. apply fgt_irrefl.
Qed.

(** C8, amended.  The effective PSF is, voxel by voxel, the detection PSF
    divided by its maximum times the illumination PSF divided by its
    maximum (the maximum being a value of the volume that no value
    exceeds), and exchanging the two arms gives the same volume.  Nothing
    is claimed of an arm multiplied by a constant before the
    normalisation: the products and the quotients are rounded, and the
    volume changes. *)
Theorem effective_PSF_normalised_product (PSF ls_PSF : volume fval) :
  (forall i j k a b,
     voxel PSF i j k = Some a -> voxel ls_PSF i j k = Some b ->
     exists ma mb E,
       vmax PSF = Ok ma /\ vmax ls_PSF = Ok mb /\
       effective_PSF PSF ls_PSF = Ok E /\
       voxel E i j k = Some (fmul (fdiv a ma) (fdiv b mb))) /\
  (forall v m,
     vmax v = Ok m ->
     In m (concat (concat v)) /\
     forall x, In x (concat (concat v)) -> fgt x m = false) /\
  effective_PSF PSF ls_PSF = effective_PSF ls_PSF PSF.
Proof.
  split; [|split].
  - intros i j k a b Ha Hb.
    assert (Hma : exists ma, vmax PSF = Ok ma).
    { unfold vmax. pose proof (voxel_in _ _ _ _ Ha) as Hin.
      destruct (concat (concat PSF)); [destruct Hin|eauto]. }
    assert (Hmb : exists mb, vmax ls_PSF = Ok mb).
    { unfold vmax. pose proof (voxel_in _ _ _ _ Hb) as Hin.
      destruct (concat (concat ls_PSF)); [destruct Hin|eauto]. }
    destruct Hma as [ma Hma], Hmb as [mb Hmb].
    exists ma, mb. eexists.
    split; [exact Hma|]. split; [exact Hmb|].
    unfold effective_PSF, normalise. rewrite Hma, Hmb. cbn [rbind].
    split; [reflexivity|].
    apply voxel_vmap2; rewrite voxel_vmap; [rewrite Ha|rewrite Hb];
      reflexivity.
  - intros v m. apply vmax_is_max.
  - unfold effective_PSF, normalise.
    destruct (vmax PSF) as [ma|ea] eqn:Ea,
             (vmax ls_PSF) as [mb|eb] eqn:Eb; cbn [rbind].
    + f_equal. apply vmap2_fmul_comm.
    + reflexivity.
    + reflexivity.
    + rewrite (vmax_raises _ Ea), (vmax_raises _ Eb). reflexivity.
Qed.

Lemma effective_PSF_normalised_product_witness :
  let A := [[[Fin 1; Fin 2]]] in
  let B := [[[Fin 4; Fin 3]]] in
  effective_PSF A B = effective_PSF B A /\
  exists ma mb E,
    vmax A = Ok ma /\ vmax B = Ok mb /\
    effective_PSF A B = Ok E /\
    voxel E 0 0 1 = Some (fmul (fdiv (Fin 2) ma) (fdiv (Fin 3) mb)).
Proof.
  intros A B.
  destruct (effective_PSF_normalised_product A B) as (Hvox & _ & Hcomm).
  split; [exact Hcomm|].
  exact (Hvox 0%nat 0%nat 1%nat (Fin 2) (Fin 3) eq_refl eq_refl).
Defined.

(** C8 as stated fails on the machine.  In double precision the arm
    [[1, 3]] normalises to [[0.3333333333333333, 1]]; multiplied by the
    positive constant 0.7 it holds [[0.7, 2.0999999999999996]] and
    normalises to [[0.33333333333333337, 1]], so that the effective PSF
    changes; multiplied by 2^1023 its maximum overflows to infinity and the
    effective PSF holds 0 and not-a-number. *)
Lemma effective_PSF_scaling_changes_float64 :
  let A := Float64.one_three in
  let B := Float64.one_one in
  let c := Float64.seven_tenths in
  let big := Float64.huge in
  PrimFloat.ltb PrimFloat.zero c = true /\
  PrimFloat.ltb PrimFloat.zero big = true /\
  Float64.effective_PSF A B
    = Ok [[[Float64.third_below; PrimFloat.one]]] /\
  Float64.effective_PSF (Float64.vscale c A) B
    = Ok [[[Float64.third_above; PrimFloat.one]]] /\
  Float64.effective_PSF (Float64.vscale c A) B
    <> Float64.effective_PSF A B /\
  Float64.effective_PSF (Float64.vscale big A) B
    = Ok [[[PrimFloat.zero; PrimFloat.nan]]] /\
  ~ (forall (s : PrimFloat.float) (PSF ls_PSF : volume PrimFloat.float),
       PrimFloat.ltb PrimFloat.zero s = true ->
       Float64.effective_PSF (Float64.vscale s PSF) ls_PSF
       = Float64.effective_PSF PSF ls_PSF).
Proof.
  intros A B c big.
  assert (H1 : Float64.effective_PSF A B
               = Ok [[[Float64.third_below; PrimFloat.one]]])
    by (vm_compute; reflexivity).
  assert (H2 : Float64.effective_PSF (Float64.vscale c A) B
               = Ok [[[Float64.third_above; PrimFloat.one]]])
    by (vm_compute; reflexivity).
  assert (Hne : Float64.effective_PSF (Float64.vscale c A) B
                <> Float64.effective_PSF A B).
  { rewrite H1, H2. intros H.
    apply (f_equal (fun r => match r with
                             | Ok [[[x; _]]] =>
                                 PrimFloat.eqb x Float64.third_below
                             | _ => true
                             end)) in H.
    vm_compute in H. discriminate. }
  split; [reflexivity|]. split; [reflexivity|].
  split; [exact H1|]. split; [exact H2|]. split; [exact Hne|].
  split; [vm_compute; reflexivity|].
  intros H. apply Hne. apply H. reflexivity.
Qed.

End EffectivePSFFacts.

(** ** Invalid pixels of [field_tracing_reverse] *)

Section NaNFacts.

Lemma fmul_nan_r (a : fval) : fmul a NaN = NaN.
Proof. destruct a; reflexivity. Qed.

Lemma fadd_nan_r (a : fval) : fadd a NaN = NaN.
Proof. destruct a; reflexivity. Qed.

Lemma fdiv_nan_l (b : fval) : fdiv NaN b = NaN.
Proof. reflexivity. Qed.

Lemma fgt_nan_l (b : fval) : fgt NaN b = false.
Proof. reflexivity. Qed.

Lemma fgt_nan_r (a : fval) : fgt a NaN = false.
Proof. destruct a; reflexivity. Qed.

Lemma np_arctan2_nan_r (y : fval) : np_arctan2 y NaN = NaN.
Proof. destruct y; reflexivity. Qed.

Lemma cmul_invalid_r (r z : cval) : invalid z -> cmul r z = (NaN, NaN).
Proof.
  destruct z as [zr zi]. intros [Hr _]. simpl in Hr. subst zr.
  unfold cmul, fsub. cbn [fst snd].
  rewrite !fmul_nan_r, fadd_nan_r. reflexivity.
Qed.

Lemma cdot3_invalid (row E : vec3 cval) :
  (let '(a, b, c) := E in invalid a /\ invalid b /\ invalid c) ->
  cdot3 row E = (NaN, NaN).
Proof.
  destruct row as [[r0 r1] r2], E as [[a b] c]. intros (Ha & Hb & Hc).
  unfold cdot3.
  rewrite (cmul_invalid_r r0 Ha), (cmul_invalid_r r1 Hb),
    (cmul_invalid_r r2 Hc).
  reflexivity.
Qed.

Lemma cabs2_zero : cabs2 (Fin 0, Fin 0) = Fin 0.
Proof.
  unfold cabs2, cabs, fmul.
  replace (0 * 0 + 0 * 0)%R with 0%R by ring.
  rewrite sqrt_0. f_equal. ring.
Qed.

Lemma cnan_to_num_invalid (z : cval) :
  invalid z -> cnan_to_num z = (Fin 0, Fin 0).
Proof.
  destruct z as [zr zi]. intros [Hr [Hi|Hi]]; simpl in *; subst;
    reflexivity.
Qed.

End NaNFacts.

Section TracingFacts.

Variable R_x : R -> mat3 fval.
Variables R_y R_z L_refraction : fval -> mat3 cval.
Variable Fresnel : fval -> fval -> R -> R -> mat3 cval.
Variable inv : mat3 cval -> mat3 cval.
Variable multidot : list (mat3 cval) -> mat3 cval.

Local Open Scope R_scope.

Lemma turned_angles_nan (Rx : mat3 fval) (ph : fval) :
  fst (turned_angles Rx NaN ph) = NaN.
Proof.
  destruct Rx as [[[[a0 a1] a2] [[b0 b1] b2]] [[c0 c1] c2]].
  unfold turned_angles, rotate3, vmap3, dot3. cbn [np_sin np_cos fmul].
  rewrite !fmul_nan_r. cbn [fadd].
  rewrite ?fadd_nan_r. cbn [fst flt fgt]. rewrite ?fgt_nan_r.
  apply np_arctan2_nan_r.
Qed.

(** A lens that follows an invalid pixel leaves it invalid. *)
Lemma collimate_nan (lens : Lens) (tmp : traced) (dir : Z)
    (jones : list (mat3 cval)) (apod : fval) :
  theta tmp = NaN ->
  fst (fst (fst (collimate L_refraction lens tmp dir jones apod))) = NaN.
Proof. intros H. unfold collimate. rewrite H. reflexivity. Qed.

Lemma focus_nan (lens : Lens) (tmp : traced) (dir : Z)
    (jones : list (mat3 cval)) (apod : fval) :
  theta tmp = NaN ->
  fst (fst (fst (focus R_x R_y R_z L_refraction Fresnel inv
                       lens tmp dir jones apod))) = NaN.
Proof.
  intros H. unfold focus. rewrite H.
  destruct (Req_dec_T (rot lens) 0); cbn [negb].
  - destruct (Req_dec_T (rot (t_lens tmp)) 0); cbn [negb].
    + reflexivity.
    + change (np_arcsin (fdiv (scal (RI (t_lens tmp)) (np_sin NaN))
                              (Fin (RI lens)))) with NaN.
      pose proof (turned_angles_nan (R_x (- rot (t_lens tmp))) (phi tmp))
        as Ht.
      destruct (turned_angles (R_x (- rot (t_lens tmp))) NaN (phi tmp))
        as [th ph].
      exact Ht.
  - pose proof (turned_angles_nan (R_x (- rot lens)) (phi tmp)) as Ht.
    destruct (turned_angles (R_x (- rot lens)) NaN (phi tmp)) as [th ph].
    cbn [fst] in *. subst th. reflexivity.
Qed.

Lemma accept_ok (lens : Lens) (th th' : fval) :
  accept lens th = Ok th' ->
  RI lens <> 0 /\
  th' = if fgt th (np_arcsin (Fin (NA lens / RI lens))) then NaN else th.
Proof.
  unfold accept, pydiv.
  destruct (Req_dec_T (RI lens) 0); [discriminate|].
  cbn [rbind]. intros H. injection H as <-. split; [assumption|reflexivity].
Qed.

Let step := trace_step R_x R_y R_z L_refraction Fresnel inv.

Lemma trace_step_ok (k0 del_K : R) (rd : list Z) (RR xx yy : fval)
    (st st' : trace_state) (i : nat) (lens : Lens) :
  step k0 del_K rd RR xx yy (Ok st) (i, lens) = Ok st' ->
  exists th th' ph,
    traced_lenses st' = traced_lenses st ++ [mkTraced lens th th' ph] /\
    accept lens th = Ok th' /\
    (i <> 0%nat ->
     forall tmp, last (map Some (traced_lenses st)) None = Some tmp ->
                 theta tmp = NaN -> th = NaN).
Proof.
  unfold step, trace_step. cbn [rbind].
  destruct (step_dir rd i) as [dir|e]; [cbn [rbind]|discriminate].
  match goal with |- rbind ?b _ = _ -> _ =>
    destruct b as [[[[th ph] jones] apod]|e] eqn:Eb
  end; [cbn [rbind]|discriminate].
  destruct (accept lens th) as [th'|e] eqn:Ea; [cbn [rbind]|discriminate].
  intros H. injection H as <-. cbn [traced_lenses].
  exists th, th', ph. split; [reflexivity|]. split; [exact Ea|].
  intros Hi tmp Htmp Hnan.
  destruct i as [|i]; [contradiction|].
  rewrite Htmp in Eb.
  destruct (step_mode (S i)).
  - pose proof (@collimate_nan lens tmp dir (jones_mat st)
                  (apodization st) Hnan) as Hc.
    assert (E : collimate L_refraction lens tmp dir (jones_mat st)
                  (apodization st) = (th, ph, jones, apod))
      by congruence.
    rewrite E in Hc. exact Hc.
  - pose proof (@focus_nan lens tmp dir (jones_mat st)
                  (apodization st) Hnan) as Hc.
    assert (E : focus R_x R_y R_z L_refraction Fresnel inv lens tmp dir
                  (jones_mat st) (apodization st) = (th, ph, jones, apod))
      by congruence.
    rewrite E in Hc. exact Hc.
Qed.

Lemma trace_fold_raise (k0 del_K : R) (rd : list Z) (RR xx yy : fval)
    (l : list (nat * Lens)) (e : pyexn) :
  fold_left (step k0 del_K rd RR xx yy) l (Raise e) = Raise e.
Proof.
  induction l as [|[i lens] l IH]; [reflexivity|]. cbn [fold_left].
  exact IH.
Qed.

Lemma last_some_snoc (A : Type) (l : list A) (x : A) :
  last (map Some (l ++ [x])) None = Some x.
Proof. rewrite map_app. apply last_last. Qed.

Lemma trace_fold_ok (k0 del_K : R) (rd : list Z) (RR xx yy : fval)
    (l : list Lens) :
  forall (k : nat) (st st' : trace_state),
    fold_left (step k0 del_K rd RR xx yy)
              (combine (seq k (length l)) l) (Ok st) = Ok st' ->
    length (traced_lenses st) = k ->
    trace_invariant (traced_lenses st) ->
    trace_invariant (traced_lenses st') /\
    map t_lens (traced_lenses st') = map t_lens (traced_lenses st) ++ l.
Proof.
  induction l as [|lens l IH]; intros k st st' Hfold Hlen Hinv.
  - injection Hfold as <-. rewrite app_nil_r. split; [exact Hinv|reflexivity].
  - cbn [length seq combine fold_left] in Hfold.
    destruct (step k0 del_K rd RR xx yy (Ok st) (k, lens))
      as [st1|e] eqn:E1;
      [|rewrite trace_fold_raise in Hfold; discriminate].
    apply trace_step_ok in E1.
    destruct E1 as (th & th' & ph & Hdone & Hacc & Hprop).
    destruct (accept_ok _ _ Hacc) as [Hri Hth'].
    destruct (IH (S k) st1 st' Hfold) as [Hinv' Hmap].
    + rewrite Hdone, length_app, Hlen. simpl. lia.
    + rewrite Hdone. destruct Hinv as [Hall Hlast]. split.
      * apply Forall_app. split; [exact Hall|].
        constructor; [|constructor]. split; assumption.
      * intros (t & Hin & Hnan).
        exists (mkTraced lens th th' ph).
        split; [apply last_some_snoc|]. cbn [theta].
        apply in_app_or in Hin. destruct Hin as [Hin|[<-|[]]];
          [|exact Hnan].
        destruct Hlast as (tl & Htl & Htlnan); [eauto|].
        assert (Hk : k <> 0%nat).
        { intros ->. destruct (traced_lenses st); [destruct Hin|].
          discriminate. }
        rewrite (Hprop Hk tl Htl Htlnan) in Hth'.
        rewrite Hth'. reflexivity.
    + split; [exact Hinv'|].
      rewrite Hmap, Hdone, map_app, <- app_assoc. reflexivity.
Qed.

Lemma reverse_lenses_ok (ls : list Lens) :
  reverse_lenses ls =
  Ok (rev ls, direction_after (length ls) (length ls)).
Proof.
  unfold reverse_lenses.
  rewrite reverse_lenses_prefix by apply Nat.le_refl.
  rewrite Nat.sub_diag. reflexivity.
Qed.

Lemma getitem_last_snoc (A : Type) (l : list A) (x : A) :
  PyList.getitem (l ++ [x]) (-1) = Ok x.
Proof.
  change (-1)%Z with (- Z.of_nat 1)%Z.
  rewrite (getitem_from_end (l ++ [x]) x)
    by (rewrite length_app; simpl; lia).
  rewrite length_app. simpl length.
  replace (length l + 1 - 1)%nat with (length l) by lia.
  rewrite app_nth2, Nat.sub_diag by lia. reflexivity.
Qed.

Lemma getitem_last_some (A : Type) (l : list A) (x : A) :
  PyList.getitem l (-1) = Ok x -> last (map Some l) None = Some x.
Proof.
  destruct l as [|a l0]; [intros H; discriminate|].
  destruct (@exists_last _ (a :: l0)) as (l' & y & ->); [discriminate|].
  rewrite getitem_last_snoc. intros H. injection H as <-.
  apply last_some_snoc.
Qed.

(** The run of the method at a pixel, when it returns. *)
Lemma field_tracing_reverse_ok (k0 : R) (M : Z) (ls : list Lens)
    (xx yy : R) (done : list traced) (jones : list (mat3 cval))
    (T : mat3 cval) (apod : fval) :
  field_tracing_reverse R_x R_y R_z L_refraction Fresnel inv multidot
                        k0 M ls xx yy = Ok (done, jones, T, apod) ->
  map t_lens done = rev ls /\ trace_invariant done.
Proof.
  unfold field_tracing_reverse. rewrite reverse_lenses_ok. cbn [rbind].
  destruct (index (rev ls) 0) as [l0|e]; [cbn [rbind]|discriminate].
  destruct (pydiv (k0 * NA l0) (IZR M)) as [del_K|e];
    [cbn [rbind]|discriminate].
  match goal with |- rbind ?f _ = _ -> _ =>
    destruct f as [st|e] eqn:Ef end; [cbn [rbind]|discriminate].
  destruct (PyList.getitem (traced_lenses st) (-1)) as [tl|e];
    [cbn [rbind]|discriminate].
  intros H. injection H as <- _ _ _.
  apply trace_fold_ok in Ef.
  - destruct Ef as [Hinv Hmap]. split; [exact Hmap|exact Hinv].
  - reflexivity.
  - split; [constructor|]. intros (t & [] & _).
Qed.

Lemma accept_total (lens : Lens) (th : fval) :
  RI lens <> 0 -> exists th', accept lens th = Ok th'.
Proof.
  intros H. unfold accept. rewrite (pydiv_ok _ H). cbn [rbind]. eauto.
Qed.

Lemma trace_step_total (k0 del_K : R) (rd : list Z) (RR xx yy : fval)
    (st : trace_state) (i : nat) (lens : Lens) :
  k0 <> 0 -> RI lens <> 0 -> (i < length rd)%nat ->
  length (traced_lenses st) = i ->
  exists st',
    step k0 del_K rd RR xx yy (Ok st) (i, lens) = Ok st' /\
    length (traced_lenses st') = S i.
Proof.
  intros Hk0 Hri Hi Hlen. unfold step, trace_step. cbn [rbind].
  unfold step_dir. rewrite (getitem_from_start rd 0%Z Hi). cbn [rbind].
  assert (Hbranch : exists th ph jones apod,
    match i with
    | 0%nat => enter R_z L_refraction inv k0 del_K lens (nth i rd 0%Z)
                     RR xx yy (apodization st)
    | S _ =>
        match last (map Some (traced_lenses st)) None with
        | Some tmp =>
            match step_mode i with
            | collimating =>
                Ok (collimate L_refraction lens tmp (nth i rd 0%Z)
                              (jones_mat st) (apodization st))
            | focusing =>
                Ok (focus R_x R_y R_z L_refraction Fresnel inv lens tmp
                          (nth i rd 0%Z) (jones_mat st) (apodization st))
            end
        | None => Raise UnboundLocalError
        end
    end = Ok (th, ph, jones, apod)).
  { destruct i as [|i].
    - unfold enter. rewrite pydiv_ok by (apply Rmult_integral_contrapositive; auto).
      cbn [rbind]. eauto.
    - destruct (@exists_last _ (traced_lenses st)) as (l' & tmp & E).
      { intros E. rewrite E in Hlen. discriminate. }
      rewrite E, last_some_snoc.
      destruct (step_mode (S i)).
      + destruct (collimate L_refraction lens tmp (nth (S i) rd 0%Z)
                    (jones_mat st) (apodization st))
          as [[[th ph] jones] apod]. eauto.
      + destruct (focus R_x R_y R_z L_refraction Fresnel inv lens tmp
                    (nth (S i) rd 0%Z) (jones_mat st) (apodization st))
          as [[[th ph] jones] apod]. eauto. }
  destruct Hbranch as (th & ph & jones & apod & ->). cbn [rbind].
  destruct (@accept_total lens th Hri) as [th' ->]. cbn [rbind].
  eexists. split; [reflexivity|]. cbn [traced_lenses].
  rewrite length_app, Hlen. simpl. lia.
Qed.

Lemma trace_fold_total (k0 del_K : R) (rd : list Z) (RR xx yy : fval)
    (l : list Lens) :
  k0 <> 0 -> Forall (fun lens => RI lens <> 0) l ->
  forall (k : nat) (st : trace_state),
    (k + length l <= length rd)%nat ->
    length (traced_lenses st) = k ->
    exists st',
      fold_left (step k0 del_K rd RR xx yy)
                (combine (seq k (length l)) l) (Ok st) = Ok st' /\
      length (traced_lenses st') = (k + length l)%nat.
Proof.
  intros Hk0 Hri. induction Hri as [|lens l Hlens _ IH]; intros k st Hk Hlen.
  - exists st. split; [reflexivity|]. simpl. lia.
  - cbn [length seq combine fold_left].
    destruct (@trace_step_total k0 del_K rd RR xx yy st k lens)
      as (st1 & -> & Hlen1); try assumption.
    { simpl in Hk. lia. }
    destruct (IH (S k) st1) as (st' & Hfold & Hlen'); [simpl in Hk; lia|exact Hlen1|].
    exists st'. split; [exact Hfold|]. rewrite Hlen'. simpl. lia.
Qed.

(** On a system with a lens, a wavenumber, a camera of two pixels or more
    and no refractive index of 0, the method returns at every pixel. *)
Lemma field_tracing_reverse_total (k0 : R) (M : Z) (ls : list Lens)
    (xx yy : R) :
  ls <> [] -> Forall (fun lens => RI lens <> 0) ls ->
  k0 <> 0 -> M <> 0%Z ->
  exists r,
    field_tracing_reverse R_x R_y R_z L_refraction Fresnel inv multidot
                          k0 M ls xx yy = Ok r.
Proof.
  intros Hne Hri Hk0 HM.
  unfold field_tracing_reverse. rewrite reverse_lenses_ok. cbn [rbind].
  assert (Hrev : rev ls <> []).
  { intros E. apply Hne. rewrite <- (rev_involutive ls), E. reflexivity. }
  destruct (rev ls) as [|l0 rest] eqn:Erev; [contradiction|].
  unfold index at 1. cbn [nth_error rbind].
  rewrite pydiv_ok by (apply not_0_IZR; exact HM). cbn [rbind].
  assert (Hri' : Forall (fun lens => RI lens <> 0) (l0 :: rest)).
  { rewrite <- Erev. apply Forall_forall. intros x Hx.
    apply in_rev in Hx. revert x Hx. apply Forall_forall. exact Hri. }
  destruct (@trace_fold_total k0 (k0 * NA l0 / IZR M)
              (direction_after (length ls) (length ls))
              (np_sqrt (fadd (Fin (xx ^ 2)) (Fin (yy ^ 2))))
              (Fin xx) (Fin yy) (l0 :: rest) Hk0 Hri' 0%nat
              (mkTraceState [] [] (Fin 1)))
    as (st & Hfold & Hlen).
  { rewrite direction_after_length, <- Erev, length_rev. simpl. lia. }
  { reflexivity. }
  unfold step in Hfold. rewrite Hfold. cbn [rbind].
  destruct (@exists_last _ (traced_lenses st)) as (l' & tl & E).
  { intros E. rewrite E in Hlen. discriminate. }
  rewrite E, getitem_last_snoc. cbn [rbind]. eauto.
Qed.

Variable E_0 : vec3 R -> fval -> fval -> R -> vec3 cval.

Lemma final_field_invalid (apod : fval) (T : mat3 cval) (Ei : vec3 cval) :
  (let '(a, b, c) := Ei in invalid a /\ invalid b /\ invalid c) ->
  final_field apod T Ei =
  ((Fin 0, Fin 0), (Fin 0, Fin 0), (Fin 0, Fin 0)).
Proof.
  intros H. destruct T as [[r0 r1] r2].
  unfold final_field, apply3, vmap3.
  rewrite !(cdot3_invalid _ _ H).
  assert (Hn : invalid (NaN, NaN)) by (split; [reflexivity|left; reflexivity]).
  rewrite (cmul_invalid_r (of_real apod) Hn). reflexivity.
Qed.

Lemma intensity_terms_invalid (E : vec3 cval) :
  (let '(a, b, c) := E in invalid a /\ invalid b /\ invalid c) ->
  intensity_terms E = (Fin 0, Fin 0, Fin 0).
Proof.
  destruct E as [[a b] c]. intros (Ha & Hb & Hc).
  unfold intensity_terms, vmap3.
  rewrite (cnan_to_num_invalid Ha), (cnan_to_num_invalid Hb),
    (cnan_to_num_invalid Hc), cabs2_zero.
  reflexivity.
Qed.

Lemma intensity_terms_zero :
  intensity_terms ((Fin 0, Fin 0), (Fin 0, Fin 0), (Fin 0, Fin 0)) =
  (Fin 0, Fin 0, Fin 0).
Proof.
  unfold intensity_terms, vmap3, cnan_to_num. cbn [fst snd nan_to_num].
  rewrite cabs2_zero. reflexivity.
Qed.

(** C6.  On a system with a lens, a wavenumber, a camera of two pixels
    or more and no refractive index of 0, [field_tracing_reverse] returns
    at every pixel.  When it returns, the lenses were traced last to
    first, and each lens went through the acceptance test: a pixel whose
    angle exceeds arcsin(NA/RI) of the lens has the angle of that lens set
    to not-a-number.  Such a pixel stays invalid down to the first lens of
    the system, and where [E_0] keeps an invalid position invalid, the
    final field of every dipole is 0 at the pixel and the terms of the
    pixel in the initial and the final intensity are 0; the functions
    that evaluate them are total.  The obliqueness factor of a pixel that
    is invalid at the last lens is 0 too. *)
Theorem invalid_pixels_contribute_zero
    (k0 : R) (M : Z) (ls : list Lens) (xx yy : R) :
  (ls <> [] -> Forall (fun lens => RI lens <> 0) ls ->
   k0 <> 0 -> M <> 0%Z ->
   exists r,
     field_tracing_reverse R_x R_y R_z L_refraction Fresnel inv multidot
                           k0 M ls xx yy = Ok r) /\
  forall done jones T apod,
    field_tracing_reverse R_x R_y R_z L_refraction Fresnel inv multidot
                          k0 M ls xx yy = Ok (done, jones, T, apod) ->
    map t_lens done = rev ls /\
    Forall accepted done /\
    (forall t,
       In t done ->
       fgt (theta_raw t)
           (np_arcsin (Fin (NA (t_lens t) / RI (t_lens t)))) = true ->
       theta t = NaN /\
       forall first_lens,
         PyList.getitem done (-1) = Ok first_lens ->
         theta first_lens = NaN /\
         (E_0_keeps_invalid E_0 ->
          forall pol Ae,
            let Ei := initial_field E_0 pol first_lens Ae in
            let Ef := final_field apod T Ei in
            Ef = ((Fin 0, Fin 0), (Fin 0, Fin 0), (Fin 0, Fin 0)) /\
            intensity_terms Ei = (Fin 0, Fin 0, Fin 0) /\
            intensity_terms Ef = (Fin 0, Fin 0, Fin 0))) /\
    (forall last_lens,
       theta last_lens = NaN ->
       back_aperture_obliqueness last_lens = Fin 0).
Proof.
  split; [apply field_tracing_reverse_total|].
  intros done jones T apod Hrun.
  destruct (field_tracing_reverse_ok _ _ _ _ _ Hrun) as [Hmap [Hall Hlast]].
  split; [exact Hmap|]. split; [exact Hall|]. split.
  - intros t Hin Hgt.
    assert (Hnan : theta t = NaN).
    { pose proof (proj1 (Forall_forall _ _) Hall t Hin) as [_ Ht].
      rewrite Hgt in Ht. exact Ht. }
    split; [exact Hnan|].
    intros first_lens Hfirst.
    destruct Hlast as (tl & Htl & Htlnan); [eauto|].
    rewrite (getitem_last_some _ Hfirst) in Htl. injection Htl as <-.
    split; [exact Htlnan|].
    intros HE pol Ae Ei Ef.
    assert (Hinv : let '(a, b, c) := Ei in
                   invalid a /\ invalid b /\ invalid c).
    { subst Ei. unfold initial_field. rewrite Htlnan. apply HE. }
    assert (HEf : Ef = ((Fin 0, Fin 0), (Fin 0, Fin 0), (Fin 0, Fin 0)))
      by (apply final_field_invalid; exact Hinv).
    split; [exact HEf|]. split.
    + apply intensity_terms_invalid. exact Hinv.
    + rewrite HEf. apply intensity_terms_zero.
  - intros last_lens H. unfold back_aperture_obliqueness. rewrite H.
    reflexivity.
Qed.

End TracingFacts.

(** A system of one lens of NA 1/sqrt 2 in air, seen at the corner pixel
    (1, 1) of a grid of half-width 1: the angle there is pi/2, beyond the
    acceptance angle pi/4. *)
Section SampleTrace.
Local Open Scope R_scope.

Lemma inv_sqrt2_bounds : -1 <= / sqrt 2 <= 1.
Proof.
  assert (H1 : 1 <= sqrt 2).
  { rewrite <- sqrt_1 at 1. apply sqrt_le_1_alt. lra. }
  assert (H2 : 0 < / sqrt 2) by (apply Rinv_0_lt_compat; lra).
  split; [lra|].
  rewrite <- Rinv_1. apply Rinv_le_contravar; lra.
Qed.


Lemma sample_trace :
  let lens := mkLens (/ sqrt 2) 1 0 in
  exists jones apod,
    field_tracing_reverse SampleOptics.R_x SampleOptics.rotation
      SampleOptics.rotation SampleOptics.rotation SampleOptics.Fresnel
      SampleOptics.inv SampleOptics.multidot 1 1 [lens] 1 1 =
    Ok ([mkTraced lens (Fin (PI / 2)) NaN (np_arctan2 (Fin 1) (Fin 1))],
        jones, SampleOptics.id_complex, apod).
Proof.
  intros lens.
  assert (Hs : 0 < sqrt 2) by (apply sqrt_lt_R0; lra).
  assert (Hth : np_arcsin (scal (1 * / sqrt 2 / 1 / (1 * 1))
                  (np_sqrt (fadd (Fin (1 ^ 2)) (Fin (1 ^ 2)))))
                = Fin (PI / 2)).
  { cbn [fadd]. replace (1 ^ 2 + 1 ^ 2) with 2 by ring.
    rewrite np_sqrt_fin by lra. unfold scal. cbn [fmul].
    replace (1 * / sqrt 2 / 1 / (1 * 1) * sqrt 2) with 1 by (field; lra).
    rewrite np_arcsin_fin by lra. rewrite asin_1. reflexivity. }
  assert (Hacc : accept lens (Fin (PI / 2)) = Ok NaN).
  { unfold accept. cbn [NA RI lens]. rewrite pydiv_ok by lra.
    cbn [rbind]. replace (/ sqrt 2 / 1) with (/ sqrt 2) by (field; lra).
    rewrite np_arcsin_fin by apply inv_sqrt2_bounds.
    rewrite asin_inv_sqrt2, fgt_fin_true; [reflexivity|].
    pose proof PI_RGT_0. lra. }
  unfold field_tracing_reverse. rewrite reverse_lenses_ok.
  cbn [rev app length rbind]. unfold index. cbn [nth_error rbind].
  rewrite pydiv_ok by lra. cbn [rbind seq combine fold_left].
  unfold trace_step. cbn [rbind].
  change (step_dir (direction_after 1 1) 0) with (Ok (-1)%Z).
  cbn [rbind traced_lenses map last apodization jones_mat].
  unfold enter. cbn [RI NA lens].
  rewrite pydiv_ok by lra. cbn [rbind].
  rewrite Hth, Hacc. cbn [rbind traced_lenses app].
  change (PyList.getitem
            [mkTraced lens (Fin (PI / 2)) NaN (np_arctan2 (Fin 1) (Fin 1))]
            (-1))
    with (Ok (mkTraced lens (Fin (PI / 2)) NaN (np_arctan2 (Fin 1) (Fin 1)))).
  cbn [rbind]. eexists. eexists. reflexivity.
Qed.

Lemma sample_exceeds :
  fgt (Fin (PI / 2)) (np_arcsin (Fin (/ sqrt 2 / 1))) = true.
Proof.
  assert (Hs : 0 < sqrt 2) by (apply sqrt_lt_R0; lra).
  replace (/ sqrt 2 / 1) with (/ sqrt 2) by (field; lra).
  rewrite np_arcsin_fin by apply inv_sqrt2_bounds.
  rewrite asin_inv_sqrt2. apply fgt_fin_true.
  pose proof PI_RGT_0. lra.
Qed.

Lemma sample_E_0_keeps_invalid : E_0_keeps_invalid SampleOptics.E_0.
Proof.
  intros [[p0 p1] p2] ph Ae. unfold SampleOptics.E_0, vmap3, of_real.
  cbn [np_cos fmul].
  repeat split; cbn [fst snd]; auto.
Qed.

Lemma invalid_pixels_contribute_zero_witness :
  let lens := mkLens (/ sqrt 2) 1 0 in
  let t := mkTraced lens (Fin (PI / 2)) NaN (np_arctan2 (Fin 1) (Fin 1)) in
  exists jones apod,
    field_tracing_reverse SampleOptics.R_x SampleOptics.rotation
      SampleOptics.rotation SampleOptics.rotation SampleOptics.Fresnel
      SampleOptics.inv SampleOptics.multidot 1 1 [lens] 1 1 =
    Ok ([t], jones, SampleOptics.id_complex, apod) /\
    final_field apod SampleOptics.id_complex
                (initial_field SampleOptics.E_0 (1, 0, 0) t 1) =
    ((Fin 0, Fin 0), (Fin 0, Fin 0), (Fin 0, Fin 0)) /\
    intensity_terms (initial_field SampleOptics.E_0 (1, 0, 0) t 1) =
    (Fin 0, Fin 0, Fin 0).
Proof.
  intros lens t.
  destruct sample_trace as (jones & apod & Hrun).
  exists jones, apod. split; [exact Hrun|].
  destruct (@invalid_pixels_contribute_zero
              SampleOptics.R_x SampleOptics.rotation SampleOptics.rotation
              SampleOptics.rotation SampleOptics.Fresnel SampleOptics.inv
              SampleOptics.multidot SampleOptics.E_0 1 1 [lens] 1 1)
    as [_ H].
  destruct (H _ _ _ _ Hrun) as (_ & _ & Hpix & _).
  destruct (Hpix t (or_introl eq_refl) sample_exceeds) as [_ Hfirst].
  destruct (Hfirst t eq_refl) as [_ Hfield].
  destruct (Hfield sample_E_0_keeps_invalid (1, 0, 0) 1) as (HEf & Hi & _).
  split; [exact HEf|exact Hi].
Defined.

End SampleTrace.

(** ** The progress sink of [calculate_PSF] *)

Section ProgressFacts.

Variable GUI_state : Type.
Variable setValue : Z -> GUI_state -> result GUI_state.
Variable terminal : Type.
Variable loadbar : nat -> nat -> terminal -> result terminal.
Variable make_pol : Z -> list R * list R.
Variable collected_field : vec3 R -> fval -> fval.
Variable E_0 : vec3 R -> fval -> fval -> R -> vec3 cval.
Variable dft2_volume :
  grid (vec3 cval) -> grid fval -> list R -> grid fval -> Z -> R ->
  volume fval.
Variable add_noise : volume fval -> R -> R -> R -> volume fval * volume fval.
Variable fftn : volume fval -> volume cval.
Variable save_stacks : volume fval -> MTF.attrs -> result unit.
Variable FWHM_measurement : MTF.attrs -> result (list fval).

(** The terminal bar does not raise. *)
Hypothesis loadbar_returns :
  forall i n t, exists t', loadbar i n t = Ok t'.

Lemma report_returns (i n : nat) (w : sinks GUI_state terminal) :
  exists w', report setValue loadbar i n w = Ok w'.
Proof.
  unfold report.
  destruct (loadbar_returns i n (term w)) as [t' Ht].
  destruct (GUI w) as [g|].
  - destruct (setValue _ g); [eauto|]. rewrite Ht. cbn [rbind]. eauto.
  - rewrite Ht. cbn [rbind]. eauto.
Qed.

Lemma pass_numerical (o : optics) (anisotropy : R) (camera_res : Z)
    (phi theta : list R) (i : nat)
    (st1 st2 : result (ensemble * sinks GUI_state terminal)) :
  numerical st1 = numerical st2 ->
  numerical (pass setValue loadbar collected_field E_0 dft2_volume
                  o anisotropy camera_res phi theta st1 i) =
  numerical (pass setValue loadbar collected_field E_0 dft2_volume
                  o anisotropy camera_res phi theta st2 i).
Proof.
  unfold numerical, pass.
  destruct st1 as [[e1 w1]|x1], st2 as [[e2 w2]|x2]; cbn [rbind fst];
    intros H; try discriminate; [|exact H].
  injection H as ->.
  destruct (report_returns i (length phi) w1) as [w1' ->].
  destruct (report_returns i (length phi) w2) as [w2' ->].
  cbn [rbind].
  destruct (index theta i); [cbn [rbind]|reflexivity].
  destruct (index phi i); [cbn [rbind]|reflexivity].
  destruct (dipole collected_field E_0 dft2_volume o anisotropy
                   camera_res a0 a e2); reflexivity.
Qed.

Lemma loop_numerical (o : optics) (anisotropy : R) (camera_res : Z)
    (phi theta : list R) (l : list nat) :
  forall st1 st2 : result (ensemble * sinks GUI_state terminal),
    numerical st1 = numerical st2 ->
    numerical (fold_left (pass setValue loadbar collected_field E_0
                               dft2_volume o anisotropy camera_res
                               phi theta) l st1) =
    numerical (fold_left (pass setValue loadbar collected_field E_0
                               dft2_volume o anisotropy camera_res
                               phi theta) l st2).
Proof.
  induction l as [|i l IH]; intros st1 st2 H; [exact H|].
  cbn [fold_left]. apply IH. apply pass_numerical. exact H.
Qed.

(** C9.  Provided the terminal bar does not raise, two runs of
    [calculate_PSF] on one configuration, whatever their progress sinks
    (a GUI or [None], in any state), have the same numerical outcome: the
    same accumulated PSF, effective PSF, throughput, MTFs and resolutions,
    or the same exception.  Without a GUI the report of each pass takes
    the terminal bar and returns. *)
Theorem progress_sink_does_not_interfere
    (setup : result optics) (ensamble : Z) (anisotropy : R)
    (cfg : MTF.attrs) (w1 w2 : sinks GUI_state terminal) :
  numerical (calculate_PSF setValue loadbar make_pol collected_field E_0
               dft2_volume add_noise fftn save_stacks FWHM_measurement
               setup ensamble anisotropy cfg w1) =
  numerical (calculate_PSF setValue loadbar make_pol collected_field E_0
               dft2_volume add_noise fftn save_stacks FWHM_measurement
               setup ensamble anisotropy cfg w2) /\
  forall i n t,
    exists t',
      loadbar i n t = Ok t' /\
      report setValue loadbar i n (mkSinks None t) = Ok (mkSinks None t').
Proof.
  split.
  - unfold calculate_PSF.
    destruct setup as [o|e]; [cbn [rbind]|reflexivity].
    destruct (make_pol ensamble) as [phi theta].
    match goal with
    | |- numerical (rbind (fold_left ?f ?l (Ok (?e0, _))) _) = _ =>
        pose proof (@loop_numerical o anisotropy (res (MTF.camera cfg))
                      phi theta l (Ok (e0, w1)) (Ok (e0, w2)) eq_refl)
          as Hloop
    end.
    unfold numerical in *.
    match type of Hloop with
    | rbind ?a _ = rbind ?b _ =>
        destruct a as [[e1 w1']|x1], b as [[e2 w2']|x2]
    end; cbn [rbind fst] in *; try discriminate;
      [|injection Hloop as ->; reflexivity].
    injection Hloop as ->.
    destruct (effective_PSF (PSF e2) (ls_PSF o)); [cbn [rbind]|reflexivity].
    match goal with |- context [MTF.make_MTF ?n ?f ?c] =>
      destruct (MTF.make_MTF n f c) as [[u|x] cfg1] end;
      [cbn [rbind]|reflexivity].
    destruct (save_stacks (PSF e2) cfg1); [cbn [rbind]|reflexivity].
    destruct (Analyze.analyze cfg1) as [[u'|x] cfg2];
      [cbn [rbind]|reflexivity].
    destruct (FWHM_measurement cfg2); reflexivity.
  - intros i n t. destruct (loadbar_returns i n t) as [t' Ht].
    exists t'. split; [exact Ht|].
    unfold report. cbn [GUI term]. rewrite Ht. reflexivity.
Qed.

End ProgressFacts.

Lemma progress_sink_does_not_interfere_witness :
  let run :=
    calculate_PSF SampleRun.setValue SampleRun.loadbar SampleRun.make_pol
                  SampleRun.collected_field SampleOptics.E_0
                  SampleRun.dft2_volume OneVoxel.mean_noise OneVoxel.dft
                  SampleRun.save_stacks SampleRun.FWHM_measurement
                  (Ok SampleRun.setup) 1 0 (OneVoxel.system 20) in
  numerical (run (mkSinks None [])) = numerical (run (mkSinks (Some 0%Z) [])) /\
  report SampleRun.setValue SampleRun.loadbar 0 1 (mkSinks None []) =
  Ok (mkSinks None [(0%nat, 1%nat)]).
Proof.
  intros run.
  assert (Hbar : forall i n t, exists t', SampleRun.loadbar i n t = Ok t')
    by (intros i n t; eexists; reflexivity).
  destruct (@progress_sink_does_not_interfere
              Z SampleRun.setValue (list (nat * nat)) SampleRun.loadbar
              SampleRun.make_pol SampleRun.collected_field SampleOptics.E_0
              SampleRun.dft2_volume OneVoxel.mean_noise OneVoxel.dft
              SampleRun.save_stacks SampleRun.FWHM_measurement Hbar
              (Ok SampleRun.setup) 1 0 (OneVoxel.system 20)
              (mkSinks None []) (mkSinks (Some 0%Z) []))
    as [Hsame Hnone].
  split; [exact Hsame|].
  destruct (Hnone 0%nat 1%nat []) as (t' & Ht & Hreport).
  rewrite Hreport. injection Ht as <-. reflexivity.
Defined.

(** * Further properties *)

(** ** [calculate_system_specs]: failures, results and recomputation *)

Section SystemSpecsMore.

Local Open Scope R_scope.

(** The loop leaves every attribute but [self.mag] as it found it. *)
Lemma mag_loop_exact (l : list Lens) :
  forall (i : nat) (s : Microscope) (m : R),
    mag s = Some m ->
    (forall j x, nth_error l j = Some x -> Nat.odd (i + j) = true ->
                 NA x <> 0) ->
    for_enumerate mag_step i l s =
    set_mag (if Nat.even i
             then m * Rprod (map NA (evens l)) / Rprod (map NA (odds l))
             else m * Rprod (map NA (odds l)) / Rprod (map NA (evens l))) s.
Proof.
  induction l as [|x t IH]; intros i s m Hm Hnz.
  - cbn [for_enumerate]. unfold ret, set_mag.
    destruct s as [a b c d mg f g h k n]. cbn in Hm. subst mg. cbn.
    f_equal. f_equal.
    destruct (Nat.even i); f_equal; unfold Rprod; simpl; field.
  - cbn [for_enumerate]. unfold bind at 1. unfold mag_step at 1.
    unfold bind at 1. unfold attr at 1. rewrite Hm.
    rewrite even_index.
    destruct (Nat.even i) eqn:E.
    + unfold set_mag at 1.
      rewrite (IH (S i) _ (m * NA x)); [|reflexivity|].
      * unfold set_mag. cbn [lenses lam_ex lam_em camera alpha axial_mag
                              z_voxel_size scaling FoV].
        rewrite Nat.even_succ, <- Nat.negb_even, E. cbn [negb].
        rewrite evens_cons, odds_cons. f_equal. f_equal. f_equal.
        unfold Rprod. simpl. unfold Rdiv. ring.
      * intros j y Hj Ho. apply (Hnz (S j) y Hj).
        rewrite Nat.add_succ_r. exact Ho.
    + assert (Hx : NA x <> 0).
      { apply (Hnz 0%nat x); [reflexivity|].
        rewrite Nat.add_0_r, <- Nat.negb_even, E. reflexivity. }
      unfold bind at 1. unfold lift at 1. rewrite (pydiv_ok m Hx).
      unfold set_mag at 1.
      rewrite (IH (S i) _ (m / NA x)); [|reflexivity|].
      * unfold set_mag. cbn [lenses lam_ex lam_em camera alpha axial_mag
                              z_voxel_size scaling FoV].
        rewrite Nat.even_succ, <- Nat.negb_even, E. cbn [negb].
        rewrite evens_cons, odds_cons. f_equal. f_equal. f_equal.
        unfold Rprod. simpl. unfold Rdiv. rewrite Rinv_mult. ring.
      * intros j y Hj Ho. apply (Hnz (S j) y Hj).
        rewrite Nat.add_succ_r. exact Ho.
Qed.

Lemma Rprod_nonzero (l : list R) :
  Forall (fun x => x <> 0) l -> Rprod l <> 0.
Proof.
  induction 1 as [|x l Hx _ IH]; unfold Rprod; simpl; [lra|].
  apply Rmult_integral_contrapositive_currified; assumption.
Qed.

Lemma evens_in (A : Type) (l : list A) :
  forall x, In x (evens l) -> In x l.
Proof.
  assert (H : (forall x, In x (evens l) -> In x l) /\
              (forall a x, In x (evens (a :: l)) -> In x (a :: l))).
  { induction l as [|b t [IH1 IH2]].
    - split; [intros x []|]. intros a x Hx. exact Hx.
    - split; [apply IH2|].
      intros a x Hx. rewrite evens_cons, odds_cons in Hx.
      destruct Hx as [->|Hx]; [left; reflexivity|].
      right. right. apply IH1. exact Hx. }
  exact (proj1 H).
Qed.

Lemma system_mag_nonzero (l : list Lens) :
  Forall (fun lens => NA lens <> 0) l -> system_mag l <> 0.
Proof.
  intros H. unfold system_mag.
  assert (Hall : forall l', (forall x, In x l' -> In x l) ->
            Rprod (map NA l') <> 0).
  { intros l' Hsub. apply Rprod_nonzero. apply Forall_forall.
    intros r Hr. apply in_map_iff in Hr. destruct Hr as (x & <- & Hx).
    apply (proj1 (Forall_forall _ _) H). apply Hsub. exact Hx. }
  unfold Rdiv. apply Rmult_integral_contrapositive_currified.
  - apply Hall. apply evens_in.
  - apply Rinv_neq_0_compat. apply Hall. intros x Hx.
    unfold odds in Hx. apply evens_in in Hx.
    destruct l; [destruct Hx|right; exact Hx].
Qed.

Lemma last_In_cons (A : Type) (y : A) (t : list A) (d : A) :
  In (last (y :: t) d) (y :: t).
Proof.
  revert y. induction t as [|z t IH]; intros y; [left; reflexivity|].
  right. apply IH.
Qed.

(** The run of the method up to the assignment of [self.axial_mag]. *)
Lemma specs_run (self : Microscope) (first : Lens) (rest : list Lens) :
  lenses self = first :: rest ->
  (forall j x, nth_error (lenses self) j = Some x -> Nat.odd j = true ->
               NA x <> 0) ->
  RI first <> 0 ->
  let M := system_mag (lenses self) in
  let al := PI / 2 - fold_right Rplus 0 (map rot (lenses self)) in
  let AM := M ^ 2 * RI (last rest first) / RI first in
  calculate_system_specs self =
  bind (attr camera) (fun cam =>
  bind (lift (pydiv (vox cam) M)) (fun vm =>
  bind (set_z_voxel_size (vm * AM)) (fun _ =>
  bind (lift (pydiv (lam_em self) (2 * vox cam * NA (last rest first))))
       (fun sc =>
  bind (set_scaling sc) (fun _ =>
  bind (lift (pydiv (vox cam * IZR (res cam)) M)) (fun fov =>
  set_FoV fov))))))
    (with_magnifications self M al AM).
Proof.
  intros Hl Hnz Hri M al AM.
  unfold calculate_system_specs.
  erewrite bind_ok by reflexivity.
  erewrite bind_ok by reflexivity.
  erewrite bind_ok by reflexivity.
  cbv beta. cbn [lenses lam_em].
  erewrite bind_ok by (apply (@mag_loop_exact (lenses self) 0%nat _ 1);
                       [reflexivity|exact Hnz]).
  cbn [Nat.even]. rewrite Rmult_1_l. fold (system_mag (lenses self)). fold M.
  erewrite bind_ok by reflexivity.
  rewrite Hl at 1. rewrite getitem_last.
  erewrite bind_ok by reflexivity.
  rewrite Hl at 1.
  change (PyList.getitem (first :: rest) 0) with (Ok first).
  erewrite bind_ok by reflexivity.
  rewrite (pydiv_ok _ Hri). fold AM.
  erewrite bind_ok by reflexivity.
  erewrite bind_ok by reflexivity.
  reflexivity.
Qed.

(** X1.  On a system without lenses the method raises [IndexError] at
    [self.lenses[-1]], after it has set the magnification to 1 and the
    rotation of the sample plane to pi/2; the axial magnification and the
    attributes that need the camera are left as they were. *)
Theorem specs_without_lenses (self : Microscope) :
  lenses self = [] ->
  calculate_system_specs self =
  (Raise IndexError,
   mkMicroscope [] (lam_ex self) (lam_em self) (camera self)
                (Some 1) (Some (PI / 2 - 0)) (axial_mag self)
                (z_voxel_size self) (scaling self) (FoV self)).
Proof.
  intros Hl. unfold calculate_system_specs.
  erewrite bind_ok by reflexivity.
  erewrite bind_ok by reflexivity.
  erewrite bind_ok by reflexivity.
  cbv beta. cbn [lenses lam_em]. rewrite Hl.
  cbn [for_enumerate map fold_right].
  erewrite bind_ok by reflexivity.
  erewrite bind_ok by reflexivity.
  reflexivity.
Qed.

Lemma specs_without_lenses_witness :
  let self := mkMicroscope [] (488 / 1000) (507 / 1000) None
                           None None None None None None in
  fst (calculate_system_specs self) = Raise IndexError /\
  mag (snd (calculate_system_specs self)) = Some 1 /\
  axial_mag (snd (calculate_system_specs self)) = None.
Proof.
  intros self.
  rewrite (@specs_without_lenses self eq_refl).
  repeat split.
Defined.

(** X2.  Without a camera the method raises [AttributeError] at
    [self.camera.vox], before the test [hasattr(self, 'camera')] that
    comes after it: the magnification, the rotation and the axial
    magnification are assigned, the z-voxel size, the scaling and the
    field of view are not. *)
Theorem specs_without_camera
    (self : Microscope) (first : Lens) (rest : list Lens) :
  lenses self = first :: rest ->
  (forall j x, nth_error (lenses self) j = Some x -> Nat.odd j = true ->
               NA x <> 0) ->
  RI first <> 0 ->
  camera self = None ->
  let M := system_mag (lenses self) in
  calculate_system_specs self =
  (Raise AttributeError,
   with_magnifications self M
     (PI / 2 - fold_right Rplus 0 (map rot (lenses self)))
     (M ^ 2 * RI (last rest first) / RI first)).
Proof.
  intros Hl Hnz Hri Hcam M.
  rewrite (specs_run self Hl Hnz Hri).
  unfold bind at 1. unfold attr. cbn [camera with_magnifications].
  rewrite Hcam. reflexivity.
Qed.

Lemma specs_without_camera_witness :
  let l1 := mkLens (27 / 20) (7 / 5) 0 in
  let l2 := mkLens (1 / 4) 1 0 in
  let self := mkMicroscope [l1; l2] (488 / 1000) (507 / 1000) None
                           None None None None None None in
  fst (calculate_system_specs self) = Raise AttributeError /\
  mag (snd (calculate_system_specs self)) = Some (system_mag [l1; l2]) /\
  FoV (snd (calculate_system_specs self)) = None.
Proof.
  intros l1 l2 self.
  assert (Hnz : forall j x, nth_error (lenses self) j = Some x ->
                            Nat.odd j = true -> NA x <> 0).
  { intros [|[|j]] x Hj Ho; simpl in *; try discriminate.
    - injection Hj as <-. simpl. lra.
    - destruct j; discriminate. }
  assert (Hri : RI l1 <> 0) by (simpl; lra).
  rewrite (@specs_without_camera self l1 [l2] eq_refl Hnz Hri eq_refl).
  repeat split.
Defined.

(** The run of the whole method on a system that lets it return. *)
Lemma specs_closed_form
    (self : Microscope) (first : Lens) (rest : list Lens) (cam : Camera) :
  lenses self = first :: rest ->
  Forall (fun lens => NA lens <> 0) (lenses self) ->
  RI first <> 0 ->
  camera self = Some cam ->
  vox cam <> 0 ->
  let M := system_mag (lenses self) in
  let AM := M ^ 2 * RI (last rest first) / RI first in
  M <> 0 /\
  calculate_system_specs self =
  (Ok tt,
   mkMicroscope (lenses self) (lam_ex self) (lam_em self) (Some cam)
     (Some M)
     (Some (PI / 2 - fold_right Rplus 0 (map rot (lenses self))))
     (Some AM)
     (Some (vox cam / M * AM))
     (Some (lam_em self / (2 * vox cam * NA (last rest first))))
     (Some (vox cam * IZR (res cam) / M))).
Proof.
  intros Hl Hna Hri Hcam Hvox M AM.
  assert (Hnz : forall j x, nth_error (lenses self) j = Some x ->
                            Nat.odd j = true -> NA x <> 0).
  { intros j x Hj _. apply nth_error_In in Hj.
    revert x Hj. apply Forall_forall. exact Hna. }
  assert (HM : M <> 0).
  { unfold M. apply system_mag_nonzero. exact Hna. }
  assert (Hlast : NA (last rest first) <> 0).
  { assert (Hin : In (last rest first) (lenses self)).
    { rewrite Hl. destruct rest as [|y t]; [left; reflexivity|].
      right. apply (@last_In_cons _ y t first). }
    exact (proj1 (Forall_forall _ _) Hna _ Hin). }
  split; [exact HM|].
  rewrite (specs_run self Hl Hnz Hri). fold M. fold AM.
  unfold bind at 1. unfold attr. cbn [camera with_magnifications].
  rewrite Hcam.
  rewrite (pydiv_ok (vox cam) HM).
  erewrite bind_ok by reflexivity.
  erewrite bind_ok by reflexivity.
  rewrite (@pydiv_ok (lam_em self) (2 * vox cam * NA (last rest first)))
    by (repeat apply Rmult_integral_contrapositive_currified;
        (lra || assumption)).
  erewrite bind_ok by reflexivity.
  erewrite bind_ok by reflexivity.
  rewrite (pydiv_ok (vox cam * IZR (res cam)) HM).
  erewrite bind_ok by reflexivity.
  unfold set_FoV, with_magnifications.
  cbn [lenses lam_ex lam_em camera mag alpha axial_mag z_voxel_size scaling
       FoV].
  rewrite Hcam. reflexivity.
Qed.

(** X3.  With a camera of non-zero pitch and lenses whose NAs and whose
    first RI are not zero, the method returns and every derived attribute
    has its closed form: the z-voxel size is the pitch divided by the
    magnification times the axial magnification, the scaling is the
    emission wavelength over twice the pitch times the last NA, and the
    field of view is pitch times resolution over the magnification. *)
Theorem specs_with_camera
    (self : Microscope) (first : Lens) (rest : list Lens) (cam : Camera) :
  lenses self = first :: rest ->
  Forall (fun lens => NA lens <> 0) (lenses self) ->
  RI first <> 0 ->
  camera self = Some cam ->
  vox cam <> 0 ->
  let M := system_mag (lenses self) in
  let AM := M ^ 2 * RI (last rest first) / RI first in
  M <> 0 /\
  calculate_system_specs self =
  (Ok tt,
   mkMicroscope (lenses self) (lam_ex self) (lam_em self) (Some cam)
     (Some M)
     (Some (PI / 2 - fold_right Rplus 0 (map rot (lenses self))))
     (Some AM)
     (Some (vox cam / M * AM))
     (Some (lam_em self / (2 * vox cam * NA (last rest first))))
     (Some (vox cam * IZR (res cam) / M))).
Proof. exact (@specs_closed_form self first rest cam). Qed.

(** The loop reads and writes [self.mag] only: its outcome and the
    magnification it leaves are the same whatever the other attributes. *)
Lemma mag_loop_footprint (l : list Lens) :
  forall (i : nat) (m : R),
  exists (r : result unit) (m' : R),
    forall s, mag s = Some m ->
      for_enumerate mag_step i l s = (r, snd (set_mag m' s)).
Proof.
  induction l as [|x t IH]; intros i m.
  - exists (Ok tt), m. intros s Hm. cbn [for_enumerate]. unfold ret, set_mag.
    destruct s as [a b c d mg f g h k n]. cbn in Hm. subst mg. reflexivity.
  - destruct (Nat.eqb (i mod 2) 0) eqn:E.
    + destruct (IH (S i) (m * NA x)) as (r & m' & H).
      exists r, m'. intros s Hm.
      cbn [for_enumerate]. unfold bind at 1. unfold mag_step at 1.
      unfold bind at 1. unfold attr at 1. rewrite Hm, E.
      unfold set_mag at 1. rewrite H by reflexivity. reflexivity.
    + destruct (Req_dec_T (NA x) 0) as [Hz|Hz].
      * exists (Raise ZeroDivisionError), m. intros s Hm.
        cbn [for_enumerate]. unfold bind at 1. unfold mag_step at 1.
        unfold bind at 1. unfold attr at 1. rewrite Hm, E.
        unfold bind, lift, pydiv.
        destruct (Req_dec_T (NA x) 0); [|contradiction].
        unfold set_mag.
        destruct s as [a b c d mg f g h k n]. cbn in Hm. subst mg.
        reflexivity.
      * destruct (IH (S i) (m / NA x)) as (r & m' & H).
        exists r, m'. intros s Hm.
        cbn [for_enumerate]. unfold bind at 1. unfold mag_step at 1.
        unfold bind at 1. unfold attr at 1. rewrite Hm, E.
        unfold bind at 1. unfold lift at 1. rewrite (pydiv_ok m Hz).
        unfold set_mag at 1. rewrite H by reflexivity. reflexivity.
Qed.

Lemma bind_raise (St A B : Type) (m : py St A) (k : A -> py St B)
    (s s' : St) (e : pyexn) :
  m s = (Raise e, s') -> bind m k s = (Raise e, s').
Proof. intros H. unfold bind. rewrite H. reflexivity. Qed.

(** The whole method: its outcome and the values it assigns are fixed by the
    lenses, the wavelengths and the camera; an attribute it does not reach
    keeps its old value; and when it returns, all six are assigned. *)
Lemma specs_footprint (l : list Lens) (ex em : R) (cam : option Camera) :
  exists (r : result unit) (mg' al' am' z' sc' fv' : option R),
    (forall mg al am z sc fv,
       calculate_system_specs (mkMicroscope l ex em cam mg al am z sc fv) =
       (r, mkMicroscope l ex em cam
             (assigned mg' mg) (assigned al' al) (assigned am' am)
             (assigned z' z) (assigned sc' sc) (assigned fv' fv))) /\
    (r = Ok tt ->
     mg' <> None /\ al' <> None /\ am' <> None /\
     z' <> None /\ sc' <> None /\ fv' <> None).
Proof.
  set (a0 := PI / 2 - fold_right Rplus 0 (map rot l)).
  destruct (mag_loop_footprint l 0%nat 1) as (r & m & Hloop).
  assert (Hpre : forall mg al am z sc fv,
    calculate_system_specs (mkMicroscope l ex em cam mg al am z sc fv) =
    bind (for_enumerate mag_step 0 l) (fun _ =>
    bind (attr mag) (fun m0 =>
    bind (lift (PyList.getitem l (-1))) (fun last =>
    bind (lift (PyList.getitem l 0)) (fun first =>
    bind (lift (pydiv (m0 ^ 2 * RI last) (RI first))) (fun am0 =>
    bind (set_axial_mag am0) (fun _ =>
    bind (attr camera) (fun c =>
    bind (lift (pydiv (vox c) m0)) (fun vm =>
    bind (set_z_voxel_size (vm * am0)) (fun _ =>
    bind (lift (pydiv em (2 * vox c * NA last))) (fun sc0 =>
    bind (set_scaling sc0) (fun _ =>
    bind (lift (pydiv (vox c * IZR (res c)) m0)) (fun fov =>
    set_FoV fov))))))))))))
      (mkMicroscope l ex em cam (Some 1) (Some a0) am z sc fv)).
  { intros. unfold calculate_system_specs.
    erewrite bind_ok by reflexivity.
    erewrite bind_ok by reflexivity.
    erewrite bind_ok by reflexivity.
    reflexivity. }
  destruct r as [[]|e].
  2:{ exists (Raise e), (Some m), (Some a0), None, None, None, None.
      split; [|discriminate].
      intros. rewrite (Hpre mg al am z sc fv).
      erewrite bind_raise by (apply Hloop; reflexivity). reflexivity. }
  assert (Hrun : forall mg al am z sc fv,
    calculate_system_specs (mkMicroscope l ex em cam mg al am z sc fv) =
    bind (lift (PyList.getitem l (-1))) (fun last =>
    bind (lift (PyList.getitem l 0)) (fun first =>
    bind (lift (pydiv (m ^ 2 * RI last) (RI first))) (fun am0 =>
    bind (set_axial_mag am0) (fun _ =>
    bind (attr camera) (fun c =>
    bind (lift (pydiv (vox c) m)) (fun vm =>
    bind (set_z_voxel_size (vm * am0)) (fun _ =>
    bind (lift (pydiv em (2 * vox c * NA last))) (fun sc0 =>
    bind (set_scaling sc0) (fun _ =>
    bind (lift (pydiv (vox c * IZR (res c)) m)) (fun fov =>
    set_FoV fov))))))))))
      (mkMicroscope l ex em cam (Some m) (Some a0) am z sc fv)).
  { intros. rewrite (Hpre mg al am z sc fv).
    erewrite bind_ok by (apply Hloop; reflexivity).
    erewrite bind_ok by reflexivity. reflexivity. }
  clear Hpre Hloop.
  destruct l as [|first rest].
  { exists (Raise IndexError), (Some m), (Some a0), None, None, None, None.
    split; [|discriminate].
    intros. rewrite (Hrun mg al am z sc fv). reflexivity. }
  assert (Hrun' : forall mg al am z sc fv,
    calculate_system_specs
      (mkMicroscope (first :: rest) ex em cam mg al am z sc fv) =
    bind (lift (pydiv (m ^ 2 * RI (last rest first)) (RI first))) (fun am0 =>
    bind (set_axial_mag am0) (fun _ =>
    bind (attr camera) (fun c =>
    bind (lift (pydiv (vox c) m)) (fun vm =>
    bind (set_z_voxel_size (vm * am0)) (fun _ =>
    bind (lift (pydiv em (2 * vox c * NA (last rest first)))) (fun sc0 =>
    bind (set_scaling sc0) (fun _ =>
    bind (lift (pydiv (vox c * IZR (res c)) m)) (fun fov =>
    set_FoV fov))))))))
      (mkMicroscope (first :: rest) ex em cam (Some m) (Some a0) am z sc fv)).
  { intros. rewrite (Hrun mg al am z sc fv).
    rewrite getitem_last.
    erewrite bind_ok by reflexivity.
    change (PyList.getitem (first :: rest) 0) with (Ok first).
    erewrite bind_ok by reflexivity. reflexivity. }
  clear Hrun.
  set (lst := last rest first) in *.
  unfold pydiv in Hrun'.
  destruct (Req_dec_T (RI first) 0) as [Hri|Hri].
  { exists (Raise ZeroDivisionError), (Some m), (Some a0),
      None, None, None, None.
    split; [|discriminate].
    intros. rewrite (Hrun' mg al am z sc fv). reflexivity. }
  set (AM := m ^ 2 * RI lst / RI first) in *.
  destruct cam as [c|].
  2:{ exists (Raise AttributeError), (Some m), (Some a0), (Some AM),
        None, None, None.
      split; [|discriminate].
      intros. rewrite (Hrun' mg al am z sc fv).
      reflexivity. }
  unfold bind, lift, set_axial_mag, attr, set_z_voxel_size, set_scaling,
    set_FoV in Hrun'.
  cbn [camera lenses lam_ex lam_em mag alpha axial_mag z_voxel_size scaling
       FoV] in Hrun'.
  destruct (Req_dec_T m 0) as [Hm|Hm].
  { exists (Raise ZeroDivisionError), (Some m), (Some a0), (Some AM),
      None, None, None.
    split; [|discriminate].
    intros. rewrite (Hrun' mg al am z sc fv). reflexivity. }
  destruct (Req_dec_T (2 * vox c * NA lst) 0) as [Hs|Hs].
  { exists (Raise ZeroDivisionError), (Some m), (Some a0), (Some AM),
      (Some (vox c / m * AM)), None, None.
    split; [|discriminate].
    intros. rewrite (Hrun' mg al am z sc fv). reflexivity. }
  exists (Ok tt), (Some m), (Some a0), (Some AM),
    (Some (vox c / m * AM)), (Some (em / (2 * vox c * NA lst))),
    (Some (vox c * IZR (res c) / m)).
  split; [|intros _; repeat split; discriminate].
  intros. rewrite (Hrun' mg al am z sc fv). reflexivity.
Qed.

(** X4.  Running the method a second time changes nothing: it returns or
    raises as the first run did and leaves the same attributes, also when
    the first run stopped half-way on an exception. *)
Theorem specs_rerun (self : Microscope) :
  calculate_system_specs (snd (calculate_system_specs self)) =
  calculate_system_specs self.
Proof.
  destruct self as [l ex em cam mg al am z sc fv].
  destruct (specs_footprint l ex em cam)
    as (r & mg' & al' & am' & z' & sc' & fv' & H & _).
  rewrite (H mg al am z sc fv). cbn [snd]. rewrite H.
  destruct mg', al', am', z', sc', fv'; reflexivity.
Qed.

(** X5.  Values left in the derived attributes by an earlier configuration
    do not leak into the result: two microscopes with the same lenses,
    wavelengths and camera get the same outcome, and when the method
    returns they end with the same attributes. *)
Theorem specs_ignore_stale_attributes (s1 s2 : Microscope) :
  lenses s1 = lenses s2 -> lam_ex s1 = lam_ex s2 ->
  lam_em s1 = lam_em s2 -> camera s1 = camera s2 ->
  fst (calculate_system_specs s1) = fst (calculate_system_specs s2) /\
  (fst (calculate_system_specs s1) = Ok tt ->
   snd (calculate_system_specs s1) = snd (calculate_system_specs s2)).
Proof.
  destruct s1 as [l ex em cam mg al am z sc fv].
  destruct s2 as [l2 ex2 em2 cam2 mg2 al2 am2 z2 sc2 fv2].
  cbn [lenses lam_ex lam_em camera]. intros <- <- <- <-.
  destruct (specs_footprint l ex em cam)
    as (r & mg' & al' & am' & z' & sc' & fv' & H & Hok).
  rewrite (H mg al am z sc fv), (H mg2 al2 am2 z2 sc2 fv2). cbn [fst snd].
  split; [reflexivity|]. intros Hr.
  destruct (Hok Hr) as (H1 & H2 & H3 & H4 & H5 & H6).
  destruct mg', al', am', z', sc', fv'; try contradiction; reflexivity.
Qed.

Lemma specs_with_camera_witness :
  let l1 := mkLens (27 / 20) (7 / 5) 0 in
  let l2 := mkLens (1 / 4) 1 0 in
  let cam := mkCamera 128 (13 / 2) 100 2 in
  let self := mkMicroscope [l1; l2] (488 / 1000) (507 / 1000) (Some cam)
                           None None None None None None in
  fst (calculate_system_specs self) = Ok tt /\
  FoV (snd (calculate_system_specs self)) =
    Some (13 / 2 * 128 / system_mag [l1; l2]).
Proof.
  intros l1 l2 cam self.
  assert (Hna : Forall (fun lens => NA lens <> 0) (lenses self)).
  { repeat constructor; simpl; lra. }
  assert (Hri : RI l1 <> 0) by (simpl; lra).
  assert (Hvox : vox cam <> 0) by (simpl; lra).
  destruct (@specs_with_camera self l1 [l2] cam eq_refl Hna Hri eq_refl Hvox)
    as [_ H].
  rewrite H. split; reflexivity.
Defined.

Lemma specs_ignore_stale_attributes_witness :
  let l1 := mkLens (27 / 20) (7 / 5) 0 in
  let fresh := mkMicroscope [l1] (488 / 1000) (507 / 1000) None
                            None None None None None None in
  let stale := mkMicroscope [l1] (488 / 1000) (507 / 1000) None
                            (Some 56) (Some 0) (Some 2240) (Some 1) (Some 1)
                            (Some 1) in
  fst (calculate_system_specs fresh) = fst (calculate_system_specs stale).
Proof.
  intros l1 fresh stale.
  exact (proj1 (@specs_ignore_stale_attributes fresh stale
                  eq_refl eq_refl eq_refl eq_refl)).
Defined.

(** The magnification is assigned by the loop and by nothing after it. *)
Lemma specs_mag (self : Microscope) :
  (forall j x, nth_error (lenses self) j = Some x -> Nat.odd j = true ->
               NA x <> 0) ->
  mag (snd (calculate_system_specs self)) = Some (system_mag (lenses self)).
Proof.
  intros Hnz. unfold calculate_system_specs.
  erewrite bind_ok by reflexivity.
  erewrite bind_ok by reflexivity.
  erewrite bind_ok by reflexivity.
  cbv beta. cbn [lenses lam_em].
  erewrite bind_ok by (apply (@mag_loop_exact (lenses self) 0%nat _ 1);
                       [reflexivity|exact Hnz]).
  cbn [Nat.even]. rewrite Rmult_1_l. fold (system_mag (lenses self)).
  match goal with |- mag (snd (?c ?s3)) = Some ?M =>
    assert (K : keeps (fun s => mag s = Some M) c);
      [|apply (K s3); reflexivity]
  end.
  apply keeps_bind; [apply keeps_attr|intros m].
  apply keeps_bind; [apply keeps_lift|intros lst].
  apply keeps_bind; [apply keeps_lift|intros fst0].
  apply keeps_bind; [apply keeps_lift|intros am].
  apply keeps_bind; [intros s Hs; exact Hs|intros _].
  apply keeps_bind; [apply keeps_attr|intros cam].
  apply keeps_bind; [apply keeps_lift|intros vm].
  apply keeps_bind; [intros s Hs; exact Hs|intros _].
  apply keeps_bind; [apply keeps_lift|intros sc].
  apply keeps_bind; [intros s Hs; exact Hs|intros _].
  apply keeps_bind; [apply keeps_lift|intros fov].
  intros s Hs; exact Hs.
Qed.

Lemma Rprod_app (a b : list R) : Rprod (a ++ b) = Rprod a * Rprod b.
Proof.
  induction a as [|x a IH]; unfold Rprod in *; simpl; [ring|].
  rewrite IH. ring.
Qed.

Lemma evens_app (A : Type) (l1 l2 : list A) :
  evens (l1 ++ l2) =
  evens l1 ++ (if Nat.even (length l1) then evens l2 else odds l2) /\
  odds (l1 ++ l2) =
  odds l1 ++ (if Nat.even (length l1) then odds l2 else evens l2).
Proof.
  induction l1 as [|x t [IHe IHo]].
  - split; reflexivity.
  - change ((x :: t) ++ l2) with (x :: (t ++ l2)).
    rewrite !evens_cons, !odds_cons, IHe, IHo.
    cbn [length]. rewrite Nat.even_succ, <- Nat.negb_even.
    destruct (Nat.even (length t)); split; reflexivity.
Qed.

Lemma system_mag_app (l1 l2 : list Lens) :
  system_mag (l1 ++ l2) =
  if Nat.even (length l1) then system_mag l1 * system_mag l2
  else system_mag l1 / system_mag l2.
Proof.
  unfold system_mag.
  destruct (evens_app l1 l2) as [He Ho]. rewrite He, Ho.
  rewrite !map_app, !Rprod_app.
  destruct (Nat.even (length l1)); unfold Rdiv.
  - rewrite Rinv_mult. ring.
  - rewrite !Rinv_mult, Rinv_inv. ring.
Qed.

(** X6.  Magnifications compose: for a system whose lens list is that of
    one system followed by that of another, the magnification is the
    product of the two magnifications when the first system has an even
    number of lenses, and their quotient when it has an odd number. *)
Theorem magnification_of_joined_systems (s1 s2 s12 : Microscope) :
  lenses s12 = lenses s1 ++ lenses s2 ->
  Forall (fun lens => NA lens <> 0) (lenses s12) ->
  exists m1 m2 : R,
    mag (snd (calculate_system_specs s1)) = Some m1 /\
    mag (snd (calculate_system_specs s2)) = Some m2 /\
    mag (snd (calculate_system_specs s12)) =
      Some (if Nat.even (length (lenses s1)) then m1 * m2 else m1 / m2).
Proof.
  intros Hl Hna.
  assert (Hsub : forall s l, Forall (fun lens => NA lens <> 0) l ->
            lenses s = l ->
            forall j x, nth_error (lenses s) j = Some x ->
                        Nat.odd j = true -> NA x <> 0).
  { intros s l Hf <- j x Hj _. apply nth_error_In in Hj.
    exact (proj1 (Forall_forall _ _) Hf _ Hj). }
  rewrite Hl in Hna. apply Forall_app in Hna. destruct Hna as [H1 H2].
  exists (system_mag (lenses s1)), (system_mag (lenses s2)).
  split; [apply specs_mag; apply (Hsub s1 _ H1 eq_refl)|].
  split; [apply specs_mag; apply (Hsub s2 _ H2 eq_refl)|].
  rewrite specs_mag.
  - rewrite Hl, system_mag_app. reflexivity.
  - apply (Hsub s12 (lenses s1 ++ lenses s2)); [|exact Hl].
    apply Forall_app. split; assumption.
Qed.

Lemma magnification_of_joined_systems_witness :
  let a := mkLens (27 / 20) (7 / 5) 0 in
  let b := mkLens (1 / 4) 1 0 in
  let c := mkLens (19 / 20) 1 0 in
  let sys l := mkMicroscope l (488 / 1000) (507 / 1000) None
                            None None None None None None in
  exists m1 m2 : R,
    mag (snd (calculate_system_specs (sys [a; b]))) = Some m1 /\
    mag (snd (calculate_system_specs (sys [c]))) = Some m2 /\
    mag (snd (calculate_system_specs (sys [a; b; c]))) = Some (m1 * m2).
Proof.
  intros a b c sys.
  assert (Hna : Forall (fun lens => NA lens <> 0) (lenses (sys [a; b; c]))).
  { repeat constructor; simpl; lra. }
  exact (@magnification_of_joined_systems (sys [a; b]) (sys [c])
           (sys [a; b; c]) eq_refl Hna).
Defined.

(** X7.  [add_camera] checks the type of the pixel count only: a camera of
    zero pitch is accepted, and [calculate_system_specs] then raises
    [ZeroDivisionError] at the scaling constant, after it has set the
    z-voxel size to 0 and before it reaches the field of view. *)
Theorem zero_pitch_camera_breaks_scaling
    (self : Microscope) (first : Lens) (rest : list Lens)
    (r : Z) (off rms : R) :
  lenses self = first :: rest ->
  Forall (fun lens => NA lens <> 0) (lenses self) ->
  RI first <> 0 ->
  let out := bind (add_camera (PyInt r) 0 off rms)
                  (fun _ => calculate_system_specs) self in
  fst out = Raise ZeroDivisionError /\
  camera (snd out) = Some (mkCamera r 0 off rms) /\
  z_voxel_size (snd out) = Some 0 /\
  scaling (snd out) = scaling self /\
  FoV (snd out) = FoV self.
Proof.
  intros Hl Hna Hri out. subst out.
  erewrite bind_ok by reflexivity.
  match goal with |- context [calculate_system_specs ?s] =>
    set (s1 := s) end.
  assert (Hl1 : lenses s1 = first :: rest) by exact Hl.
  assert (Hnz : forall j x, nth_error (lenses s1) j = Some x ->
                            Nat.odd j = true -> NA x <> 0).
  { intros j x Hj _. apply nth_error_In in Hj.
    exact (proj1 (Forall_forall _ _) Hna _ Hj). }
  assert (HM : system_mag (lenses s1) <> 0).
  { apply system_mag_nonzero. exact Hna. }
  rewrite (specs_run s1 Hl1 Hnz Hri).
  set (M := system_mag (lenses s1)) in *.
  set (AM := M ^ 2 * RI (last rest first) / RI first).
  erewrite bind_ok by reflexivity.
  cbn [vox res].
  rewrite (pydiv_ok 0 HM).
  erewrite bind_ok by reflexivity.
  erewrite bind_ok by reflexivity.
  erewrite bind_raise
    by (unfold lift, pydiv;
        destruct (Req_dec_T (2 * 0 * NA (last rest first)) 0) as [_|Hc];
        [reflexivity|exfalso; apply Hc; ring]).
  cbn [fst snd camera z_voxel_size scaling FoV].
  split; [reflexivity|]. split; [reflexivity|].
  split; [f_equal; unfold Rdiv; ring|]. split; reflexivity.
Qed.

Lemma zero_pitch_camera_breaks_scaling_witness :
  let l1 := mkLens (27 / 20) (7 / 5) 0 in
  let l2 := mkLens (1 / 4) 1 0 in
  let self := mkMicroscope [l1; l2] (488 / 1000) (507 / 1000) None
                           None None None None None None in
  fst (bind (add_camera (PyInt 128) 0 100 2)
            (fun _ => calculate_system_specs) self) =
  Raise ZeroDivisionError.
Proof.
  intros l1 l2 self.
  assert (Hna : Forall (fun lens => NA lens <> 0) (lenses self)).
  { repeat constructor; simpl; lra. }
  assert (Hri : RI l1 <> 0) by (simpl; lra).
  exact (proj1 (@zero_pitch_camera_breaks_scaling self l1 [l2] 128 100 2
                  eq_refl Hna Hri)).
Defined.

End SystemSpecsMore.

(** ** The example system *)

Section ExampleFacts.

Local Open Scope R_scope.

Lemma on_lenses_add_lens (NA0 RI0 rot0 : R) (pos : pyval) (self : Microscope) :
  eq_False pos = true ->
  on_lenses (add_lens NA0 RI0 rot0 pos) self =
  (Ok tt, mkMicroscope (lenses self ++ [mkLens NA0 RI0 rot0])
            (lam_ex self) (lam_em self) (camera self)
            (mag self) (alpha self) (axial_mag self)
            (z_voxel_size self) (scaling self) (FoV self)).
Proof.
  intros H. unfold on_lenses, add_lens. rewrite H. reflexivity.
Qed.

(** The run of [add_lenses]: three lenses appended, one inserted at index
    2, two appended. *)
Lemma add_lenses_run (self : Microscope) :
  let l3 := lenses self ++ firstn 2 MakeSystem.example_lenses
                        ++ [nth 3 MakeSystem.example_lenses (mkLens 0 0 0)] in
  add_lenses self =
  (Ok tt,
   mkMicroscope
     (firstn 2 l3 ++ nth 2 MakeSystem.example_lenses (mkLens 0 0 0)
        :: skipn 2 l3 ++ skipn 4 MakeSystem.example_lenses)
     (lam_ex self) (lam_em self) (camera self)
     (mag self) (alpha self) (axial_mag self)
     (z_voxel_size self) (scaling self) (FoV self)).
Proof.
  intros l3. unfold add_lenses.
  erewrite bind_ok by (apply on_lenses_add_lens; reflexivity).
  erewrite bind_ok by (apply on_lenses_add_lens; reflexivity).
  erewrite bind_ok by (apply on_lenses_add_lens; reflexivity).
  cbn [lenses lam_ex lam_em camera mag alpha axial_mag z_voxel_size
       scaling FoV].
  rewrite <- !app_assoc. cbn [app].
  assert (Hlen : (3 <= length l3)%nat).
  { subst l3. rewrite !length_app. simpl. lia. }
  assert (Hins : forall x,
    on_lenses (add_lens (NA x) (RI x) (rot x) (PyInt 2))
      (mkMicroscope l3 (lam_ex self) (lam_em self) (camera self)
         (mag self) (alpha self) (axial_mag self)
         (z_voxel_size self) (scaling self) (FoV self)) =
    (Ok tt, mkMicroscope (firstn 2 l3 ++ x :: skipn 2 l3)
         (lam_ex self) (lam_em self) (camera self)
         (mag self) (alpha self) (axial_mag self)
         (z_voxel_size self) (scaling self) (FoV self))).
  { intros [a b c]. unfold on_lenses, add_lens. cbn [lenses NA RI rot].
    cbn [eq_False type_is_int negb Z.eqb].
    destruct (Z.ltb_spec (Z.of_nat (length l3)) 2); [lia|].
    unfold PyList.insert. cbn [Z.ltb Z.compare].
    rewrite Z.min_l by lia. reflexivity. }
  erewrite bind_ok by (apply
    (Hins (nth 2 MakeSystem.example_lenses (mkLens 0 0 0)))).
  erewrite bind_ok by (apply on_lenses_add_lens; reflexivity).
  rewrite on_lenses_add_lens by reflexivity.
  cbn [lenses lam_ex lam_em camera mag alpha axial_mag z_voxel_size
       scaling FoV].
  rewrite <- !app_assoc. reflexivity.
Qed.

(** X8.  [add_lenses] returns whatever lenses the system already has: the
    position 2 of the fourth call is never beyond the list, which holds at
    least three lenses by then.  That lens lands at index 2 of the whole
    list, so on a system that already has lenses it is placed among the
    old ones; on an empty system the six lenses come out in the order of
    the light path. *)
Theorem add_lenses_result (self : Microscope) :
  let l3 := lenses self ++ firstn 2 MakeSystem.example_lenses
                        ++ [nth 3 MakeSystem.example_lenses (mkLens 0 0 0)] in
  add_lenses self =
  (Ok tt,
   mkMicroscope
     (firstn 2 l3 ++ nth 2 MakeSystem.example_lenses (mkLens 0 0 0)
        :: skipn 2 l3 ++ skipn 4 MakeSystem.example_lenses)
     (lam_ex self) (lam_em self) (camera self)
     (mag self) (alpha self) (axial_mag self)
     (z_voxel_size self) (scaling self) (FoV self)) /\
  (lenses self = [] ->
   lenses (snd (add_lenses self)) = MakeSystem.example_lenses).
Proof.
  intros l3. split; [apply add_lenses_run|].
  intros Hl. rewrite add_lenses_run. cbn [snd lenses]. rewrite Hl.
  reflexivity.
Qed.

(** X9.  [make_system] on a microscope without lenses returns and leaves
    the example configuration: the six lenses, the camera, the settings,
    and (floats read as reals) a magnification of 56, an axial
    magnification of 2240, the sample plane turned to pi/2 - 40 degrees,
    and the z-voxel size, scaling and field of view that follow. *)
Theorem make_system_example
    (system : Microscope) (st : MakeSystem.settings) :
  lenses system = [] ->
  MakeSystem.make_system (system, st) =
  (Ok tt,
   (mkMicroscope MakeSystem.example_lenses (lam_ex system) (lam_em system)
      (Some (mkCamera 128 (2 / 1000000) 100 (14 / 10)))
      (Some 56) (Some (PI / 2 - 40 * PI / 180)) (Some 2240)
      (Some (80 / 1000000))
      (Some (lam_em system * 10000000))
      (Some (256 / 56000000)),
    MakeSystem.mkSettings (Some 10%Z) (Some 256%Z) (Some Pol.u)
      (Some (4 / 10)) (Some (5 * PI / 180)) (Some 20))).
Proof.
  intros Hl. unfold MakeSystem.make_system.
  assert (H1 : MakeSystem.on_system add_lenses (system, st) =
    (Ok tt,
     (mkMicroscope MakeSystem.example_lenses (lam_ex system) (lam_em system)
        (camera system) (mag system) (alpha system) (axial_mag system)
        (z_voxel_size system) (scaling system) (FoV system), st))).
  { unfold MakeSystem.on_system. cbn [fst snd].
    rewrite add_lenses_run, Hl. reflexivity. }
  erewrite bind_ok by exact H1.
  erewrite bind_ok by reflexivity.
  erewrite bind_ok by reflexivity.
  unfold MakeSystem.on_system.
  cbn [fst snd lenses lam_ex lam_em camera mag alpha axial_mag z_voxel_size
       scaling FoV].
  set (cam := mkCamera 128 (2 / 1000000) 100 (14 / 10)).
  set (self := mkMicroscope MakeSystem.example_lenses (lam_ex system)
                 (lam_em system) (Some cam) (mag system) (alpha system)
                 (axial_mag system) (z_voxel_size system) (scaling system)
                 (FoV system)).
  assert (HM : system_mag MakeSystem.example_lenses = 56).
  { unfold system_mag, MakeSystem.example_lenses, Rprod.
    cbn [evens odds tl map NA fold_right]. field. }
  assert (Hna : Forall (fun lens => NA lens <> 0) (lenses self)).
  { unfold self, MakeSystem.example_lenses. cbn [lenses].
    repeat constructor; cbn [NA]; lra. }
  assert (Hri : RI (mkLens (135 / 100) (14 / 10) 0) <> 0)
    by (cbn [RI]; lra).
  assert (Hvox : vox cam <> 0) by (cbn [vox cam]; lra).
  destruct (@specs_closed_form self _ _ cam eq_refl Hna Hri eq_refl Hvox)
    as [_ H].
  rewrite H. clear H.
  cbn [lenses lam_ex lam_em self last RI NA vox res cam].
  change (system_mag (lenses self)) with
    (system_mag MakeSystem.example_lenses).
  rewrite HM.
  assert (Hal : PI / 2
                - fold_right Rplus 0 (map rot MakeSystem.example_lenses) =
                PI / 2 - 40 * PI / 180).
  { unfold MakeSystem.example_lenses. cbn [map rot fold_right]. ring. }
  rewrite Hal.
  replace (56 ^ 2 * 1 / (14 / 10)) with 2240 by field.
  replace (2 / 1000000 / 56 * 2240) with (80 / 1000000) by field.
  replace (lam_em system / (2 * (2 / 1000000) * (1 / 40)))
    with (lam_em system * 10000000) by field.
  replace (2 / 1000000 * IZR 128 / 56) with (256 / 56000000) by field.
  reflexivity.
Qed.

Lemma make_system_example_witness :
  let system := mkMicroscope [] (488 / 1000000000) (507 / 1000000000) None
                             None None None None None None in
  let st := MakeSystem.mkSettings None None None None None None in
  fst (MakeSystem.make_system (system, st)) = Ok tt /\
  mag (fst (snd (MakeSystem.make_system (system, st)))) = Some 56.
Proof.
  intros system st.
  rewrite (@make_system_example system st eq_refl).
  split; reflexivity.
Defined.

End ExampleFacts.

(** ** [light_sheet]: the slit on grids of any size *)

Section LightSheetSlit.

Local Open Scope R_scope.

Lemma pixel_meshgrid (x y : list R) (i j : nat) (xj yi : R) :
  nth_error x j = Some xj -> nth_error y i = Some yi ->
  pixel (meshgrid x y) i j = Some (xj, yi).
Proof.
  intros Hx Hy. unfold pixel, meshgrid.
  rewrite nth_error_map, Hy. cbn [option_map].
  rewrite nth_error_map, Hx. reflexivity.
Qed.

Lemma pixel_map_map (A B : Type) (f : A -> B) (g : grid A) (i j : nat) :
  pixel (map (map f) g) i j = option_map f (pixel g i j).
Proof.
  unfold pixel. rewrite nth_error_map.
  destruct (nth_error g i) as [row|]; [|reflexivity].
  cbn [option_map]. apply nth_error_map.
Qed.

Lemma centred_axis_nth (res : Z) (j : nat) :
  (j < Z.to_nat res)%nat ->
  nth_error (centred_axis res) j = Some (linspace_at (res / 2) res j).
Proof.
  intros Hj. unfold centred_axis.
  rewrite nth_error_map, nth_error_seq.
  destruct (Nat.ltb_spec j (Z.to_nat res)); [|lia]. reflexivity.
Qed.

(** On an odd number of points the step of [np.linspace(-M, M, res)] is 1
    and the middle point is 0. *)
Lemma linspace_at_odd (M : Z) (j : nat) :
  (1 <= M)%Z -> linspace_at M (2 * M + 1) j = INR j - IZR M.
Proof.
  intros HM. unfold linspace_at.
  destruct (Z.eqb_spec (2 * M + 1) 1); [lia|].
  replace (M - - M)%Z with (2 * M)%Z by lia.
  replace (2 * M + 1 - 1)%Z with (2 * M)%Z by lia.
  rewrite opp_IZR.
  assert (H : IZR (2 * M) <> 0) by (apply not_0_IZR; lia).
  field. exact H.
Qed.

(** The angle of a pixel: the half-angle scaled by its distance from the
    axis, in units of [M] pixels. *)
Lemma light_sheet_theta_value (k0 RI0 ls_opening : R) (M : Z) (x y : R) :
  M <> 0%Z -> k0 * RI0 <> 0 ->
  light_sheet_theta k0 RI0 ls_opening M (x, y) =
  np_arcsin (Fin (sin ls_opening * (sqrt (x ^ 2 + y ^ 2) / IZR M))).
Proof.
  intros HM Hk.
  assert (HM' : IZR M <> 0) by (apply not_0_IZR; exact HM).
  unfold light_sheet_theta. cbn [fst snd np_sin fmul fadd].
  rewrite fdiv_fin by exact HM'. rewrite fdiv_fin by exact Hk.
  rewrite np_sqrt_fin by nra. cbn [fmul]. f_equal. f_equal.
  assert (k0 <> 0 /\ RI0 <> 0) as [H1 H2].
  { split; intros E; apply Hk; rewrite E; ring. }
  field. repeat split; assumption.
Qed.

(** X10.  On a camera of odd resolution [2M+1] the slit is on the optical
    axis, and every pixel of the column [M] but its two ends is kept: for
    a half-angle above 0 and up to 90 degrees the angle of such a pixel
    lies below the half-angle with a margin (its sine is at most 1 - 1/M
    times the sine of the half-angle), and the mask leaves it at 1.  The
    two end pixels lie on the boundary of the comparison
    [theta > ls_opening], where the rounding of the angle decides; nothing
    is said of them. *)
Theorem light_sheet_slit_interior_kept
    (k0 RI0 ls_opening : R) (M : Z) (i : nat) :
  (1 <= M)%Z -> k0 * RI0 <> 0 -> 0 < ls_opening <= PI / 2 ->
  (0 < i < Z.to_nat (2 * M))%nat ->
  let res := (2 * M + 1)%Z in
  let theta := light_sheet_angles k0 RI0 ls_opening res in
  exists t : R,
    pixel theta i (Z.to_nat (res / 2)) = Some (Fin t) /\
    0 <= t < ls_opening /\
    sin t <= sin ls_opening * (1 - 1 / IZR M) /\
    pixel (light_sheet_mask theta ls_opening (Z.to_nat (res / 2)))
          i (Z.to_nat (res / 2)) = Some (Fin 1).
Proof.
  intros HM Hk Hls Hi res theta.
  assert (Hhalf : (res / 2 = M)%Z).
  { unfold res. symmetry. apply (Z.div_unique _ 2 M 1); lia. }
  rewrite Hhalf.
  assert (HMpos : 1 <= IZR M) by (apply IZR_le; lia).
  set (y := INR i - IZR M).
  assert (Hy : Rabs y <= IZR M - 1).
  { unfold y. apply Rabs_le. split.
    - assert (1 <= INR i) by (apply (le_INR 1); lia). lra.
    - assert (INR i <= IZR (2 * M - 1)).
      { rewrite INR_IZR_INZ. apply IZR_le. lia. }
      rewrite minus_IZR, mult_IZR in H. lra. }
  set (v := sin ls_opening * (Rabs y / IZR M)).
  pose proof PI_RGT_0 as Hpi.
  assert (Hs : 0 < sin ls_opening <= 1).
  { split; [apply sin_gt_0; lra|apply SIN_bound]. }
  assert (Hq : 0 <= Rabs y / IZR M <= 1 - 1 / IZR M).
  { split.
    - apply Rmult_le_pos; [apply Rabs_pos|].
      apply Rlt_le, Rinv_0_lt_compat. lra.
    - apply (Rmult_le_reg_r (IZR M)); [lra|].
      replace (Rabs y / IZR M * IZR M) with (Rabs y) by (field; lra).
      replace ((1 - 1 / IZR M) * IZR M) with (IZR M - 1) by (field; lra).
      exact Hy. }
  assert (Hinv : 0 < 1 / IZR M).
  { apply Rdiv_lt_0_compat; lra. }
  assert (Hv : 0 <= v <= sin ls_opening * (1 - 1 / IZR M)).
  { unfold v. split; [apply Rmult_le_pos; lra|].
    apply Rmult_le_compat_l; lra. }
  assert (Hv1 : v < sin ls_opening).
  { apply Rle_lt_trans with (sin ls_opening * (1 - 1 / IZR M));
      [apply Hv|].
    rewrite <- (Rmult_1_r (sin ls_opening)) at 2.
    apply Rmult_lt_compat_l; lra. }
  assert (Ht : pixel theta i (Z.to_nat M) = Some (Fin (asin v))).
  { unfold theta, light_sheet_angles. rewrite pixel_map_map.
    rewrite (@pixel_meshgrid _ _ i (Z.to_nat M) 0 y).
    - cbn [option_map]. rewrite Hhalf.
      rewrite light_sheet_theta_value by (lia || exact Hk).
      replace (0 ^ 2 + y ^ 2) with (y ^ 2) by ring.
      rewrite <- Rsqr_pow2, sqrt_Rsqr_abs. fold v.
      rewrite np_arcsin_fin by lra. reflexivity.
    - rewrite centred_axis_nth by (unfold res; lia).
      rewrite Hhalf. unfold res. rewrite linspace_at_odd by exact HM.
      f_equal. rewrite INR_IZR_INZ, Z2Nat.id by lia. ring.
    - rewrite centred_axis_nth by (unfold res; lia).
      rewrite Hhalf. unfold res. rewrite linspace_at_odd by exact HM.
      reflexivity. }
  assert (Hle : 0 <= asin v < ls_opening).
  { pose proof (asin_bound v) as Hb. pose proof (asin_bound 0) as Hb0.
    split.
    - rewrite <- asin_0.
      apply sin_incr_0; try lra.
      rewrite !sin_asin by lra. lra.
    - apply sin_increasing_0; try lra.
      rewrite sin_asin by lra. exact Hv1. }
  exists (asin v). split; [exact Ht|]. split; [exact Hle|].
  split; [rewrite sin_asin by lra; apply Hv|].
  rewrite light_sheet_mask_pixel, Ht. cbn [option_map]. f_equal.
  unfold mask_value. rewrite fgt_fin_false by lra.
  rewrite Nat.eqb_refl. reflexivity.
Qed.

Lemma light_sheet_slit_interior_kept_witness :
  exists t : R,
    pixel (light_sheet_angles 1 1 (PI / 36) 5) 1 2 = Some (Fin t) /\
    0 <= t < PI / 36 /\
    sin t <= sin (PI / 36) * (1 - 1 / IZR 2) /\
    pixel (light_sheet_mask (light_sheet_angles 1 1 (PI / 36) 5)
                            (PI / 36) 2) 1 2 = Some (Fin 1).
Proof.
  assert (HM : (1 <= 2)%Z) by lia.
  assert (Hk : 1 * 1 <> 0) by lra.
  assert (Hls : 0 < PI / 36 <= PI / 2) by (pose proof PI_RGT_0; lra).
  assert (Hi : (0 < 1 < Z.to_nat (2 * 2))%nat) by (simpl; lia).
  exact (@light_sheet_slit_interior_kept 1 1 (PI / 36) 2 1 HM Hk Hls Hi).
Defined.

(** On an even number of points no point of [np.linspace(-M, M, res)] is
    0: the one of index [M] lies at M/(2M-1). *)
Lemma linspace_at_even (M : Z) (j : nat) :
  (1 <= M)%Z ->
  linspace_at M (2 * M) j = INR j * (2 * IZR M / (2 * IZR M - 1)) - IZR M.
Proof.
  intros HM. unfold linspace_at.
  destruct (Z.eqb_spec (2 * M) 1); [lia|].
  replace (M - - M)%Z with (2 * M)%Z by lia.
  rewrite opp_IZR, minus_IZR, mult_IZR.
  assert (H : 1 <= IZR M) by (apply IZR_le; exact HM).
  field. lra.
Qed.

(** X11.  On a camera of even resolution [2M] the slit is off the optical
    axis: the column [M] that the mask keeps lies at x = M/(2M-1), not at
    0.  Its end pixel is then farther from the axis than [M]: its angle is
    beyond the half-angle, so that the mask invalidates it, or it is
    not-a-number already. *)
Theorem light_sheet_slit_off_axis (k0 RI0 ls_opening : R) (M : Z) :
  (1 <= M)%Z -> k0 * RI0 <> 0 -> 0 < ls_opening <= PI / 2 ->
  let res := (2 * M)%Z in
  let theta := light_sheet_angles k0 RI0 ls_opening res in
  let slit := Z.to_nat (res / 2) in
  nth_error (centred_axis res) slit = Some (IZR M / (2 * IZR M - 1)) /\
  0 < IZR M / (2 * IZR M - 1) /\
  (pixel theta 0 slit = Some NaN \/
   exists t : R,
     pixel theta 0 slit = Some (Fin t) /\ ls_opening < t /\
     pixel (light_sheet_mask theta ls_opening slit) 0 slit = Some NaN).
Proof.
  intros HM Hk Hls res theta slit.
  assert (Hhalf : (res / 2 = M)%Z).
  { unfold res. rewrite Z.mul_comm. apply Z.div_mul. lia. }
  assert (H1 : 1 <= IZR M) by (apply IZR_le; exact HM).
  set (x := IZR M / (2 * IZR M - 1)).
  assert (Hx : 0 < x).
  { unfold x. apply Rmult_lt_0_compat; [lra|].
    apply Rinv_0_lt_compat. lra. }
  assert (Hcol : nth_error (centred_axis res) slit = Some x).
  { unfold slit. rewrite Hhalf.
    rewrite centred_axis_nth by (unfold res; lia).
    rewrite Hhalf. unfold res. rewrite linspace_at_even by exact HM.
    f_equal. rewrite INR_IZR_INZ, Z2Nat.id by lia. unfold x. field. lra. }
  assert (Hrow : nth_error (centred_axis res) 0 = Some (- IZR M)).
  { rewrite centred_axis_nth by (unfold res; lia).
    rewrite Hhalf. unfold res. rewrite linspace_at_even by exact HM.
    f_equal. cbn [INR]. ring. }
  split; [exact Hcol|]. split; [exact Hx|].
  set (RR := sqrt (x ^ 2 + (- IZR M) ^ 2)).
  assert (HRR : IZR M < RR).
  { unfold RR. rewrite <- (sqrt_pow2 (IZR M)) at 1 by lra.
    apply sqrt_lt_1_alt. split; [nra|nra]. }
  set (v := sin ls_opening * (RR / IZR M)).
  assert (Hs : 0 < sin ls_opening).
  { apply sin_gt_0; pose proof PI_RGT_0; lra. }
  assert (Hq : 1 < RR / IZR M).
  { apply (Rmult_lt_reg_r (IZR M)); [lra|].
    unfold Rdiv. rewrite Rmult_assoc, Rinv_l, Rmult_1_r, Rmult_1_l by lra.
    exact HRR. }
  assert (Hv : sin ls_opening < v).
  { unfold v. rewrite <- (Rmult_1_r (sin ls_opening)) at 1.
    apply Rmult_lt_compat_l; assumption. }
  assert (Ht : pixel theta 0 slit = Some (np_arcsin (Fin v))).
  { unfold theta, light_sheet_angles. rewrite pixel_map_map.
    rewrite (@pixel_meshgrid _ _ 0 slit x (- IZR M) Hcol Hrow).
    cbn [option_map]. rewrite Hhalf.
    rewrite light_sheet_theta_value by (lia || exact Hk).
    reflexivity. }
  destruct (Rle_dec v 1) as [Hle|Hgt].
  - right. exists (asin v).
    rewrite np_arcsin_fin in Ht by lra.
    assert (Hlt : ls_opening < asin v).
    { pose proof PI_RGT_0 as Hpi. pose proof (asin_bound v) as Hb.
      apply sin_increasing_0; try lra.
      rewrite sin_asin by lra. exact Hv. }
    split; [exact Ht|]. split; [exact Hlt|].
    rewrite light_sheet_mask_pixel, Ht. cbn [option_map]. f_equal.
    unfold mask_value. rewrite fgt_fin_true by lra. reflexivity.
  - left. rewrite Ht. f_equal. unfold np_arcsin.
    destruct (Rle_dec (-1) v); [|reflexivity].
    destruct (Rle_dec v 1); [contradiction|reflexivity].
Qed.

Lemma light_sheet_slit_off_axis_witness :
  nth_error (centred_axis 4) 2 = Some (IZR 2 / (2 * IZR 2 - 1)) /\
  0 < IZR 2 / (2 * IZR 2 - 1).
Proof.
  assert (HM : (1 <= 2)%Z) by lia.
  assert (Hk : 1 * 1 <> 0) by lra.
  assert (Hls : 0 < PI / 36 <= PI / 2) by (pose proof PI_RGT_0; lra).
  destruct (@light_sheet_slit_off_axis 1 1 (PI / 36) 2 HM Hk Hls)
    as (H1 & H2 & _).
  split; [exact H1|exact H2].
Defined.

(** X12.  The axial wavenumber agrees with the angle: where the angle of
    a pixel is valid, [k_z] is the wavenumber in the medium times the
    cosine of that angle; where the angle is not-a-number (the pixel is
    beyond 90 degrees) the wave is evanescent and [k_z] is 0. *)
Theorem light_sheet_k_z_cosine (k0 RI0 ls_opening : R) (M : Z) (x y : R) :
  M <> 0%Z -> k0 * RI0 <> 0 ->
  light_sheet_k_z k0 RI0 ls_opening M (x, y) =
  match light_sheet_theta k0 RI0 ls_opening M (x, y) with
  | Fin t => Fin (Rabs (k0 * RI0) * cos t)
  | _ => Fin 0
  end.
Proof.
  intros HM Hk.
  rewrite light_sheet_theta_value by assumption.
  assert (HM' : IZR M <> 0) by (apply not_0_IZR; exact HM).
  set (u := sin ls_opening * (sqrt (x ^ 2 + y ^ 2) / IZR M)).
  unfold light_sheet_k_z. cbn [fst snd np_sin fmul fadd].
  rewrite fdiv_fin by exact HM'. rewrite np_sqrt_fin by nra.
  cbn [fmul fsub fneg fadd].
  assert (E : (k0 * RI0) ^ 2 +
              - (k0 * (RI0 * sin ls_opening) / IZR M * sqrt (x ^ 2 + y ^ 2) *
                 (k0 * (RI0 * sin ls_opening) / IZR M *
                  sqrt (x ^ 2 + y ^ 2))) =
              (k0 * RI0) ^ 2 * (1 - u ^ 2)).
  { unfold u. field. exact HM'. }
  rewrite E. clear E.
  pose proof (Rsqr_pos_lt _ Hk) as Hk2. rewrite Rsqr_pow2 in Hk2.
  assert (Hneg : 1 - u ^ 2 < 0 -> (k0 * RI0) ^ 2 * (1 - u ^ 2) < 0).
  { intros H. apply Ropp_lt_cancel.
    rewrite Ropp_0, Ropp_mult_distr_r.
    apply Rmult_lt_0_compat; lra. }
  unfold np_arcsin, np_sqrt.
  destruct (Rle_dec (-1) u) as [Hl|Hl].
  - destruct (Rle_dec u 1) as [Hu|Hu].
    + assert (H0 : 0 <= 1 - u ^ 2) by nra.
      destruct (Rlt_dec ((k0 * RI0) ^ 2 * (1 - u ^ 2)) 0) as [Hn|_];
        [nra|].
      cbn [nan_to_num]. f_equal.
      rewrite sqrt_mult by lra.
      rewrite <- Rsqr_pow2, sqrt_Rsqr_abs.
      rewrite cos_asin by lra. rewrite Rsqr_pow2. reflexivity.
    + destruct (Rlt_dec ((k0 * RI0) ^ 2 * (1 - u ^ 2)) 0) as [_|Hn];
        [reflexivity|]. exfalso. apply Hn, Hneg. nra.
  - destruct (Rlt_dec ((k0 * RI0) ^ 2 * (1 - u ^ 2)) 0) as [_|Hn];
      [reflexivity|]. exfalso. apply Hn, Hneg. nra.
Qed.

Lemma light_sheet_k_z_cosine_witness :
  light_sheet_k_z 1 1 (PI / 36) 1 (0, 1) =
  match light_sheet_theta 1 1 (PI / 36) 1 (0, 1) with
  | Fin t => Fin (Rabs (1 * 1) * cos t)
  | _ => Fin 0
  end.
Proof.
  assert (HM : 1%Z <> 0%Z) by lia.
  assert (Hk : 1 * 1 <> 0) by lra.
  exact (@light_sheet_k_z_cosine 1 1 (PI / 36) 1 0 1 HM Hk).
Defined.

(** X13.  Each of the three polarisations 'p', 's' and 'u' gives a base
    field of unit intensity without axial component, whatever was stored
    before.  Any other name assigns nothing: the base field of an earlier
    call is used again, and without one the read raises
    [AttributeError]. *)
Theorem light_sheet_polarisation
    (ls_pol : String.string) (old : option (list fval)) :
  (ls_pol = Pol.p \/ ls_pol = Pol.s \/ ls_pol = Pol.u ->
   exists ex ey : R,
     light_sheet_Ei_base ls_pol old =
       (Ok [Fin ex; Fin ey; Fin 0], Some [Fin ex; Fin ey; Fin 0]) /\
     intensity [Fin ex; Fin ey; Fin 0] = Fin 1) /\
  (ls_pol <> Pol.p -> ls_pol <> Pol.s -> ls_pol <> Pol.u ->
   light_sheet_Ei_base ls_pol old =
     (match old with Some v => Ok v | None => Raise AttributeError end,
      old)).
Proof.
  split.
  - assert (H2 : fdiv (np_sqrt (Fin 2)) (Fin 2) = Fin (sqrt 2 / 2)).
    { rewrite np_sqrt_fin by lra. apply fdiv_fin. lra. }
    intros [-> | [-> | ->]].
    + exists 1, 0. split; [reflexivity|].
      unfold intensity. cbn [map fold_right fmul fadd]. f_equal. ring.
    + exists 0, 1. split; [reflexivity|].
      unfold intensity. cbn [map fold_right fmul fadd]. f_equal. ring.
    + exists (sqrt 2 / 2), (sqrt 2 / 2). split.
      * unfold light_sheet_Ei_base.
        change (String.eqb Pol.u Pol.p) with false.
        change (String.eqb Pol.u Pol.s) with false.
        change (String.eqb Pol.u Pol.u) with true. cbv iota.
        rewrite H2. reflexivity.
      * unfold intensity. cbn [map fold_right fmul fadd]. f_equal.
        assert (Hs : sqrt 2 * sqrt 2 = 2) by (apply sqrt_sqrt; lra).
        replace (sqrt 2 / 2 * (sqrt 2 / 2)) with (sqrt 2 * sqrt 2 / 4)
          by field.
        rewrite Hs. field.
  - intros Hp Hs Hu. unfold light_sheet_Ei_base.
    apply String.eqb_neq in Hp, Hs, Hu. rewrite Hp, Hs, Hu.
    destruct old; reflexivity.
Qed.

Lemma light_sheet_polarisation_witness :
  exists ex ey : R,
    light_sheet_Ei_base Pol.u None =
      (Ok [Fin ex; Fin ey; Fin 0], Some [Fin ex; Fin ey; Fin 0]) /\
    intensity [Fin ex; Fin ey; Fin 0] = Fin 1.
Proof.
  exact (proj1 (@light_sheet_polarisation Pol.u None)
               (or_intror (or_intror eq_refl))).
Defined.

End LightSheetSlit.

(** ** [field_tracing_reverse]: outcome and azimuth *)

Section TracingMore.

Variable R_x : R -> mat3 fval.
Variables R_y R_z L_refraction : fval -> mat3 cval.
Variable Fresnel : fval -> fval -> R -> R -> mat3 cval.
Variable inv : mat3 cval -> mat3 cval.
Variable multidot : list (mat3 cval) -> mat3 cval.

Local Open Scope R_scope.

Let step := trace_step R_x R_y R_z L_refraction Fresnel inv.
Let trace := field_tracing_reverse R_x R_y R_z L_refraction Fresnel inv
                                   multidot.

Lemma step_raise (k0 del_K : R) (rd : list Z) (RR xx yy : fval)
    (l : list (nat * Lens)) (e : pyexn) :
  fold_left (step k0 del_K rd RR xx yy) l (Raise e) = Raise e.
Proof.
  induction l as [|[i lens] l IH]; [reflexivity|]. cbn [fold_left].
  exact IH.
Qed.

(** One pass either appends a lens or stops on a division by zero. *)
Lemma trace_step_outcome (k0 del_K : R) (rd : list Z) (RR xx yy : fval)
    (st : trace_state) (i : nat) (lens : Lens) :
  (i < length rd)%nat -> length (traced_lenses st) = i ->
  (exists st',
     step k0 del_K rd RR xx yy (Ok st) (i, lens) = Ok st' /\
     length (traced_lenses st') = S i) \/
  step k0 del_K rd RR xx yy (Ok st) (i, lens) = Raise ZeroDivisionError.
Proof.
  intros Hi Hlen. unfold step, trace_step. cbn [rbind].
  unfold step_dir. rewrite (getitem_from_start rd 0%Z Hi). cbn [rbind].
  match goal with |- (exists st', rbind ?b _ = _ /\ _) \/ _ =>
    assert (Hb : (exists th ph jones apod, b = Ok (th, ph, jones, apod)) \/
                 b = Raise ZeroDivisionError)
  end.
  { destruct i as [|i].
    - unfold enter, pydiv.
      destruct (Req_dec_T (k0 * RI lens) 0); [right; reflexivity|].
      left. cbn [rbind]. eauto.
    - destruct (@exists_last _ (traced_lenses st)) as (l' & tmp & E).
      { intros E. rewrite E in Hlen. discriminate. }
      rewrite E, last_some_snoc. left.
      destruct (step_mode (S i)).
      + destruct (collimate L_refraction lens tmp (nth (S i) rd 0%Z)
                    (jones_mat st) (apodization st))
          as [[[th ph] jones] apod]. eauto.
      + destruct (focus R_x R_y R_z L_refraction Fresnel inv lens tmp
                    (nth (S i) rd 0%Z) (jones_mat st) (apodization st))
          as [[[th ph] jones] apod]. eauto. }
  destruct Hb as [(th & ph & jones & apod & ->)| ->];
    [|right; reflexivity].
  cbn [rbind]. unfold accept, pydiv.
  destruct (Req_dec_T (RI lens) 0); [right; reflexivity|].
  left. cbn [rbind]. eexists. split; [reflexivity|].
  cbn [traced_lenses]. rewrite length_app, Hlen. simpl. lia.
Qed.

Lemma trace_fold_outcome (k0 del_K : R) (rd : list Z) (RR xx yy : fval)
    (l : list Lens) :
  forall (k : nat) (st : trace_state),
    (k + length l <= length rd)%nat ->
    length (traced_lenses st) = k ->
    (exists st',
       fold_left (step k0 del_K rd RR xx yy)
                 (combine (seq k (length l)) l) (Ok st) = Ok st' /\
       length (traced_lenses st') = (k + length l)%nat) \/
    fold_left (step k0 del_K rd RR xx yy)
              (combine (seq k (length l)) l) (Ok st) =
    Raise ZeroDivisionError.
Proof.
  induction l as [|lens l IH]; intros k st Hk Hlen.
  - left. exists st. split; [reflexivity|]. simpl. lia.
  - cbn [length seq combine fold_left]. cbn [length] in Hk.
    destruct (@trace_step_outcome k0 del_K rd RR xx yy st k lens)
      as [(st1 & -> & Hlen1)| ->]; [lia|exact Hlen| |].
    + destruct (IH (S k) st1) as [(st' & Hfold & Hlen')|Hfold];
        [lia|exact Hlen1| |].
      * left. exists st'. split; [exact Hfold|]. rewrite Hlen'. lia.
      * right. exact Hfold.
    + right. apply step_raise.
Qed.

(** The first pass needs the wavenumber: it divides by [k0 * RI]. *)
Lemma trace_needs_wavenumber (k0 del_K : R) (rd : list Z) (RR xx yy : fval)
    (l0 : Lens) (rest : list Lens) (st' : trace_state) :
  fold_left (step k0 del_K rd RR xx yy)
            (combine (seq 0 (length (l0 :: rest))) (l0 :: rest))
            (Ok (mkTraceState [] [] (Fin 1))) = Ok st' ->
  k0 <> 0.
Proof.
  cbn [length seq combine fold_left]. intros H Hk0.
  assert (E : step k0 del_K rd RR xx yy (Ok (mkTraceState [] [] (Fin 1)))
                (0%nat, l0) = Raise ZeroDivisionError \/
              step k0 del_K rd RR xx yy (Ok (mkTraceState [] [] (Fin 1)))
                (0%nat, l0) = Raise IndexError).
  { unfold step, trace_step. cbn [rbind].
    destruct (step_dir rd 0) as [dir|e] eqn:Ed.
    - left. cbn [rbind]. unfold enter, pydiv.
      destruct (Req_dec_T (k0 * RI l0) 0) as [_|Hn]; [reflexivity|].
      exfalso. apply Hn. rewrite Hk0. ring.
    - right. unfold step_dir, PyList.getitem in Ed.
      cbn [rbind]. f_equal.
      destruct ((Z.of_nat 0 <? 0)%Z); cbv zeta in Ed;
        repeat match type of Ed with
        | (if ?c then _ else _) = _ => destruct c
        | match ?c with _ => _ end = _ => destruct c
        end; congruence. }
  destruct E as [E|E]; rewrite E, step_raise in H; discriminate.
Qed.

(** X14.  The outcome of the trace at a pixel: without lenses it raises
    [IndexError]; with lenses it returns exactly when the camera has two
    pixels or more across ([M = res//2] is not 0), the wavenumber is not 0
    and no lens has a refractive index of 0, and in every other case it
    raises [ZeroDivisionError]. *)
Theorem field_tracing_reverse_outcome
    (k0 : R) (M : Z) (ls : list Lens) (xx yy : R) :
  (ls = [] -> trace k0 M ls xx yy = Raise IndexError) /\
  (ls <> [] ->
   ((exists r, trace k0 M ls xx yy = Ok r) <->
    M <> 0%Z /\ k0 <> 0 /\ Forall (fun lens => RI lens <> 0) ls) /\
   ((forall r, trace k0 M ls xx yy <> Ok r) ->
    trace k0 M ls xx yy = Raise ZeroDivisionError)).
Proof.
  split.
  - intros ->. reflexivity.
  - intros Hne.
    assert (Hrev : rev ls <> []).
    { intros E. apply Hne. rewrite <- (rev_involutive ls), E. reflexivity. }
    assert (Hcases : (exists r, trace k0 M ls xx yy = Ok r) \/
                     trace k0 M ls xx yy = Raise ZeroDivisionError).
    { unfold trace, field_tracing_reverse.
      rewrite reverse_lenses_ok. cbn [rbind].
      destruct (rev ls) as [|l0 rest] eqn:Erev; [contradiction|].
      change (index (l0 :: rest) 0) with (Ok l0). cbn [rbind].
      unfold pydiv.
      destruct (Req_dec_T (IZR M) 0); [right; reflexivity|].
      cbn [rbind].
      destruct (@trace_fold_outcome k0 (k0 * NA l0 / IZR M)
                  (direction_after (length ls) (length ls))
                  (np_sqrt (fadd (Fin (xx ^ 2)) (Fin (yy ^ 2))))
                  (Fin xx) (Fin yy) (l0 :: rest) 0%nat
                  (mkTraceState [] [] (Fin 1)))
        as [(st & Hfold & Hlen)|Hfold].
      { rewrite direction_after_length, <- Erev, length_rev. simpl. lia. }
      { reflexivity. }
      - unfold step in Hfold. rewrite Hfold. cbn [rbind].
        destruct (traced_lenses st) as [|t0 done] eqn:Est;
          [discriminate|].
        rewrite getitem_last. cbn [rbind]. left. eauto.
      - unfold step in Hfold. rewrite Hfold. right. reflexivity. }
    split.
    + split.
      * intros [[[[done jones] T] apod] Hok].
        split; [|split].
        -- intros ->. revert Hok. unfold trace, field_tracing_reverse.
           rewrite reverse_lenses_ok. cbn [rbind].
           destruct (rev ls) as [|l0 rest]; [contradiction|].
           unfold index at 1. cbn [nth_error rbind]. unfold pydiv at 1.
           destruct (Req_dec_T (IZR 0) 0) as [_|Hn];
             [discriminate|exfalso; apply Hn; reflexivity].
        -- revert Hok. unfold trace, field_tracing_reverse.
           rewrite reverse_lenses_ok. cbn [rbind].
           destruct (rev ls) as [|l0 rest]; [contradiction|].
           unfold index at 1. cbn [nth_error rbind].
           destruct (pydiv (k0 * NA l0) (IZR M)) as [del_K|e];
             [cbn [rbind]|discriminate].
           match goal with |- rbind ?f _ = _ -> _ =>
             destruct f as [st|e] eqn:Ef end; [|discriminate].
           intros _. apply trace_needs_wavenumber in Ef. exact Ef.
        -- apply field_tracing_reverse_ok in Hok.
           destruct Hok as [Hmap [Hacc _]].
           apply Forall_forall. intros lens Hin.
           apply in_rev in Hin. rewrite <- Hmap in Hin.
           apply in_map_iff in Hin. destruct Hin as (t & <- & Ht).
           exact (proj1 (proj1 (Forall_forall _ _) Hacc t Ht)).
      * intros (HM & Hk0 & Hri).
        apply field_tracing_reverse_total; assumption.
    + intros Hno. destruct Hcases as [[r Hr]|H]; [|exact H].
      exfalso. exact (Hno r Hr).
Qed.

(** In a system without tilted lenses a pass hands the azimuth on. *)
Lemma trace_step_azimuth (k0 del_K : R) (rd : list Z) (RR xx yy : fval)
    (st st' : trace_state) (i : nat) (lens : Lens) :
  step k0 del_K rd RR xx yy (Ok st) (i, lens) = Ok st' ->
  rot lens = 0 ->
  Forall (fun t => rot (t_lens t) = 0 /\ phi t = np_arctan2 yy xx)
         (traced_lenses st) ->
  Forall (fun t => rot (t_lens t) = 0 /\ phi t = np_arctan2 yy xx)
         (traced_lenses st').
Proof.
  unfold step, trace_step. cbn [rbind].
  destruct (step_dir rd i) as [dir|e]; [cbn [rbind]|discriminate].
  intros H Hrot Hall.
  assert (Hlast : forall tmp,
            last (map Some (traced_lenses st)) None = Some tmp ->
            rot (t_lens tmp) = 0 /\ phi tmp = np_arctan2 yy xx).
  { intros tmp Hl.
    destruct (@exists_last _ (traced_lenses st)) as (l' & t & E).
    { intros E. rewrite E in Hl. discriminate. }
    rewrite E, last_some_snoc in Hl. injection Hl as <-.
    rewrite E in Hall. apply Forall_app in Hall.
    destruct Hall as [_ Hall]. inversion Hall. assumption. }
  match type of H with rbind ?b _ = _ =>
    assert (Hb : forall th ph jones apod,
              b = Ok (th, ph, jones, apod) -> ph = np_arctan2 yy xx)
  end.
  { intros th ph jones apod Eb. destruct i as [|i].
    - unfold enter in Eb.
      destruct (pydiv del_K (k0 * RI lens)); [|discriminate].
      cbn [rbind] in Eb. congruence.
    - destruct (last (map Some (traced_lenses st)) None) as [tmp|] eqn:El;
        [|discriminate].
      destruct (Hlast tmp eq_refl) as [Hr Hp].
      destruct (step_mode (S i)).
      + unfold collimate in Eb. congruence.
      + unfold focus in Eb. rewrite Hrot, Hr in Eb.
        destruct (Req_dec_T 0 0) as [_|Hn];
          [|exfalso; apply Hn; reflexivity].
        cbn [negb] in Eb. congruence. }
  destruct (match i with
            | 0%nat => _
            | S _ => _
            end) as [[[[th ph] jones] apod]|e] eqn:Eb;
    [cbn [rbind] in H|discriminate].
  destruct (accept lens th) as [th'|e]; [cbn [rbind] in H|discriminate].
  injection H as <-. cbn [traced_lenses].
  apply Forall_app. split; [exact Hall|].
  constructor; [|constructor]. cbn [t_lens phi].
  split; [exact Hrot|]. exact (Hb th ph jones apod eq_refl).
Qed.

Lemma trace_fold_azimuth (k0 del_K : R) (rd : list Z) (RR xx yy : fval)
    (l : list Lens) :
  Forall (fun lens => rot lens = 0) l ->
  forall (k : nat) (st st' : trace_state),
    fold_left (step k0 del_K rd RR xx yy)
              (combine (seq k (length l)) l) (Ok st) = Ok st' ->
    Forall (fun t => rot (t_lens t) = 0 /\ phi t = np_arctan2 yy xx)
           (traced_lenses st) ->
    Forall (fun t => rot (t_lens t) = 0 /\ phi t = np_arctan2 yy xx)
           (traced_lenses st').
Proof.
  induction 1 as [|lens l Hlens _ IH]; intros k st st' Hfold Hall.
  - injection Hfold as <-. exact Hall.
  - cbn [length seq combine fold_left] in Hfold.
    destruct (step k0 del_K rd RR xx yy (Ok st) (k, lens))
      as [st1|e] eqn:E1; [|rewrite step_raise in Hfold; discriminate].
    apply (IH (S k) st1 st' Hfold).
    eapply trace_step_azimuth; [exact E1|exact Hlens|exact Hall].
Qed.

(** X16.  In a system without tilted lenses (every [rot] is 0) the azimuth
    is the same at every lens: each [lens.phi] is the [arctan2(yy, xx)] of
    the pixel, so the trace never leaves the meridional plane. *)
Theorem untilted_trace_keeps_azimuth
    (k0 : R) (M : Z) (ls : list Lens) (xx yy : R)
    (done : list traced) (jones : list (mat3 cval)) (T : mat3 cval)
    (apod : fval) :
  Forall (fun lens => rot lens = 0) ls ->
  trace k0 M ls xx yy = Ok (done, jones, T, apod) ->
  length done = length ls /\
  Forall (fun t => phi t = np_arctan2 (Fin yy) (Fin xx)) done.
Proof.
  intros Hrot Hok.
  assert (Hlen : length done = length ls).
  { apply field_tracing_reverse_ok in Hok. destruct Hok as [Hmap _].
    rewrite <- (length_map t_lens), Hmap. apply length_rev. }
  split; [exact Hlen|].
  revert Hok. unfold trace, field_tracing_reverse.
  rewrite reverse_lenses_ok. cbn [rbind].
  destruct (index (rev ls) 0) as [l0|e]; [cbn [rbind]|discriminate].
  destruct (pydiv (k0 * NA l0) (IZR M)) as [del_K|e];
    [cbn [rbind]|discriminate].
  match goal with |- rbind ?f _ = _ -> _ =>
    destruct f as [st|e] eqn:Ef end; [cbn [rbind]|discriminate].
  destruct (PyList.getitem (traced_lenses st) (-1)) as [tl|e];
    [cbn [rbind]|discriminate].
  intros H. injection H as <- _ _ _.
  assert (Hrev : Forall (fun lens => rot lens = 0) (rev ls)).
  { apply Forall_forall. intros x Hx. apply in_rev in Hx.
    exact (proj1 (Forall_forall _ _) Hrot x Hx). }
  assert (Hall : Forall (fun t => rot (t_lens t) = 0 /\
                                  phi t = np_arctan2 (Fin yy) (Fin xx))
                        (traced_lenses st)).
  { eapply trace_fold_azimuth; [exact Hrev|exact Ef|constructor]. }
  apply Forall_forall. intros t Ht.
  exact (proj2 (proj1 (Forall_forall _ _) Hall t Ht)).
Qed.

End TracingMore.

Lemma field_tracing_reverse_outcome_witness :
  let ls := [mkLens (27 / 20) (7 / 5) 0] in
  exists r,
    field_tracing_reverse SampleOptics.R_x SampleOptics.rotation
      SampleOptics.rotation SampleOptics.rotation SampleOptics.Fresnel
      SampleOptics.inv SampleOptics.multidot 1 1 ls 0 0 = Ok r.
Proof.
  intros ls.
  assert (Hne : ls <> []) by discriminate.
  destruct (@field_tracing_reverse_outcome
              SampleOptics.R_x SampleOptics.rotation SampleOptics.rotation
              SampleOptics.rotation SampleOptics.Fresnel SampleOptics.inv
              SampleOptics.multidot 1 1 ls 0 0) as [_ H].
  destruct (H Hne) as [[_ Hok] _]. apply Hok.
  split; [discriminate|]. split; [exact R1_neq_R0|].
  constructor; [|constructor]. cbn [RI].
  apply Rgt_not_eq. apply Rdiv_lt_0_compat; [exact (IZR_lt 0 7 eq_refl)|
                                             exact (IZR_lt 0 5 eq_refl)].
Defined.

Lemma untilted_trace_keeps_azimuth_witness :
  let lens := mkLens (/ sqrt 2) 1 0 in
  Forall (fun t => phi t = np_arctan2 (Fin 1) (Fin 1))
    [mkTraced lens (Fin (PI / 2)) NaN (np_arctan2 (Fin 1) (Fin 1))].
Proof.
  intros lens.
  destruct sample_trace as (jones & apod & Hrun).
  assert (Hrot : Forall (fun l => rot l = 0%R) [lens])
    by (constructor; [reflexivity|constructor]).
  exact (proj2 (@untilted_trace_keeps_azimuth
                  SampleOptics.R_x SampleOptics.rotation
                  SampleOptics.rotation SampleOptics.rotation
                  SampleOptics.Fresnel SampleOptics.inv
                  SampleOptics.multidot 1 1 [lens] 1 1 _ jones _ apod
                  Hrot Hrun)).
Defined.

(** ** [make_MTF]: padding, window and base frequency *)

Section PaddingFacts.

Lemma slice_pad1 (A : Type) (z : A) (p : nat) (l : list A) :
  Slice.slice (pad1 z p l) (Z.of_nat p) (Z.of_nat p + Z.of_nat (length l))
  = l.
Proof.
  unfold Slice.slice, Slice.bound, pad1.
  rewrite !length_app, !repeat_length.
  destruct (Z.ltb_spec (Z.of_nat p) 0); [lia|].
  destruct (Z.ltb_spec (Z.of_nat p + Z.of_nat (length l)) 0); [lia|].
  rewrite !Z.min_l by lia.
  rewrite Nat2Z.id.
  replace (Z.to_nat (Z.of_nat p + Z.of_nat (length l)) - p)%nat
    with (length l) by lia.
  rewrite skipn_app, repeat_length, Nat.sub_diag.
  rewrite skipn_all2 by (rewrite repeat_length; lia).
  cbn [skipn app].
  rewrite firstn_app, Nat.sub_diag, firstn_all. cbn [firstn].
  apply app_nil_r.
Qed.

Lemma length_pad1 (A : Type) (z : A) (p : nat) (l : list A) :
  length (pad1 z p l) = (length l + 2 * p)%nat.
Proof. unfold pad1. rewrite !length_app, !repeat_length. lia. Qed.

Lemma length_shift1 (A : Type) (l : list A) : length (shift1 l) = length l.
Proof.
  unfold shift1. rewrite length_app, length_skipn, length_firstn.
  assert (length l / 2 <= length l)%nat
    by (apply Nat.Div0.div_le_upper_bound; lia).
  lia.
Qed.

Lemma length_fftshift (A : Type) (v : volume A) :
  length (fftshift v) = length v.
Proof.
  unfold fftshift. rewrite !length_map. apply length_shift1.
Qed.

(** The window of [make_MTF] on the padded array is the array that was
    padded. *)
Lemma pad_then_crop_run (n : nat) (v : volume fval) (p : Z) :
  cubic n v -> (0 <= p)%Z ->
  exists w,
    np_pad v p = Ok w /\
    length w = (n + 2 * Z.to_nat p)%nat /\
    Slice.cube w p (p + Z.of_nat n) = v.
Proof.
  intros [Hlen Hall] Hp. unfold np_pad.
  destruct (Z.ltb_spec p 0); [lia|].
  set (w := Z.to_nat p).
  set (zero_row := repeat (Fin 0) (length (hd [] (hd [] v)) + 2 * w)).
  set (zero_plane := repeat zero_row (length (hd [] v) + 2 * w)).
  eexists. split; [reflexivity|]. split.
  - rewrite length_pad1, length_map, Hlen. reflexivity.
  - unfold Slice.cube.
    assert (Ep : p = Z.of_nat w) by (unfold w; lia).
    rewrite Ep.
    assert (E1 : forall (A : Type) (z : A) (l : list A),
              length l = n ->
              Slice.slice (pad1 z w l) (Z.of_nat w)
                          (Z.of_nat w + Z.of_nat n) = l).
    { intros A z l <-. apply slice_pad1. }
    rewrite E1 by (rewrite length_map; exact Hlen).
    rewrite map_map.
    rewrite <- (map_id v) at 2. apply map_ext_in.
    intros plane Hin.
    destruct (proj1 (Forall_forall _ _) Hall plane Hin) as [Hpl Hrows].
    rewrite E1 by (rewrite length_map; exact Hpl).
    rewrite map_map.
    rewrite <- (map_id plane) at 2. apply map_ext_in.
    intros row Hrow.
    apply E1. exact (proj1 (Forall_forall _ _) Hrows row Hrow).
Qed.

(** X17.  Padding and window agree: [np.pad] by [padding] followed by the
    window [padding:padding+res] on every axis, as [make_MTF] cuts it for
    [PSF_poisson] and [PSF_readout], gives back the array of shape
    (res, res, res) that was padded, and the padded array has
    [res + 2*padding] planes. *)
Theorem pad_then_crop (n : nat) (v : volume fval) (p : Z) :
  cubic n v -> (0 <= p)%Z ->
  exists w,
    np_pad v p = Ok w /\
    length w = (n + 2 * Z.to_nat p)%nat /\
    Slice.cube w p (p + Z.of_nat n) = v.
Proof. exact (@pad_then_crop_run n v p). Qed.

Lemma pad_then_crop_witness :
  exists w,
    np_pad [[[Fin 1]]] 1 = Ok w /\
    length w = 3%nat /\
    Slice.cube w 1 (1 + 1) = [[[Fin 1]]].
Proof.
  assert (Hc : cubic 1 [[[Fin 1]]]).
  { split; [reflexivity|]. repeat constructor. }
  assert (Hp : (0 <= 1)%Z) by lia.
  exact (@pad_then_crop 1 [[[Fin 1]]] 1 Hc Hp).
Defined.

End PaddingFacts.

Section MakeMTFMore.

Variable add_noise : volume fval -> R -> R -> R -> volume fval * volume fval.
Variable fftn : volume fval -> volume cval.

Local Open Scope R_scope.

Lemma length_centred_MTF (v : volume fval) :
  (forall u, length (fftn u) = length u) ->
  length (MTF.centred_MTF fftn v) = length v.
Proof.
  intros H. unfold MTF.centred_MTF.
  rewrite !length_map, length_fftshift, H. apply length_fftshift.
Qed.

(** X18.  The outcome of [make_MTF].  An OTF resolution below the camera
    resolution makes the padding negative: [np.pad] raises [ValueError]
    and nothing is stored.  Otherwise, with noise (SNR not 0), a camera
    pitch and a magnification other than 0, and an [add_noise] and an
    [fftn] that keep the number of planes, the method returns, the MTFs
    have [len(eff_PSF) + 2*padding] planes, and the base frequency is
    mag / (that number * vox). *)
Theorem make_MTF_outcome (self : MTF.attrs) :
  let padding := ((MTF.OTF_res self - res (MTF.camera self)) / 2)%Z in
  let N := (length (MTF.eff_PSF self) + 2 * Z.to_nat padding)%nat in
  ((MTF.OTF_res self < res (MTF.camera self))%Z ->
   MTF.make_MTF add_noise fftn self = (Raise ValueError, self)) /\
  ((res (MTF.camera self) <= MTF.OTF_res self)%Z ->
   MTF.SNR self <> 0 -> MTF.mag self <> 0 -> vox (MTF.camera self) <> 0 ->
   MTF.eff_PSF self <> [] ->
   (forall v a b c, length (fst (add_noise v a b c)) = length v) ->
   (forall v, length (fftn v) = length v) ->
   exists s' m,
     MTF.make_MTF add_noise fftn self = (Ok tt, s') /\
     MTF.MTF_readout s' = Some m /\ length m = N /\
     MTF.base_freq s' =
       Some (MTF.mag self / (INR N * vox (MTF.camera self)))).
Proof.
  intros padding N. split.
  - intros Hlt.
    assert (Hneg : (padding < 0)%Z).
    { unfold padding. apply Z.div_lt_upper_bound; lia. }
    unfold MTF.make_MTF, bind, get, lift, np_pad. fold padding.
    destruct (Z.ltb_spec padding 0); [reflexivity|lia].
  - intros Hle Hsnr Hmag Hvox Hne Hnoise Hfft.
    assert (Hpos : (0 <= padding)%Z).
    { unfold padding. apply Z.div_pos; lia. }
    unfold MTF.make_MTF.
    erewrite bind_ok by reflexivity.
    fold padding.
    destruct (np_pad (MTF.eff_PSF self) padding) as [padded|e] eqn:Epad.
    2:{ unfold np_pad in Epad.
        destruct (Z.ltb_spec padding 0); [lia|discriminate]. }
    assert (Hpl : length padded = N).
    { unfold np_pad in Epad.
      destruct (Z.ltb_spec padding 0); [lia|].
      injection Epad as <-. rewrite length_pad1, length_map. reflexivity. }
    erewrite bind_ok by reflexivity.
    destruct (Req_dec_T (MTF.SNR self) 0) as [E|_]; [contradiction|].
    destruct (add_noise padded (MTF.SNR self ^ 2)
                (offset (MTF.camera self)) (RMS (MTF.camera self)))
      as [readout shot] eqn:En.
    assert (Hrl : length readout = N).
    { rewrite <- Hpl. rewrite <- (Hnoise padded (MTF.SNR self ^ 2)
        (offset (MTF.camera self)) (RMS (MTF.camera self))), En.
      reflexivity. }
    erewrite bind_ok by reflexivity.
    erewrite bind_ok by reflexivity.
    erewrite bind_ok by reflexivity.
    erewrite bind_ok by reflexivity.
    rewrite (pydiv_ok _ Hmag).
    erewrite bind_ok by reflexivity.
    rewrite (length_centred_MTF readout Hfft), Hrl.
    assert (HN : INR N <> 0).
    { apply not_0_INR. unfold N. destruct (MTF.eff_PSF self);
        [contradiction|simpl; lia]. }
    rewrite pydiv_ok.
    2:{ apply Rmult_integral_contrapositive_currified; [exact HN|].
        unfold Rdiv. apply Rmult_integral_contrapositive_currified;
          [exact Hvox|apply Rinv_neq_0_compat; exact Hmag]. }
    erewrite bind_ok by reflexivity.
    eexists. exists (MTF.centred_MTF fftn readout).
    split; [reflexivity|]. cbn [MTF.MTF_readout MTF.base_freq].
    split; [reflexivity|].
    split; [rewrite (length_centred_MTF readout Hfft); exact Hrl|].
    f_equal. field. repeat split; assumption.
Qed.

End MakeMTFMore.

Lemma make_MTF_outcome_witness :
  exists s' m,
    MTF.make_MTF OneVoxel.mean_noise OneVoxel.dft (OneVoxel.system 20) =
      (Ok tt, s') /\
    MTF.MTF_readout s' = Some m /\ length m = 1%nat /\
    MTF.base_freq s' = Some (1 / (INR 1 * (2 / 1000000)))%R.
Proof.
  destruct (@make_MTF_outcome OneVoxel.mean_noise OneVoxel.dft
              (OneVoxel.system 20)) as [_ H].
  apply H.
  - cbn. lia.
  - cbn [MTF.SNR OneVoxel.system MTF.configure]. lra.
  - cbn [MTF.mag OneVoxel.system MTF.configure]. lra.
  - cbn [MTF.camera OneVoxel.system MTF.configure vox OneVoxel.cam]. lra.
  - discriminate.
  - intros v a b c. reflexivity.
  - intros v. unfold OneVoxel.dft. apply length_map.
Defined.
(** ** [make_MTF] and [analyze]: the centre of the MTF *)

Section CentreFacts.

Import MTF Analyze.

(** [np.fft.fftshift] moves the first sample to the index [n//2]. *)
Lemma shift1_centre (A : Type) (l : list A) :
  l <> [] -> nth_error (shift1 l) (length l / 2) = nth_error l 0.
Proof.
  intros Hne. unfold shift1.
  assert (Hn : (1 <= length l)%nat)
    by (destruct l; [contradiction|simpl; lia]).
  assert (Hh : (length l / 2 < length l)%nat)
    by (apply Nat.div_lt; lia).
  rewrite nth_error_app2 by (rewrite length_skipn; lia).
  rewrite length_skipn.
  replace (length l / 2 - (length l - (length l - length l / 2)))%nat
    with 0%nat by lia.
  destruct l as [|x t]; [contradiction|].
  assert (Hk : (length (x :: t) - length (x :: t) / 2 <> 0)%nat) by lia.
  destruct (length (x :: t) - length (x :: t) / 2)%nat; [contradiction|].
  reflexivity.
Qed.

Lemma fftshift_centre (A : Type) (n : nat) (v : volume A) :
  cubic n v -> (1 <= n)%nat ->
  voxel (fftshift v) (n / 2) (n / 2) (n / 2) = voxel v 0 0 0.
Proof.
  intros [Hlen Hall] Hn. unfold voxel, fftshift.
  assert (Hne : forall (B : Type) (l : list B), length l = n -> l <> []).
  { intros B l Hl ->. simpl in Hl. lia. }
  rewrite !nth_error_map. rewrite <- Hlen at 1.
  rewrite shift1_centre by (apply Hne; exact Hlen).
  destruct v as [|plane v']; [simpl in Hlen; lia|].
  cbn [nth_error option_map].
  inversion Hall as [|? ? [Hpl Hrows] _]. subst.
  rewrite nth_error_map. rewrite <- Hpl at 1.
  rewrite shift1_centre by (apply (Hne _ _ Hpl)).
  destruct plane as [|row plane']; [simpl in Hpl; lia|].
  cbn [nth_error option_map].
  inversion Hrows as [|? ? Hrow _]. subst.
  rewrite <- Hrow at 1.
  apply shift1_centre. apply (Hne _ _ Hrow).
Qed.

Lemma cubic_vmap (A B : Type) (f : A -> B) (n : nat) (v : volume A) :
  cubic n v -> cubic n (map (map (map f)) v).
Proof.
  intros [Hlen Hall]. split; [rewrite length_map; exact Hlen|].
  apply Forall_map. revert Hall. apply Forall_impl.
  intros plane [Hpl Hrows]. split; [rewrite length_map; exact Hpl|].
  apply Forall_map. revert Hrows. apply Forall_impl.
  intros row Hrow. rewrite length_map. exact Hrow.
Qed.

Lemma cubic_shift1_rows (A : Type) (n : nat) (l : list (list A)) :
  Forall (fun row => length row = n) l ->
  Forall (fun row => length row = n) (shift1 l).
Proof.
  intros H. unfold shift1. apply Forall_app. split.
  - apply Forall_forall. intros x Hx.
    apply (proj1 (Forall_forall _ _) H).
    rewrite <- (firstn_skipn (length l - length l / 2) l).
    apply in_or_app. right. exact Hx.
  - apply Forall_forall. intros x Hx.
    apply (proj1 (Forall_forall _ _) H).
    rewrite <- (firstn_skipn (length l - length l / 2) l).
    apply in_or_app. left. exact Hx.
Qed.

Lemma cubic_fftshift (A : Type) (n : nat) (v : volume A) :
  cubic n v -> cubic n (fftshift v).
Proof.
  intros [Hlen Hall]. split; [rewrite length_fftshift; exact Hlen|].
  unfold fftshift. rewrite map_map.
  apply Forall_map.
  assert (Hs : Forall (fun plane =>
                length plane = n /\
                Forall (fun row => length row = n) plane) (shift1 v)).
  { unfold shift1. apply Forall_app. split.
    - apply Forall_forall. intros x Hx.
      apply (proj1 (Forall_forall _ _) Hall).
      rewrite <- (firstn_skipn (length v - length v / 2) v).
      apply in_or_app. right. exact Hx.
    - apply Forall_forall. intros x Hx.
      apply (proj1 (Forall_forall _ _) Hall).
      rewrite <- (firstn_skipn (length v - length v / 2) v).
      apply in_or_app. left. exact Hx. }
  revert Hs. apply Forall_impl.
  intros plane [Hpl Hrows]. split.
  - rewrite length_map, length_shift1. exact Hpl.
  - apply Forall_map. apply cubic_shift1_rows in Hrows.
    revert Hrows. apply Forall_impl.
    intros row Hrow. rewrite length_shift1. exact Hrow.
Qed.

Lemma mapM_ok (A B : Type) (f : A -> result B) (g : A -> B) (l : list A) :
  (forall x, In x l -> f x = Ok (g x)) -> mapM f l = Ok (map g l).
Proof.
  induction l as [|x t IH]; intros H; [reflexivity|].
  cbn [mapM map]. rewrite (H x) by (left; reflexivity). cbn [rbind].
  rewrite IH by (intros y Hy; apply H; right; exact Hy).
  reflexivity.
Qed.

(** The three profiles of a cubic array start at its centre voxel. *)
Lemma profiles_start_at_centre (n : nat) (p : volume fval)
    (c : fval) :
  cubic n p -> (1 <= n)%nat ->
  voxel p (n / 2) (n / 2) (n / 2) = Some c ->
  exists xs ys zs,
    profile_x p (n / 2) = Ok (c :: xs) /\
    profile_y p (n / 2) = Ok (c :: ys) /\
    profile_z p (n / 2) = Ok (c :: zs).
Proof.
  intros [Hlen Hall] Hn Hc.
  set (N := (n / 2)%nat) in *.
  assert (HN : (N < n)%nat) by (apply Nat.div_lt; lia).
  assert (Hidx : forall (B : Type) (l : list B) (d : B),
            length l = n -> index l N = Ok (nth N l d)).
  { intros B l d Hl. unfold index.
    rewrite (nth_error_nth' l d) by lia. reflexivity. }
  assert (Hskip : forall (B : Type) (l : list B) (d : B),
            length l = n -> skipn N l = nth N l d :: skipn (S N) l).
  { intros B l d Hl. apply skipn_cons_nth. lia. }
  unfold voxel in Hc.
  rewrite (nth_error_nth' p []) in Hc by lia.
  set (plane := nth N p []) in *.
  assert (Hplane : length plane = n /\
                   Forall (fun row => length row = n) plane).
  { apply (proj1 (Forall_forall _ _) Hall). apply nth_In. lia. }
  destruct Hplane as [Hpl Hrows].
  rewrite (nth_error_nth' plane []) in Hc by lia.
  set (row := nth N plane []) in *.
  assert (Hrow : length row = n).
  { apply (proj1 (Forall_forall _ _) Hrows). apply nth_In. lia. }
  rewrite (nth_error_nth' row NaN) in Hc by lia.
  injection Hc as Hc.
  exists (map (fun r => nth N r NaN) (skipn (S N) plane)).
  exists (map (fun pl => nth N (nth N pl []) NaN) (skipn (S N) p)).
  exists (skipn (S N) row).
  split; [|split].
  - unfold profile_x. rewrite (Hidx _ p [] Hlen). cbn [rbind].
    fold plane.
    rewrite (mapM_ok _ (fun r => nth N r NaN)).
    + rewrite (Hskip _ plane [] Hpl). cbn [map]. fold row.
      rewrite Hc. reflexivity.
    + intros r Hr. apply Hidx.
      apply (proj1 (Forall_forall _ _) Hrows).
      rewrite <- (firstn_skipn N plane). apply in_or_app. right. exact Hr.
  - unfold profile_y.
    rewrite (mapM_ok _ (fun pl => nth N (nth N pl []) NaN)).
    + rewrite (Hskip _ p [] Hlen). cbn [map]. fold plane. fold row.
      rewrite Hc. reflexivity.
    + intros pl Hin.
      assert (Hpl' : length pl = n /\
                     Forall (fun row => length row = n) pl).
      { apply (proj1 (Forall_forall _ _) Hall).
        rewrite <- (firstn_skipn N p). apply in_or_app. right. exact Hin. }
      destruct Hpl' as [Hl1 Hr1].
      rewrite (Hidx _ pl [] Hl1). cbn [rbind]. apply Hidx.
      apply (proj1 (Forall_forall _ _) Hr1). apply nth_In. lia.
  - unfold profile_z. rewrite (Hidx _ p [] Hlen). cbn [rbind].
    fold plane. rewrite (Hidx _ plane [] Hpl). cbn [rbind]. fold row.
    rewrite (Hskip _ row NaN Hrow), Hc. reflexivity.
Qed.

(** X19.  [analyze] starts at the zero frequency.  For a transform of
    shape (n, n, n), the MTF that [make_MTF] builds as
    [np.abs(np.fft.fftshift(...))] holds at the index [n//2] of every axis
    the magnitude of the sample (0, 0, 0) of the transform, and each of the
    three profiles that [analyze] reads from [N = len//2] outwards begins
    with that value. *)
Theorem analyze_starts_at_zero_frequency
    (n : nat) (w : volume cval) (dc : cval) :
  cubic n w -> (1 <= n)%nat -> voxel w 0 0 0 = Some dc ->
  let mtf := map (map (map cabs)) (fftshift w) in
  let N := (length mtf / 2)%nat in
  voxel mtf N N N = Some (cabs dc) /\
  exists xs ys zs,
    profile_x mtf N = Ok (cabs dc :: xs) /\
    profile_y mtf N = Ok (cabs dc :: ys) /\
    profile_z mtf N = Ok (cabs dc :: zs).
Proof.
  intros Hc Hn Hdc mtf N.
  assert (Hcm : cubic n mtf).
  { unfold mtf. apply cubic_vmap, cubic_fftshift. exact Hc. }
  assert (HN : N = (n / 2)%nat).
  { unfold N. rewrite (proj1 Hcm). reflexivity. }
  assert (Hv : voxel mtf N N N = Some (cabs dc)).
  { rewrite HN. unfold mtf.
    change (map (map (map cabs)) (fftshift w))
      with (vmap cabs (fftshift w)).
    rewrite voxel_vmap, (fftshift_centre Hc Hn), Hdc. reflexivity. }
  split; [exact Hv|].
  rewrite HN in *.
  exact (profiles_start_at_centre Hcm Hn Hv).
Qed.

Lemma analyze_starts_at_zero_frequency_witness :
  let w : volume cval := [[[(Fin 3, Fin 4)]]] in
  let mtf := map (map (map cabs)) (fftshift w) in
  voxel mtf (length mtf / 2) (length mtf / 2) (length mtf / 2) =
  Some (cabs (Fin 3, Fin 4)).
Proof.
  intros w mtf.
  assert (Hc : cubic 1 w).
  { split; [reflexivity|]. repeat constructor. }
  assert (Hn : (1 <= 1)%nat) by lia.
  exact (proj1 (@analyze_starts_at_zero_frequency 1 w (Fin 3, Fin 4)
                  Hc Hn eq_refl)).
Defined.

End CentreFacts.

(** ** [analyze]: what it changes and how it fails *)

Section AnalyzeMore.

Import MTF Analyze.

Lemma mapM_raise (A B : Type) (f : A -> result B) (l : list A) (e : pyexn) :
  (forall x e', f x = Raise e' -> e' = IndexError) ->
  mapM f l = Raise e -> e = IndexError.
Proof.
  intros Hf. induction l as [|x t IH]; cbn [mapM]; [discriminate|].
  destruct (f x) as [y|e'] eqn:E; cbn [rbind].
  - destruct (mapM f t) as [ys|e'']; cbn [rbind]; [discriminate|].
    intros H. injection H as <-. apply IH. reflexivity.
  - intros H. injection H as <-. apply (Hf x e' E).
Qed.

Lemma mapM_in (A B : Type) (f : A -> result B) (l : list A) :
  forall ys, mapM f l = Ok ys ->
  forall y, In y ys -> exists x, In x l /\ f x = Ok y.
Proof.
  induction l as [|x t IH]; cbn [mapM]; intros ys H y Hy.
  - injection H as <-. destruct Hy.
  - destruct (f x) as [y0|e] eqn:E; cbn [rbind] in H; [|discriminate].
    destruct (mapM f t) as [ys0|e]; cbn [rbind] in H; [|discriminate].
    injection H as <-. destruct Hy as [<-|Hy].
    + exists x. split; [left; reflexivity|exact E].
    + destruct (IH ys0 eq_refl y Hy) as (x' & Hx' & Hf).
      exists x'. split; [right; exact Hx'|exact Hf].
Qed.

Lemma index_raise (A : Type) (l : list A) (i : nat) (e : pyexn) :
  index l i = Raise e -> e = IndexError.
Proof.
  unfold index. destruct (nth_error l i); [discriminate|].
  intros H. injection H as <-. reflexivity.
Qed.

Lemma index_in (A : Type) (l : list A) (i : nat) (x : A) :
  index l i = Ok x -> In x l.
Proof.
  unfold index. destruct (nth_error l i) eqn:E; [|discriminate].
  intros H. injection H as <-. eapply nth_error_In. exact E.
Qed.

Lemma in_volume (A : Type) (v : volume A) (plane : list (list A))
    (row : list A) (x : A) :
  In plane v -> In row plane -> In x row -> In x (concat (concat v)).
Proof.
  intros H1 H2 H3. apply in_concat. exists row. split; [|exact H3].
  apply in_concat. exists plane. split; assumption.
Qed.

(** A profile that cannot be read raises [IndexError]. *)
Lemma profile_raise (p : volume fval) (N : nat) (e : pyexn) :
  (profile_x p N = Raise e -> e = IndexError) /\
  (profile_y p N = Raise e -> e = IndexError) /\
  (profile_z p N = Raise e -> e = IndexError).
Proof.
  split; [|split].
  - unfold profile_x.
    destruct (index p N) as [plane|e'] eqn:E; cbn [rbind].
    + apply mapM_raise. intros row e'. apply index_raise.
    + intros H. injection H as <-. apply (index_raise _ _ E).
  - unfold profile_y. apply mapM_raise. intros plane e'.
    destruct (index plane N) as [row|e''] eqn:E; cbn [rbind].
    + apply index_raise.
    + intros H. injection H as <-. apply (index_raise _ _ E).
  - unfold profile_z.
    destruct (index p N) as [plane|e'] eqn:E; cbn [rbind].
    + destruct (index plane N) as [row|e''] eqn:E2; cbn [rbind];
        [discriminate|].
      intros H. injection H as <-. apply (index_raise _ _ E2).
    + intros H. injection H as <-. apply (index_raise _ _ E).
Qed.

(** The values of the first profile are values of the array. *)
Lemma profile_x_in (p : volume fval) (N : nat) (xx : list fval) :
  profile_x p N = Ok xx ->
  forall x, In x xx -> In x (concat (concat p)).
Proof.
  unfold profile_x.
  destruct (index p N) as [plane|e] eqn:E; cbn [rbind]; [|discriminate].
  intros H x Hx.
  destruct (mapM_in _ _ H x Hx) as (row & Hrow & Hi).
  apply (in_volume p plane row).
  - apply (index_in _ _ E).
  - rewrite <- (firstn_skipn N plane). apply in_or_app. right. exact Hrow.
  - apply (index_in _ _ Hi).
Qed.

Lemma first_le0_raise (xx : list fval) (e : pyexn) :
  first_le0 xx = Raise e -> e = IndexError.
Proof.
  unfold first_le0. generalize 0%nat. induction xx as [|x t IH]; intros i H.
  - simpl in H. injection H as <-. reflexivity.
  - simpl in H. destruct (fle x (Fin 0)); [discriminate|]. apply (IH _ H).
Qed.

Lemma first_le0_none (xx : list fval) :
  (forall x, In x xx -> fle x (Fin 0) = false) ->
  first_le0 xx = Raise IndexError.
Proof.
  unfold first_le0. generalize 0%nat.
  induction xx as [|x t IH]; intros i H; simpl; [reflexivity|].
  rewrite (H x) by (left; reflexivity).
  apply IH. intros y Hy. apply H. right. exact Hy.
Qed.

Lemma fold_fmax2_nan (t : list fval) :
  forall x, In NaN (x :: t) -> fold_left fmax2 t x = NaN.
Proof.
  induction t as [|z t IH]; intros x H; cbn [fold_left].
  - destruct H as [->|[]]. reflexivity.
  - apply IH. destruct H as [->|[->|H]].
    + left. reflexivity.
    + left. destruct x; reflexivity.
    + right. exact H.
Qed.

(** X20.  A single not-a-number in [MTF_poisson] stops [analyze]: the
    maximum is then not-a-number, so is every value once the noise floor
    is taken off, no value compares as at or below 0, and the method raises
    [IndexError] with nothing stored. *)
Theorem analyze_nan_raises (self : attrs) (v : volume fval) :
  MTF_poisson self = Some v ->
  In NaN (concat (concat v)) ->
  analyze self = (Raise IndexError, self).
Proof.
  intros Hv Hnan.
  unfold analyze, bind, Analyze.attr, lift, above_floor.
  rewrite Hv.
  assert (Hm : vmax v = Ok NaN).
  { unfold vmax. destruct (concat (concat v)) as [|x t]; [destruct Hnan|].
    rewrite (fold_fmax2_nan Hnan). reflexivity. }
  rewrite Hm. cbn [rbind].
  set (poisson := map (map (map (fun x => fsub x (np_sqrt NaN)))) v).
  assert (Hall : forall x, In x (concat (concat poisson)) -> x = NaN).
  { intros x Hx. unfold poisson in Hx.
    change (map (map (map (fun x => fsub x (np_sqrt NaN)))) v)
      with (vmap (fun x => fsub x (np_sqrt NaN)) v) in Hx.
    rewrite concat_vmap in Hx. apply in_map_iff in Hx.
    destruct Hx as (y & <- & _). destruct y; reflexivity. }
  destruct (profile_x poisson (length v / 2)) as [xx|e] eqn:Ex;
    cbn [rbind].
  - rewrite first_le0_none; [reflexivity|].
    intros x Hx. rewrite (Hall x (profile_x_in _ _ Ex x Hx)). reflexivity.
  - rewrite (proj1 (profile_raise poisson (length v / 2) e) Ex).
    reflexivity.
Qed.

Lemma analyze_nan_raises_witness :
  analyze (mkAttrs 1 OneVoxel.cam [[[Fin 1]]] 20 1 None None None
                   (Some [[[NaN]]]) None (Some 1%R) None) =
  (Raise IndexError,
   mkAttrs 1 OneVoxel.cam [[[Fin 1]]] 20 1 None None None
           (Some [[[NaN]]]) None (Some 1%R) None).
Proof.
  apply (@analyze_nan_raises
           (mkAttrs 1 OneVoxel.cam [[[Fin 1]]] 20 1 None None None
                    (Some [[[NaN]]]) None (Some 1%R) None)
           [[[NaN]]] eq_refl).
  left. reflexivity.
Defined.

(** X21.  [analyze] writes [XYZ_res] and nothing else, and writes it only
    when it returns: every failure leaves the attributes as they were.
    It fails in three ways only: [AttributeError] (no MTF or no base
    frequency yet), [ValueError] (an empty MTF has no maximum) and
    [IndexError] (a profile that cannot be read or that never drops to
    0).  A base frequency of 0 is no failure: the division is NumPy's. *)
Theorem analyze_effect (self : attrs) :
  (exists e,
     analyze self = (Raise e, self) /\
     (e = AttributeError \/ e = ValueError \/ e = IndexError)) \/
  (exists r,
     analyze self =
     (Ok tt,
      mkAttrs (OTF_res self) (camera self) (eff_PSF self) (SNR self)
              (mag self) (PSF_poisson self) (PSF_readout self)
              (MTF_noiseless self) (MTF_poisson self) (MTF_readout self)
              (base_freq self) (Some r)) /\
     length r = 3%nat).
Proof.
  unfold analyze, bind, Analyze.attr, lift, above_floor.
  destruct (MTF_poisson self) as [v|] eqn:Ev; [|left; eauto].
  unfold vmax.
  destruct (concat (concat v)) as [|x0 t]; cbn [rbind]; [left; eauto 6|].
  set (poisson := map (map (map _)) v).
  set (N := (length v / 2)%nat).
  destruct (profile_x poisson N) as [xx|e] eqn:Ex; cbn [rbind].
  2:{ left. exists e. split; [reflexivity|].
      rewrite (proj1 (profile_raise poisson N e) Ex). auto. }
  destruct (first_le0 xx) as [cx|e] eqn:Ecx.
  2:{ left. exists e. split; [reflexivity|].
      rewrite (first_le0_raise _ Ecx). auto. }
  destruct (base_freq self) as [bf|] eqn:Ebf; [|left; eauto].
  destruct (profile_y poisson N) as [yy|e] eqn:Ey; cbn [rbind].
  2:{ left. exists e. split; [reflexivity|].
      rewrite (proj1 (proj2 (profile_raise poisson N e)) Ey). auto. }
  destruct (first_le0 yy) as [cy|e] eqn:Ecy.
  2:{ left. exists e. split; [reflexivity|].
      rewrite (first_le0_raise _ Ecy). auto. }
  rewrite ?Ebf.
  destruct (profile_z poisson N) as [zz|e] eqn:Ez; cbn [rbind].
  2:{ left. exists e. split; [reflexivity|].
      rewrite (proj2 (proj2 (profile_raise poisson N e)) Ez). auto. }
  destruct (first_le0 zz) as [cz|e] eqn:Ecz.
  2:{ left. exists e. split; [reflexivity|].
      rewrite (first_le0_raise _ Ecz). auto. }
  rewrite ?Ebf.
  right. eexists. unfold set_XYZ_res. rewrite Ev, Ebf.
  split; reflexivity.
Qed.

End AnalyzeMore.

(** ** [calculate_PSF]: the loop over the dipoles *)

Section DipoleLoopFacts.

Variable GUI_state : Type.
Variable setValue : Z -> GUI_state -> result GUI_state.
Variable terminal : Type.
Variable loadbar : nat -> nat -> terminal -> result terminal.
Variable make_pol : Z -> list R * list R.
Variable collected_field : vec3 R -> fval -> fval.
Variable E_0 : vec3 R -> fval -> fval -> R -> vec3 cval.
Variable dft2_volume :
  grid (vec3 cval) -> grid fval -> list R -> grid fval -> Z -> R ->
  volume fval.
Variable add_noise : volume fval -> R -> R -> R -> volume fval * volume fval.
Variable fftn : volume fval -> volume cval.
Variable save_stacks : volume fval -> MTF.attrs -> result unit.
Variable FWHM_measurement : MTF.attrs -> result (list fval).

Local Open Scope R_scope.

Let loop_pass := pass setValue loadbar collected_field E_0 dft2_volume.
Let run := calculate_PSF setValue loadbar make_pol collected_field E_0
                         dft2_volume add_noise fftn save_stacks
                         FWHM_measurement.

Lemma pass_raise (o : optics) (anisotropy : R) (camera_res : Z)
    (phi theta : list R) (l : list nat) (e : pyexn) :
  fold_left (loop_pass o anisotropy camera_res phi theta) l (Raise e) =
  Raise e.
Proof. induction l as [|i l IH]; [reflexivity|exact IH]. Qed.

(** X22.  An anisotropy other than 0 and 0.4 is not supported: neither
    branch assigns the local [Ae], and with one dipole or more the first
    pass of the loop raises [UnboundLocalError] where it reads it
    (provided the progress report of that pass returns). *)
Theorem unsupported_anisotropy_raises
    (o : optics) (ensamble : Z) (anisotropy : R) (cfg : MTF.attrs)
    (w : sinks GUI_state terminal) (phi theta : list R) :
  (forall i n t, exists t', loadbar i n t = Ok t') ->
  make_pol ensamble = (phi, theta) ->
  phi <> [] -> theta <> [] ->
  anisotropy <> 0 -> anisotropy <> 4 / 10 ->
  run (Ok o) ensamble anisotropy cfg w = Raise UnboundLocalError.
Proof.
  intros Hbar Hpol Hphi Hth H0 H4.
  unfold run, calculate_PSF. cbn [rbind]. rewrite Hpol.
  destruct phi as [|p0 phi']; [contradiction|].
  destruct theta as [|t0 theta']; [contradiction|].
  cbn [length seq fold_left].
  match goal with |- rbind (fold_left ?f ?l ?first) _ = _ =>
    assert (E : first = Raise UnboundLocalError)
  end.
  { unfold pass. cbn [rbind].
    destruct (@report_returns GUI_state setValue terminal loadbar Hbar
                0%nat (S (length phi')) w) as [w' Hw].
    cbn [length]. rewrite Hw. cbn [rbind].
    unfold index. cbn [nth_error rbind].
    unfold dipole, excitation. cbn [Ae].
    destruct (Req_dec_T anisotropy 0); [contradiction|].
    destruct (Req_dec_T anisotropy (4 / 10)); [contradiction|].
    reflexivity. }
  rewrite E.
  fold (loop_pass o anisotropy (res (MTF.camera cfg)) (p0 :: phi')
                  (t0 :: theta')).
  rewrite pass_raise. reflexivity.
Qed.

(** Each pass that returns adds one value to [tti] and one to [ani]. *)
Lemma loop_lengths (o : optics) (anisotropy : R) (camera_res : Z)
    (phi theta : list R) (n : nat) :
  forall (k : nat) (e e' : ensemble) (w w' : sinks GUI_state terminal),
    fold_left (loop_pass o anisotropy camera_res phi theta) (seq k n)
              (Ok (e, w)) = Ok (e', w') ->
    length (tti e') = (length (tti e) + n)%nat /\
    length (ani e') = (length (ani e) + n)%nat.
Proof.
  induction n as [|n IH]; intros k e e' w w' H.
  - injection H as <- _. split; lia.
  - cbn [seq fold_left] in H.
    destruct (loop_pass o anisotropy camera_res phi theta (Ok (e, w)) k)
      as [[e1 w1]|x] eqn:E1; [|rewrite pass_raise in H; discriminate].
    destruct (IH _ _ _ _ _ H) as [Ht Ha].
    assert (H1 : length (tti e1) = S (length (tti e)) /\
                 length (ani e1) = S (length (ani e))).
    { unfold loop_pass, pass in E1. cbn [rbind] in E1.
      destruct (report setValue loadbar k (length phi) w);
        [cbn [rbind] in E1|discriminate].
      destruct (index theta k); [cbn [rbind] in E1|discriminate].
      destruct (index phi k); [cbn [rbind] in E1|discriminate].
      unfold dipole in E1.
      destruct (excitation anisotropy _ o (Ae e)); [|discriminate].
      cbn [rbind] in E1. injection E1 as <- _. cbn [tti ani].
      rewrite !length_app. simpl. lia. }
    destruct H1 as [H1 H2]. rewrite Ht, Ha, H1, H2. lia.
Qed.

(** X23.  When [calculate_PSF] returns, the loop over the dipoles has
    returned, and what the method stores comes from the state the loop
    ended in: that state holds one value in [tti] and one in [ani] for
    each dipole of the ensemble, the optical efficiency stored is the mean
    of their products, and the PSF stored is the one the loop
    accumulated. *)
Theorem efficiency_averages_all_dipoles
    (o : optics) (ensamble : Z) (anisotropy : R)
    (cfg : MTF.attrs) (w w' : sinks GUI_state terminal) (out : outputs) :
  run (Ok o) ensamble anisotropy cfg w = Ok (out, w') ->
  let phi := fst (make_pol ensamble) in
  let theta := snd (make_pol ensamble) in
  let camera_res := res (MTF.camera cfg) in
  let zeros :=
    repeat (repeat (repeat (Fin 0) (Z.to_nat camera_res))
                   (Z.to_nat camera_res)) (Z.to_nat camera_res) in
  exists e : ensemble,
    fold_left (loop_pass o anisotropy camera_res phi theta)
              (seq 0 (length phi))
              (Ok (mkEnsemble [] [] zeros None, w)) = Ok (e, w') /\
    length (tti e) = length phi /\
    length (ani e) = length phi /\
    out_tti out = mean_throughput e /\
    out_PSF out = PSF e.
Proof.
  unfold run, calculate_PSF. cbn [rbind].
  destruct (make_pol ensamble) as [phi theta]. cbn [fst snd].
  match goal with |- rbind ?f _ = _ -> _ =>
    destruct f as [[e w1]|x] eqn:Ef end; [cbn [rbind]|discriminate].
  destruct (effective_PSF (PSF e) (ls_PSF o)); [cbn [rbind]|discriminate].
  match goal with |- context [MTF.make_MTF ?n ?f ?c] =>
    destruct (MTF.make_MTF n f c) as [[u|x] cfg1] end;
    [cbn [rbind]|discriminate].
  destruct (save_stacks (PSF e) cfg1); [cbn [rbind]|discriminate].
  destruct (Analyze.analyze cfg1) as [[u'|x] cfg2];
    [cbn [rbind]|discriminate].
  destruct (FWHM_measurement cfg2); [cbn [rbind]|discriminate].
  intros H. injection H as <- <-.
  exists e. split; [exact Ef|].
  apply loop_lengths in Ef. destruct Ef as [Ht Ha].
  cbn [tti ani length] in Ht, Ha. cbn [out_tti out_PSF].
  repeat split; assumption.
Qed.

(** X25.  The value sent to the progress bar at the pass [i] of [n] is a
    whole percentage from 0 to 100, never smaller than at the pass
    before, and it is 100 at the last pass and at no other. *)
Theorem progress_percentage (i n : nat) (g : GUI_state) (t : terminal) :
  (i < n)%nat ->
  let v := (100 * (Z.of_nat i + 1) / Z.of_nat n)%Z in
  report setValue loadbar i n (mkSinks (Some g) t) =
    match setValue v g with
    | Ok g' => Ok (mkSinks (Some g') t)
    | Raise _ =>
        rbind (loadbar i n t) (fun t' => Ok (mkSinks (Some g) t'))
    end /\
  (0 <= v <= 100)%Z /\
  (v = 100%Z <-> S i = n) /\
  (100 * Z.of_nat i / Z.of_nat n <= v)%Z.
Proof.
  intros Hi v.
  assert (Hn : (0 < Z.of_nat n)%Z) by lia.
  split; [reflexivity|]. split; [|split].
  - split.
    + apply Z.div_pos; lia.
    + apply Z.div_le_upper_bound; lia.
  - split.
    + intros Hv.
      assert (H : (100 * Z.of_nat n <= 100 * (Z.of_nat i + 1))%Z).
      { rewrite <- Hv at 1. rewrite Z.mul_comm.
        apply Z.mul_div_le. exact Hn. }
      lia.
    + intros <-. unfold v.
      replace (Z.of_nat i + 1)%Z with (Z.of_nat (S i)) by lia.
      apply Z.div_mul. lia.
  - apply Z.div_le_mono; lia.
Qed.

End DipoleLoopFacts.

Lemma unsupported_anisotropy_raises_witness :
  calculate_PSF SampleRun.setValue SampleRun.loadbar SampleRun.make_pol
                SampleRun.collected_field SampleOptics.E_0
                SampleRun.dft2_volume OneVoxel.mean_noise OneVoxel.dft
                SampleRun.save_stacks SampleRun.FWHM_measurement
                (Ok SampleRun.setup) 1 (2 / 10) (OneVoxel.system 20)
                (mkSinks None []) =
  Raise UnboundLocalError.
Proof.
  assert (Hbar : forall i n t, exists t', SampleRun.loadbar i n t = Ok t')
    by (intros i n t; eexists; reflexivity).
  apply (@unsupported_anisotropy_raises
           Z SampleRun.setValue (list (nat * nat)) SampleRun.loadbar
           SampleRun.make_pol SampleRun.collected_field SampleOptics.E_0
           SampleRun.dft2_volume OneVoxel.mean_noise OneVoxel.dft
           SampleRun.save_stacks SampleRun.FWHM_measurement
           SampleRun.setup 1 (2 / 10)%R (OneVoxel.system 20)
           (mkSinks None []) [0%R] [0%R] Hbar eq_refl).
  - discriminate.
  - discriminate.
  - lra.
  - lra.
Defined.

Lemma progress_percentage_witness :
  (0 <= 100 * (Z.of_nat 0 + 1) / Z.of_nat 1 <= 100)%Z.
Proof.
  assert (Hi : (0 < 1)%nat) by lia.
  exact (proj1 (proj2 (@progress_percentage Z SampleRun.setValue
                         (list (nat * nat)) SampleRun.loadbar
                         0%nat 1%nat 0%Z [] Hi))).
Defined.

(** The one-voxel configuration at a signal-to-noise ratio of 1, with a
    camera without offset and without anisotropy: a run of
    [calculate_PSF] that returns. *)
Lemma sample_make_MTF :
  exists cfg1 bf,
    MTF.make_MTF OneVoxel.mean_noise OneVoxel.dft
      (MTF.mkAttrs 1 (mkCamera 1 (2 / 1000000) 0 (14 / 10)) [[[Fin 1]]] 1 1
                   None None None None None None None) = (Ok tt, cfg1) /\
    MTF.MTF_poisson cfg1 = Some [[[Fin 1]]] /\
    MTF.base_freq cfg1 = Some bf.
Proof.
  unfold MTF.make_MTF, bind, get, lift.
  cbn [MTF.OTF_res MTF.camera MTF.eff_PSF MTF.SNR MTF.mag res offset RMS
       vox].
  change (np_pad [[[Fin 1]]] ((1 - 1) / 2)) with (Ok [[[Fin 1]]]).
  cbv iota beta.
  destruct (Req_dec_T 1 0) as [E|_]; [lra|].
  unfold OneVoxel.mean_noise. cbn [map MTF.local ret MTF.set_PSFs].
  cbv iota beta. cbn [MTF.set_MTFs]. cbv iota beta.
  unfold pydiv.
  destruct (Req_dec_T 1 0) as [E|_]; [lra|]. cbv iota beta.
  match goal with |- context [Req_dec_T ?x 0] =>
    destruct (Req_dec_T x 0) as [E|_] end.
  { exfalso. revert E. unfold MTF.centred_MTF. simpl. lra. }
  eexists. eexists. split; [reflexivity|].
  cbn [MTF.set_base_freq MTF.MTF_poisson MTF.base_freq].
  split; [|reflexivity].
  unfold MTF.centred_MTF. simpl.
  replace ((1 * (1 * (1 * 1)) + 0) * (1 * (1 * (1 * 1)) + 0) + 0 * 0)%R
    with 1%R by ring.
  rewrite sqrt_1. reflexivity.
Qed.

Lemma sample_run_returns :
  exists out w',
    calculate_PSF SampleRun.setValue SampleRun.loadbar SampleRun.make_pol
                  SampleRun.collected_field SampleOptics.E_0
                  SampleRun.dft2_volume OneVoxel.mean_noise OneVoxel.dft
                  SampleRun.save_stacks SampleRun.FWHM_measurement
                  (Ok SampleRun.setup) 1 0
                  (MTF.configure 1 (mkCamera 1 (2 / 1000000) 0 (14 / 10))
                                 [[[Fin 1]]] 1 1)
                  (mkSinks None []) = Ok (out, w').
Proof.
  unfold calculate_PSF. cbn [rbind].
  change (SampleRun.make_pol 1) with ([0%R], [0%R]). cbv iota beta.
  cbn [length seq fold_left].
  unfold pass at 1. cbn [rbind].
  unfold report. cbn [GUI term]. unfold SampleRun.loadbar. cbn [rbind].
  unfold index. cbn [nth_error rbind].
  unfold dipole, excitation.
  destruct (Req_dec_T 0 0) as [_|Hn]; [|exfalso; apply Hn; reflexivity].
  cbn [rbind PSF ls_PSF SampleRun.setup].
  match goal with |- context [effective_PSF ?P _] =>
    change P with [[[Fin (0 + 1)]]] end.
  assert (Heff : effective_PSF [[[Fin (0 + 1)]]] [[[Fin 1]]]
                 = Ok [[[Fin 1]]]).
  { unfold effective_PSF, normalise, vmax.
    cbn [concat app fold_left rbind vmap map].
    rewrite !fdiv_fin by lra. cbn [vmap2 map2 fmul].
    replace ((0 + 1) / (0 + 1) * (1 / 1))%R with 1%R by field.
    reflexivity. }
  rewrite Heff. cbn [rbind].
  cbn [MTF.configure MTF.OTF_res MTF.camera MTF.SNR MTF.mag
       MTF.PSF_poisson MTF.PSF_readout
       MTF.MTF_noiseless MTF.MTF_poisson MTF.MTF_readout MTF.base_freq
       MTF.XYZ_res].
  destruct sample_make_MTF as (cfg1 & bf & -> & Hv & Hbf).
  cbn [rbind]. unfold SampleRun.save_stacks at 1. cbn [rbind].
  assert (Hc : Analyze.first_le0 [fsub (Fin 1) (np_sqrt (Fin 1))]
               = Ok 0%nat).
  { rewrite np_sqrt_fin, sqrt_1 by lra.
    unfold Analyze.first_le0.
    cbn [Analyze.first_le0_from fsub fadd fneg].
    rewrite fle_fin_true by lra. reflexivity. }
  rewrite (@analyze_run cfg1 [[[Fin 1]]] bf (Fin 1)
             [fsub (Fin 1) (np_sqrt (Fin 1))]
             [fsub (Fin 1) (np_sqrt (Fin 1))]
             [fsub (Fin 1) (np_sqrt (Fin 1))]
             Hv Hbf eq_refl eq_refl eq_refl eq_refl).
  rewrite Hc. unfold MTF.set_XYZ_res. cbn [rbind].
  unfold SampleRun.FWHM_measurement. cbn [rbind].
  eexists. eexists. reflexivity.
Qed.

Lemma efficiency_averages_all_dipoles_witness :
  exists e : ensemble,
    length (tti e) = 1%nat /\ length (ani e) = 1%nat /\
    PSF e = [[[Fin (0 + 1)]]].
Proof.
  destruct sample_run_returns as (out & w' & Hrun).
  destruct (@efficiency_averages_all_dipoles
              Z SampleRun.setValue (list (nat * nat)) SampleRun.loadbar
              SampleRun.make_pol SampleRun.collected_field SampleOptics.E_0
              SampleRun.dft2_volume OneVoxel.mean_noise OneVoxel.dft
              SampleRun.save_stacks SampleRun.FWHM_measurement
              SampleRun.setup 1 0
              (MTF.configure 1 (mkCamera 1 (2 / 1000000) 0 (14 / 10))
                             [[[Fin 1]]] 1 1)
              (mkSinks None []) w' out Hrun)
    as (e & Hloop & Ht & Ha & _).
  exists e. split; [exact Ht|]. split; [exact Ha|].
  cbn [fst snd SampleRun.make_pol length seq fold_left] in Hloop.
  unfold pass in Hloop. cbn [rbind] in Hloop.
  unfold report in Hloop. cbn [GUI term] in Hloop.
  unfold SampleRun.loadbar in Hloop. cbn [rbind] in Hloop.
  unfold index in Hloop. cbn [nth_error rbind] in Hloop.
  unfold dipole, excitation in Hloop.
  destruct (Req_dec_T 0 0) as [_|Hn]; [|exfalso; apply Hn; reflexivity].
  cbn [rbind] in Hloop. injection Hloop as <- _. reflexivity.
Defined.

(** ** [calculate_PSF]: the excitation coefficient *)

Section ExcitationFacts.

Local Open Scope R_scope.

Lemma cauchy_schwarz_3 (p0 p1 p2 l0 l1 l2 : R) :
  p0 ^ 2 + p1 ^ 2 + p2 ^ 2 = 1 -> l0 ^ 2 + l1 ^ 2 + l2 ^ 2 = 1 ->
  Rabs (p0 * l0 + p1 * l1 + p2 * l2) <= 1.
Proof.
  intros Hp Hl.
  set (d := p0 * l0 + p1 * l1 + p2 * l2).
  assert (Hid : d ^ 2 =
                (p0 ^ 2 + p1 ^ 2 + p2 ^ 2) * (l0 ^ 2 + l1 ^ 2 + l2 ^ 2)
                - ((p0 * l1 - p1 * l0) ^ 2 + (p0 * l2 - p2 * l0) ^ 2
                   + (p1 * l2 - p2 * l1) ^ 2))
    by (unfold d; ring).
  rewrite Hp, Hl in Hid.
  pose proof (pow2_ge_0 (p0 * l1 - p1 * l0)) as H1.
  pose proof (pow2_ge_0 (p0 * l2 - p2 * l0)) as H2.
  pose proof (pow2_ge_0 (p1 * l2 - p2 * l1)) as H3.
  assert (Hd : d ^ 2 <= 1) by lra.
  apply Rabs_le. split; nra.
Qed.

(** X26.  The excitation coefficient of a dipole lies between 0 and 1.
    The average light-sheet polarisation is the base field turned by
    [alpha] about the y-axis, so for a base field of unit length (as 'p',
    's' and 'u' give) it has unit length for every [alpha]; at an
    anisotropy of 0.4 the coefficient is the magnitude of its projection
    on the unit vector of the dipole, and at an anisotropy of 0 it is
    1. *)
Theorem excitation_coefficient_bounded
    (o : optics) (alpha : R) (Ei_base : vec3 R) (dip_th dip_ph : R)
    (previous : option R) :
  (let '(e0, e1, e2) := Ei_base in e0 ^ 2 + e1 ^ 2 + e2 ^ 2 = 1) ->
  l_p o = image_space_polarization alpha Ei_base ->
  let pol := (sin dip_th * cos dip_ph, sin dip_th * sin dip_ph,
              cos dip_th) in
  (let '(l0, l1, l2) := l_p o in l0 ^ 2 + l1 ^ 2 + l2 ^ 2 = 1) /\
  excitation 0 pol o previous = Some 1 /\
  exists A : R,
    excitation (4 / 10) pol o previous = Some A /\ 0 <= A <= 1.
Proof.
  destruct Ei_base as [[e0 e1] e2]. intros He Hl pol.
  assert (Ha : sin alpha ^ 2 + cos alpha ^ 2 = 1).
  { rewrite <- !Rsqr_pow2. apply sin2_cos2. }
  assert (Hnorm : (cos alpha * e0 + 0 * e1 + - sin alpha * e2) ^ 2
                  + (0 * e0 + 1 * e1 + 0 * e2) ^ 2
                  + (sin alpha * e0 + 0 * e1 + cos alpha * e2) ^ 2 = 1).
  { replace ((cos alpha * e0 + 0 * e1 + - sin alpha * e2) ^ 2
             + (0 * e0 + 1 * e1 + 0 * e2) ^ 2
             + (sin alpha * e0 + 0 * e1 + cos alpha * e2) ^ 2)
      with ((sin alpha ^ 2 + cos alpha ^ 2) * (e0 ^ 2 + e2 ^ 2) + e1 ^ 2)
      by ring.
    rewrite Ha. lra. }
  assert (Hpol : (sin dip_th * cos dip_ph) ^ 2
                 + (sin dip_th * sin dip_ph) ^ 2 + cos dip_th ^ 2 = 1).
  { assert (H1 : sin dip_ph ^ 2 + cos dip_ph ^ 2 = 1)
      by (rewrite <- !Rsqr_pow2; apply sin2_cos2).
    assert (H2 : sin dip_th ^ 2 + cos dip_th ^ 2 = 1)
      by (rewrite <- !Rsqr_pow2; apply sin2_cos2).
    replace ((sin dip_th * cos dip_ph) ^ 2
             + (sin dip_th * sin dip_ph) ^ 2 + cos dip_th ^ 2)
      with (sin dip_th ^ 2 * (sin dip_ph ^ 2 + cos dip_ph ^ 2)
            + cos dip_th ^ 2) by ring.
    rewrite H1. lra. }
  unfold excitation. rewrite Hl. unfold image_space_polarization.
  split; [exact Hnorm|]. split.
  - destruct (Req_dec_T 0 0) as [_|Hn]; [reflexivity|].
    exfalso. apply Hn. reflexivity.
  - destruct (Req_dec_T (4 / 10) 0) as [E|_]; [lra|].
    destruct (Req_dec_T (4 / 10) (4 / 10)) as [_|Hn];
      [|exfalso; apply Hn; reflexivity].
    unfold pol. eexists. split; [reflexivity|]. split.
    + apply Rabs_pos.
    + apply cauchy_schwarz_3; assumption.
Qed.

Lemma excitation_coefficient_bounded_witness :
  let o := mkOptics [] [] [] [] [] [] [] 1
             (image_space_polarization (PI / 2) (1, 0, 0)) [] in
  exists A : R,
    excitation (4 / 10) (sin 0 * cos 0, sin 0 * sin 0, cos 0) o None
      = Some A /\ 0 <= A <= 1.
Proof.
  intros o.
  assert (He : 1 ^ 2 + 0 ^ 2 + 0 ^ 2 = 1) by lra.
  exact (proj2 (proj2 (@excitation_coefficient_bounded
                         o (PI / 2) (1, 0, 0) 0 0 None He eq_refl))).
Defined.

End ExcitationFacts.

(** ** [field_tracing_reverse] and [calculate_PSF]: acceptance and
    obliqueness *)

Section AcceptanceFacts.

Local Open Scope R_scope.

(** X27.  The acceptance test of a lens and the back aperture
    obliqueness.  For a lens with 0 < NA < RI and an angle from 0 to 90
    degrees, a pixel beyond the acceptance angle arcsin(NA/RI) is
    invalidated and gets an obliqueness of 0, and a pixel within it keeps
    its angle and gets the obliqueness 1/cos(theta), which lies between 1
    and 1/sqrt(1 - (NA/RI)^2).  For a lens with NA > RI the acceptance
    angle is not-a-number and the test rejects nothing. *)
Theorem acceptance_and_obliqueness (lens : Lens) :
  (0 < RI lens < NA lens -> forall th, accept lens th = Ok th) /\
  (0 < NA lens < RI lens ->
   forall (r : R) (ph : fval), 0 <= r <= PI / 2 ->
   let th_max := asin (NA lens / RI lens) in
   (th_max < r ->
    accept lens (Fin r) = Ok NaN /\
    back_aperture_obliqueness (mkTraced lens (Fin r) NaN ph) = Fin 0) /\
   (r <= th_max ->
    accept lens (Fin r) = Ok (Fin r) /\
    back_aperture_obliqueness (mkTraced lens (Fin r) (Fin r) ph)
      = Fin (1 / cos r) /\
    1 <= 1 / cos r <= 1 / sqrt (1 - (NA lens / RI lens) ^ 2))).
Proof.
  split.
  - intros [Hri Hna] th. unfold accept.
    rewrite pydiv_ok by lra. cbn [rbind].
    assert (Hq : 1 < NA lens / RI lens).
    { apply (Rmult_lt_reg_r (RI lens)); [exact Hri|].
      unfold Rdiv. rewrite Rmult_assoc, Rinv_l, Rmult_1_r, Rmult_1_l by lra.
      exact Hna. }
    assert (E : np_arcsin (Fin (NA lens / RI lens)) = NaN).
    { unfold np_arcsin.
      destruct (Rle_dec (-1) (NA lens / RI lens)); [|reflexivity].
      destruct (Rle_dec (NA lens / RI lens) 1); [lra|reflexivity]. }
    rewrite E. destruct th; reflexivity.
  - intros [Hna Hri] r ph Hr th_max.
    set (q := NA lens / RI lens) in *.
    assert (Hq : 0 < q < 1).
    { unfold q. split.
      - apply Rdiv_lt_0_compat; lra.
      - apply (Rmult_lt_reg_r (RI lens)); [lra|].
        unfold Rdiv. rewrite Rmult_assoc, Rinv_l, Rmult_1_r, Rmult_1_l
          by lra. exact Hri. }
    assert (Hacc : forall x, accept lens (Fin x) =
              Ok (if fgt (Fin x) (Fin th_max) then NaN else Fin x)).
    { intros x. unfold accept. rewrite pydiv_ok by lra. cbn [rbind].
      fold q. rewrite np_arcsin_fin by lra. reflexivity. }
    pose proof PI_RGT_0 as Hpi.
    assert (Hmax : 0 < th_max < PI / 2).
    { unfold th_max. split.
      - rewrite <- asin_0. apply sin_increasing_0.
        + pose proof (asin_bound 0). lra.
        + pose proof (asin_bound 0). lra.
        + pose proof (asin_bound q). lra.
        + pose proof (asin_bound q). lra.
        + rewrite !sin_asin by lra. lra.
      - apply asin_bound_lt. lra. }
    split.
    + intros Hgt. rewrite Hacc, fgt_fin_true by lra.
      split; reflexivity.
    + intros Hle. rewrite Hacc, fgt_fin_false by lra.
      assert (Hcmax : cos th_max = sqrt (1 - q ^ 2)).
      { unfold th_max. rewrite cos_asin by lra. rewrite Rsqr_pow2.
        reflexivity. }
      assert (Hsq : 0 < sqrt (1 - q ^ 2)).
      { apply sqrt_lt_R0. nra. }
      assert (Hcr : sqrt (1 - q ^ 2) <= cos r <= 1).
      { split.
        - rewrite <- Hcmax. apply cos_decr_1; lra.
        - apply COS_bound. }
      split; [reflexivity|]. split.
      * unfold back_aperture_obliqueness. cbn [theta np_cos].
        rewrite fdiv_fin by lra. reflexivity.
      * split.
        -- apply (Rmult_le_reg_r (cos r)); [lra|].
           unfold Rdiv. rewrite Rmult_assoc, Rinv_l by lra. lra.
        -- unfold Rdiv. rewrite !Rmult_1_l.
           apply Rinv_le_contravar; lra.
Qed.

Lemma acceptance_and_obliqueness_witness :
  accept (mkLens (/ 2) 1 0) (Fin 0) = Ok (Fin 0) /\
  1 <= 1 / cos 0 <= 1 / sqrt (1 - (/ 2 / 1) ^ 2).
Proof.
  assert (Hl : 0 < NA (mkLens (/ 2) 1 0) < RI (mkLens (/ 2) 1 0))
    by (cbn [NA RI]; lra).
  assert (Hr : 0 <= 0 <= PI / 2) by (pose proof PI_RGT_0; lra).
  destruct (proj2 (@acceptance_and_obliqueness (mkLens (/ 2) 1 0)) Hl
                  0 (Fin 0) Hr) as [_ H].
  assert (Hle : 0 <= asin (NA (mkLens (/ 2) 1 0) / RI (mkLens (/ 2) 1 0))).
  { cbn [NA RI]. rewrite <- asin_0 at 1.
    apply sin_incr_0.
    - pose proof (asin_bound 0). lra.
    - pose proof (asin_bound 0). lra.
    - pose proof (asin_bound (/ 2 / 1)). lra.
    - pose proof (asin_bound (/ 2 / 1)). lra.
    - rewrite !sin_asin by lra. lra. }
  destruct (H Hle) as (H1 & _ & H3).
  split; [exact H1|exact H3].
Defined.

End AcceptanceFacts.
